(** * Eclipsera: the tilt-controlled coin game of [index.py]

    A shallow embedding of the control loop of [src/index.py] (telemetry
    queue, line parser, gesture interpretation, physics and the game state
    machine) together with the properties its specification states.

    Conventions of the embedding.
    - Python [int] is [Z]; list indices and the character index are [nat].
    - Python floats are embedded as rationals [Q]. The arithmetic on
      obstacle velocities and positions rounds as doubles do, see [Double];
      wall-clock timestamps ([time.time()]) are compared as rationals.
    - A test [sqrt n < r] on integers is embedded by its exact meaning,
      see [dist_lt] and [dist_lt_sqrt].
    - [random] is embedded as a deterministic reading of an entropy source
      [nat -> Z], with the read position kept in the game state.
    - Drawing and sound are presentation and are left out. *)

From Stdlib Require Import ZArith QArith Reals Lia Lqa Ascii String.
From stdpp Require Import base option list.

Open Scope Z_scope.

(** ** Strings: the fragment of [str] that the program uses *)

Module PyStr.

(** A character is a code point below 256. [str.isspace] on that range:
    TAB..CR, FS..US, the space, NEL and the no-break space. *)
Definition is_space (c : ascii) : bool :=
  let n := nat_of_ascii c in
  ((9 <=? n) && (n <=? 13) || (28 <=? n) && (n <=? 32)
   || (n =? 133) || (n =? 160))%nat.

Definition is_digit (c : ascii) : bool :=
  let n := nat_of_ascii c in ((48 <=? n) && (n <=? 57))%nat.

Definition digit_val (c : ascii) : Z := Z.of_nat (nat_of_ascii c) - 48.

Definition is_empty (s : string) : bool :=
  match s with EmptyString => true | String _ _ => false end.

Fixpoint lstrip (s : string) : string :=
  match s with
  | EmptyString => EmptyString
  | String c s' => if is_space c then lstrip s' else s
  end.

Fixpoint rstrip (s : string) : string :=
  match s with
  | EmptyString => EmptyString
  | String c s' =>
      let r := rstrip s' in
      if is_space c && is_empty r then EmptyString else String c r
  end.

(** [s.strip()] *)
Definition strip (s : string) : string := rstrip (lstrip s).

(** [s.split(",")]: one more token than there are commas. *)
Fixpoint split_comma (s : string) : list string :=
  match s with
  | EmptyString => [EmptyString]
  | String c s' =>
      if Ascii.eqb c ","%char then EmptyString :: split_comma s'
      else match split_comma s' with
           | [] => [String c EmptyString]
           | t :: ts => String c t :: ts
           end
  end.

(** The digits of a decimal literal as [int()] accepts them: at least one
    digit, single underscores allowed between digits only. [prev] tells
    whether the previous character was a digit. *)
Fixpoint digits (acc : Z) (prev : bool) (s : string) : option Z :=
  match s with
  | EmptyString => if prev then Some acc else None
  | String c s' =>
      if is_digit c then digits (10 * acc + digit_val c) true s'
      else if Ascii.eqb c "_"%char then
             (if prev then digits acc false s' else None)
      else None
  end.

(** The number of digit characters of a literal, underscores not counted. *)
Fixpoint count_digits (s : string) : nat :=
  match s with
  | EmptyString => 0%nat
  | String c s' => if is_digit c then S (count_digits s') else count_digits s'
  end.

(** [sys.get_int_max_str_digits()], by default (interpreters since 3.11). *)
Definition max_str_digits : nat := 4300.

(** The literal after the sign: [int()] raises [ValueError] on a literal
    of more than [max_str_digits] digits. *)
Definition literal (d : string) : option Z :=
  if (max_str_digits <? count_digits d)%nat then None else digits 0 false d.

(** [int(s)] in base ten; [None] stands for [ValueError]. *)
Definition int (s : string) : option Z :=
  match strip s with
  | String "-"%char d => Z.opp <$> literal d
  | String "+"%char d => literal d
  | d => literal d
  end.

End PyStr.

(** ** The line parser *)

Record Sample := mkSample { ax : Z; ay : Z; az : Z; btn : option Z }.

(** [[p.strip() for p in line.split(",") if p.strip() != ""]] *)
Definition tokens (line : string) : list string :=
  List.filter (fun p => negb (PyStr.is_empty p))
              (List.map PyStr.strip (PyStr.split_comma line)).

(** [parse_serial_line]; [None] is the [None] the function returns, both
    for too few tokens and for the caught [ValueError]. *)
Definition parse_serial_line (line : string) : option Sample :=
  let parts := tokens line in
  if (length parts <? 3)%nat then None
  else
    x ← parts !! 0%nat ≫= PyStr.int;
    y ← parts !! 1%nat ≫= PyStr.int;
    z ← parts !! 2%nat ≫= PyStr.int;
    let b := if (4 <=? length parts)%nat
             then parts !! 3%nat ≫= PyStr.int else None in
    Some (mkSample x y z b).

(** ** The telemetry queue: [deque(maxlen=100)], oldest line first *)

Module SerialReader.

Definition maxlen : nat := 100.

Definition queue := list string.

(** [deque.append] on a bounded deque: when full, the leftmost (oldest)
    entry is discarded first. *)
Definition append (l : string) (q : queue) : queue :=
  if (maxlen <=? length q)%nat then List.tl q ++ [l] else q ++ [l].

(** The body of the loop of [run] for one received raw line: the line is
    stripped and queued unless it is empty. *)
Definition push_raw (q : queue) (raw : string) : queue :=
  let line := PyStr.strip raw in
  if PyStr.is_empty line then q else append line q.

(** [deque.pop()]: removes and returns the rightmost entry. *)
Fixpoint pop (q : queue) : option (string * queue) :=
  match q with
  | [] => None
  | [l] => Some (l, [])
  | l :: q' => match pop q' with
               | Some (x, r) => Some (x, l :: r)
               | None => None
               end
  end.

(** [get_latest]: [self.queue.pop() if self.queue else None], returning
    the line (if any) and the queue left behind. *)
Definition get_latest (q : queue) : option string * queue :=
  match pop q with
  | Some (l, q') => (Some l, q')
  | None => (None, q)
  end.

End SerialReader.

(** ** Configuration constants *)

Definition WIDTH : Z := 900.
Definition HEIGHT : Z := 600.

Definition AX_POS_THRESHOLD : Z := 2000.
Definition AX_NEG_THRESHOLD : Z := -2000.
Definition AY_POS_THRESHOLD : Z := 2000.
Definition AY_NEG_THRESHOLD : Z := -2000.

Definition SWITCH_DEBOUNCE : Q := 1 # 2.
Definition SHAKE_THRESHOLD : Z := 15000.

Definition BALL_RADIUS : Z := 25.
Definition BALL_SPEED : Z := 5.
Definition COIN_RADIUS : Z := 15.
Definition POWERUP_CHANCE : Q := 18 # 100.
Definition POWERUP_DURATION : Q := 6 # 1.
Definition OBSTACLE_COUNT : nat := 3.
Definition OBSTACLE_MIN_SPEED : Q := 2 # 1.
Definition OBSTACLE_MAX_SPEED : Q := 4 # 1.
Definition GAME_DURATION : Q := 60 # 1.

(** ** Comparisons on floats-as-rationals and on distances *)

Definition Qltb (x y : Q) : bool := negb (Qle_bool y x).

(** [n ** 0.5 < r] for an integer sum of squares [n] and an integer [r]:
    the square root is below [r] exactly when [r] is positive and
    [n < r * r]. *)
Definition dist_lt (n r : Z) : bool := (0 <? r) && (n <? r * r).

Definition sq (x : Z) : Z := x * x.

(** ** Doubles

    A finite double is a rational, and a float operation returns the exact
    result rounded to the nearest double, ties to the even significand.
    The values that occur here are far from overflow and from the
    subnormal range, so a double is a rational of 53 significant bits. *)

Module Double.

(** The integer nearest to [q], ties to the even one. *)
Definition rne (q : Q) : Z :=
  let n := Qnum q in
  let d := Z.pos (Qden q) in
  let f := n / d in
  let r2 := 2 * (n mod d) in
  if r2 <? d then f
  else if d <? r2 then f + 1
  else if Z.even f then f else f + 1.

(** [2 ^ e] for an integer [e] of either sign. *)
Definition pow2 (e : Z) : Q :=
  if 0 <=? e then inject_Z (2 ^ e) else Qmake 1 (Z.to_pos (2 ^ (- e))).

(** The integer part of the binary logarithm of [|q|], for [q] not zero. *)
Definition flog2 (q : Q) : Z :=
  let n := Z.abs (Qnum q) in
  let d := Z.pos (Qden q) in
  let k := Z.log2 n - Z.log2 d in
  if (if 0 <=? k then d * 2 ^ k <=? n else d <=? n * 2 ^ (- k))
  then k else k - 1.

(** The double nearest to [q]: [q] is scaled so that its significand has
    53 bits, rounded to an integer and scaled back. *)
Definition round (q : Q) : Q :=
  if Qnum q =? 0 then 0%Q
  else let e := flog2 q - 52 in
       (inject_Z (rne (q * pow2 (- e))) * pow2 e)%Q.

(** [x + y], [x - y] and [x * y] on floats. *)
Definition add (x y : Q) : Q := round (x + y).
Definition sub (x y : Q) : Q := round (x - y).
Definition mul (x y : Q) : Q := round (x * y).

End Double.

(** ** The random source *)

Module Rnd.

(** [random.randint(a, b)]: an integer of [a .. b]. *)
Definition randint (a b raw : Z) : Z := a + raw mod (b - a + 1).

(** [random.random()]: a 53-bit fraction of [0, 1). *)
Definition random (raw : Z) : Q := Qmake (raw mod 2 ^ 53) (2 ^ 53).

(** [random.uniform(a, b)] is [a + (b - a) * random()], in floats. *)
Definition uniform (a b : Q) (raw : Z) : Q :=
  Double.add a (Double.mul (Double.sub b a) (random raw)).

(** [random.choice([-1, 1])] *)
Definition choice_sign (raw : Z) : Z := if Z.even raw then -1 else 1.

End Rnd.

(** ** Rectangles and obstacles *)

(** [pygame.Rect]: integer position and size. *)
Record Rect := mkRect { rx : Z; ry : Z; rw : Z; rh : Z }.

Definition left (r : Rect) : Z := rx r.
Definition top (r : Rect) : Z := ry r.
Definition right (r : Rect) : Z := rx r + rw r.
Definition bottom (r : Rect) : Z := ry r + rh r.
(** The centre is the corner plus the integer half of the size. *)
Definition centerx (r : Rect) : Z := rx r + Z.quot (rw r) 2.
Definition centery (r : Rect) : Z := ry r + Z.quot (rh r) 2.

(** Assigning a float to a [Rect] coordinate keeps its integer part (the
    conversion of pygame, a C cast of the double to [int]). *)
Definition rect_int (q : Q) : Z := Z.quot (Qnum q) (Z.pos (Qden q)).

Record Obstacle := mkObstacle { rect : Rect; vx : Q; vy : Q }.

(** [Obstacle.update]: [self.rect.x += self.vx] adds the float speed to
    the integer coordinate, as a float, and assigns the sum to the
    coordinate; [self.vx *= -1] is exact. *)
Definition obstacle_update (o : Obstacle) : Obstacle :=
  let r := rect o in
  let x1 := rect_int (Double.add (inject_Z (rx r)) (vx o)) in
  let y1 := rect_int (Double.add (inject_Z (ry r)) (vy o)) in
  let bx := (x1 <? 0) || (x1 + rw r >? WIDTH) in
  let vx' := if bx then (vx o * (-1 # 1))%Q else vx o in
  let x2 := if bx then Z.max 0 (Z.min x1 (WIDTH - rw r)) else x1 in
  let by_ := (y1 <? 0) || (y1 + rh r >? HEIGHT) in
  let vy' := if by_ then (vy o * (-1 # 1))%Q else vy o in
  let y2 := if by_ then Z.max 0 (Z.min y1 (HEIGHT - rh r)) else y1 in
  mkObstacle (mkRect x2 y2 (rw r) (rh r)) vx' vy'.

(** The point of the rectangle closest to the ball centre. *)
Definition closest_x (bx : Z) (r : Rect) : Z := Z.max (left r) (Z.min bx (right r)).
Definition closest_y (by_ : Z) (r : Rect) : Z := Z.max (top r) (Z.min by_ (bottom r)).

(** The plain circle-versus-rectangle test: the distance from the ball
    centre to the closest point of the rectangle is below the radius. *)
Definition closest_point_hit (bx by_ rad : Z) (r : Rect) : bool :=
  dist_lt (sq (bx - closest_x bx r) + sq (by_ - closest_y by_ r)) rad.

(** The test as the loop body of [main] makes it: the two [continue]s of
    the broad phase, then the closest-point test. [width/2] is a true
    division. *)
Definition collides (bx by_ rad : Z) (r : Rect) : bool :=
  let circle_dist_x := Z.abs (bx - centerx r) in
  let circle_dist_y := Z.abs (by_ - centery r) in
  if Qltb (inject_Z (rw r) / (2 # 1) + inject_Z rad) (inject_Z circle_dist_x)
  then false
  else if Qltb (inject_Z (rh r) / (2 # 1) + inject_Z rad) (inject_Z circle_dist_y)
  then false
  else closest_point_hit bx by_ rad r.

(** ** Characters and the game state *)

Record Character := mkCharacter { name : string; color : Z * Z * Z; radius : Z }.

Inductive GState := STATE_MENU | STATE_PLAY | STATE_PAUSE | STATE_GAMEOVER.

Global Instance GState_eq_dec : EqDecision GState.
Proof. solve_decision. Defined.

(** The variables of [main] that the loop reads and writes, the queue of
    the reader thread and the position in the random source. *)
Record Game := mkGame {
  characters : list Character;
  current_char : nat;
  last_switch : Q;
  state : GState;
  obstacles : list Obstacle;
  start_time : Q;
  ball_x : Z;
  ball_y : Z;
  score : Z;
  coin_x : Z;
  coin_y : Z;
  coin_special : bool;
  power_active : bool;
  power_ends_at : Q;
  move_dx : Z;
  move_dy : Z;
  running : bool;
  game_over_time : option Q;
  queue : SerialReader.queue;
  rng_pos : nat
}.

(** Assignment to one variable; every other variable keeps its value. *)

Definition set_characters (v : list Character) (g : Game) : Game :=
  mkGame v (current_char g) (last_switch g) (state g) (obstacles g)
    (start_time g) (ball_x g) (ball_y g) (score g) (coin_x g) (coin_y g)
    (coin_special g) (power_active g) (power_ends_at g) (move_dx g)
    (move_dy g) (running g) (game_over_time g) (queue g) (rng_pos g).

Definition set_current_char (v : nat) (g : Game) : Game :=
  mkGame (characters g) v (last_switch g) (state g) (obstacles g)
    (start_time g) (ball_x g) (ball_y g) (score g) (coin_x g) (coin_y g)
    (coin_special g) (power_active g) (power_ends_at g) (move_dx g)
    (move_dy g) (running g) (game_over_time g) (queue g) (rng_pos g).

Definition set_last_switch (v : Q) (g : Game) : Game :=
  mkGame (characters g) (current_char g) v (state g) (obstacles g)
    (start_time g) (ball_x g) (ball_y g) (score g) (coin_x g) (coin_y g)
    (coin_special g) (power_active g) (power_ends_at g) (move_dx g)
    (move_dy g) (running g) (game_over_time g) (queue g) (rng_pos g).

Definition set_state (v : GState) (g : Game) : Game :=
  mkGame (characters g) (current_char g) (last_switch g) v (obstacles g)
    (start_time g) (ball_x g) (ball_y g) (score g) (coin_x g) (coin_y g)
    (coin_special g) (power_active g) (power_ends_at g) (move_dx g)
    (move_dy g) (running g) (game_over_time g) (queue g) (rng_pos g).

Definition set_obstacles (v : list Obstacle) (g : Game) : Game :=
  mkGame (characters g) (current_char g) (last_switch g) (state g) v
    (start_time g) (ball_x g) (ball_y g) (score g) (coin_x g) (coin_y g)
    (coin_special g) (power_active g) (power_ends_at g) (move_dx g)
    (move_dy g) (running g) (game_over_time g) (queue g) (rng_pos g).

Definition set_start_time (v : Q) (g : Game) : Game :=
  mkGame (characters g) (current_char g) (last_switch g) (state g)
    (obstacles g) v (ball_x g) (ball_y g) (score g) (coin_x g) (coin_y g)
    (coin_special g) (power_active g) (power_ends_at g) (move_dx g)
    (move_dy g) (running g) (game_over_time g) (queue g) (rng_pos g).

Definition set_ball_x (v : Z) (g : Game) : Game :=
  mkGame (characters g) (current_char g) (last_switch g) (state g)
    (obstacles g) (start_time g) v (ball_y g) (score g) (coin_x g) (coin_y g)
    (coin_special g) (power_active g) (power_ends_at g) (move_dx g)
    (move_dy g) (running g) (game_over_time g) (queue g) (rng_pos g).

Definition set_ball_y (v : Z) (g : Game) : Game :=
  mkGame (characters g) (current_char g) (last_switch g) (state g)
    (obstacles g) (start_time g) (ball_x g) v (score g) (coin_x g) (coin_y g)
    (coin_special g) (power_active g) (power_ends_at g) (move_dx g)
    (move_dy g) (running g) (game_over_time g) (queue g) (rng_pos g).

Definition set_score (v : Z) (g : Game) : Game :=
  mkGame (characters g) (current_char g) (last_switch g) (state g)
    (obstacles g) (start_time g) (ball_x g) (ball_y g) v (coin_x g) (coin_y g)
    (coin_special g) (power_active g) (power_ends_at g) (move_dx g)
    (move_dy g) (running g) (game_over_time g) (queue g) (rng_pos g).

Definition set_coin_x (v : Z) (g : Game) : Game :=
  mkGame (characters g) (current_char g) (last_switch g) (state g)
    (obstacles g) (start_time g) (ball_x g) (ball_y g) (score g) v (coin_y g)
    (coin_special g) (power_active g) (power_ends_at g) (move_dx g)
    (move_dy g) (running g) (game_over_time g) (queue g) (rng_pos g).

Definition set_coin_y (v : Z) (g : Game) : Game :=
  mkGame (characters g) (current_char g) (last_switch g) (state g)
    (obstacles g) (start_time g) (ball_x g) (ball_y g) (score g) (coin_x g) v
    (coin_special g) (power_active g) (power_ends_at g) (move_dx g)
    (move_dy g) (running g) (game_over_time g) (queue g) (rng_pos g).

Definition set_coin_special (v : bool) (g : Game) : Game :=
  mkGame (characters g) (current_char g) (last_switch g) (state g)
    (obstacles g) (start_time g) (ball_x g) (ball_y g) (score g) (coin_x g)
    (coin_y g) v (power_active g) (power_ends_at g) (move_dx g) (move_dy g)
    (running g) (game_over_time g) (queue g) (rng_pos g).

Definition set_power_active (v : bool) (g : Game) : Game :=
  mkGame (characters g) (current_char g) (last_switch g) (state g)
    (obstacles g) (start_time g) (ball_x g) (ball_y g) (score g) (coin_x g)
    (coin_y g) (coin_special g) v (power_ends_at g) (move_dx g) (move_dy g)
    (running g) (game_over_time g) (queue g) (rng_pos g).

Definition set_power_ends_at (v : Q) (g : Game) : Game :=
  mkGame (characters g) (current_char g) (last_switch g) (state g)
    (obstacles g) (start_time g) (ball_x g) (ball_y g) (score g) (coin_x g)
    (coin_y g) (coin_special g) (power_active g) v (move_dx g) (move_dy g)
    (running g) (game_over_time g) (queue g) (rng_pos g).

Definition set_move_dx (v : Z) (g : Game) : Game :=
  mkGame (characters g) (current_char g) (last_switch g) (state g)
    (obstacles g) (start_time g) (ball_x g) (ball_y g) (score g) (coin_x g)
    (coin_y g) (coin_special g) (power_active g) (power_ends_at g) v
    (move_dy g) (running g) (game_over_time g) (queue g) (rng_pos g).

Definition set_move_dy (v : Z) (g : Game) : Game :=
  mkGame (characters g) (current_char g) (last_switch g) (state g)
    (obstacles g) (start_time g) (ball_x g) (ball_y g) (score g) (coin_x g)
    (coin_y g) (coin_special g) (power_active g) (power_ends_at g) (move_dx g)
    v (running g) (game_over_time g) (queue g) (rng_pos g).

Definition set_running (v : bool) (g : Game) : Game :=
  mkGame (characters g) (current_char g) (last_switch g) (state g)
    (obstacles g) (start_time g) (ball_x g) (ball_y g) (score g) (coin_x g)
    (coin_y g) (coin_special g) (power_active g) (power_ends_at g) (move_dx g)
    (move_dy g) v (game_over_time g) (queue g) (rng_pos g).

Definition set_game_over_time (v : option Q) (g : Game) : Game :=
  mkGame (characters g) (current_char g) (last_switch g) (state g)
    (obstacles g) (start_time g) (ball_x g) (ball_y g) (score g) (coin_x g)
    (coin_y g) (coin_special g) (power_active g) (power_ends_at g) (move_dx g)
    (move_dy g) (running g) v (queue g) (rng_pos g).

Definition set_queue (v : SerialReader.queue) (g : Game) : Game :=
  mkGame (characters g) (current_char g) (last_switch g) (state g)
    (obstacles g) (start_time g) (ball_x g) (ball_y g) (score g) (coin_x g)
    (coin_y g) (coin_special g) (power_active g) (power_ends_at g) (move_dx g)
    (move_dy g) (running g) (game_over_time g) v (rng_pos g).

Definition set_rng_pos (v : nat) (g : Game) : Game :=
  mkGame (characters g) (current_char g) (last_switch g) (state g)
    (obstacles g) (start_time g) (ball_x g) (ball_y g) (score g) (coin_x g)
    (coin_y g) (coin_special g) (power_active g) (power_ends_at g) (move_dx g)
    (move_dy g) (running g) (game_over_time g) (queue g) v.
Notation "g |> f" := (f g) (at level 45, left associativity, only parsing).

(** [characters[current_char]["radius"]]; [None] stands for [IndexError]. *)
Definition cur_radius (g : Game) : option Z :=
  radius <$> characters g !! current_char g.

(** [characters[current_char]["radius"] = r] *)
Definition set_cur_radius (r : Z) (g : Game) : Game :=
  set_characters
    (alter (fun c => mkCharacter (name c) (color c) r)
           (current_char g) (characters g)) g.

(** ** What one iteration of the main loop receives *)

Inductive Key := K_RETURN | K_ESCAPE | K_p | K_other.

Inductive Event := QUIT | KEYDOWN (k : Key) | OTHER_EVENT.

(** The arrow keys of [pygame.key.get_pressed()]. *)
Record Pressed := mkPressed {
  K_LEFT : bool; K_RIGHT : bool; K_UP : bool; K_DOWN : bool
}.

(** [now] is the [time.time()] read at the top of the iteration, [clock]
    the one read by [init_game] if an event of the iteration calls it,
    [arrivals] the raw lines the reader thread received since the previous
    [get_latest], oldest first. *)
Record Frame := mkFrame {
  now : Q;
  clock : Q;
  events : list Event;
  arrivals : list string;
  keys : Pressed
}.

(** ** Gesture interpretation *)

(** [move_dx = 0] followed by the two tests on [ax]. *)
Definition sensor_dx (a : Z) : Z :=
  if a >? AX_POS_THRESHOLD then 0 + BALL_SPEED
  else if a <? AX_NEG_THRESHOLD then 0 - BALL_SPEED
  else 0.

(** [move_dy = 0] followed by the two tests on [ay]. *)
Definition sensor_dy (a : Z) : Z :=
  if a >? AY_POS_THRESHOLD then 0 - BALL_SPEED
  else if a <? AY_NEG_THRESHOLD then 0 + BALL_SPEED
  else 0.

(** The two assignments of a successful switch. *)
Definition advance (t : Q) (g : Game) : Game :=
  g |> set_current_char ((current_char g + 1) mod length (characters g))%nat
    |> set_last_switch t.

Definition button_fires (t : Q) (s : Sample) (g : Game) : bool :=
  match btn s with
  | Some b => (b =? 1) && Qltb SWITCH_DEBOUNCE (t - last_switch g)
  | None => false
  end.

Definition shake_fires (t : Q) (s : Sample) (g : Game) : bool :=
  (Z.abs (az s) >? SHAKE_THRESHOLD) && Qltb SWITCH_DEBOUNCE (t - last_switch g).

(** The character switch: the button first, the shake only when the button
    did not switch. *)
Definition switch_character (t : Q) (s : Sample) (g : Game) : Game :=
  let switched := button_fires t s g in
  let g1 := if switched then advance t g else g in
  if negb switched && shake_fires t s g1 then advance t g1 else g1.

(** The body of [if parsed:]. *)
Definition process_sample (t : Q) (s : Sample) (g : Game) : Game :=
  g |> set_move_dx (sensor_dx (ax s))
    |> set_move_dy (sensor_dy (ay s))
    |> switch_character t s.

(** The serial input block: take the latest line, parse it, interpret it. *)
Definition process_serial (t : Q) (g : Game) : Game :=
  let '(latest_line, q) := SerialReader.get_latest (queue g) in
  let g := set_queue q g in
  match latest_line with
  | Some l =>
      if PyStr.is_empty l then g
      else match parse_serial_line l with
           | Some s => process_sample t s g
           | None => g
           end
  | None => g
  end.

(** What the held arrow keys add to the deltas on one iteration. *)
Definition key_dx (k : Pressed) : Z :=
  (if K_LEFT k then - BALL_SPEED else 0) + (if K_RIGHT k then BALL_SPEED else 0).
Definition key_dy (k : Pressed) : Z :=
  (if K_UP k then - BALL_SPEED else 0) + (if K_DOWN k then BALL_SPEED else 0).

(** The keyboard block: four in-place updates of the deltas. *)
Definition keyboard (k : Pressed) (g : Game) : Game :=
  let dx := move_dx g in
  let dx := if K_LEFT k then dx - BALL_SPEED else dx in
  let dx := if K_RIGHT k then dx + BALL_SPEED else dx in
  let dy := move_dy g in
  let dy := if K_UP k then dy - BALL_SPEED else dy in
  let dy := if K_DOWN k then dy + BALL_SPEED else dy in
  g |> set_move_dx dx |> set_move_dy dy.

(** ** The round: start, physics, collisions, timers *)

Definition game_over (t : Q) (g : Game) : Game :=
  g |> set_state STATE_GAMEOVER |> set_game_over_time (Some t).

(** The timeout of the power-up. *)
Definition power_timeout (t : Q) (g : Game) : Game :=
  if power_active g && Qle_bool (power_ends_at g) t
  then g |> set_power_active false |> set_cur_radius BALL_RADIUS
  else g.

(** The loop over the obstacles: each one moves, then is tested against the
    ball; a hit assigns the state and the loop goes on. *)
Fixpoint obstacle_loop (t : Q) (rad : Z) (obs : list Obstacle) (g : Game)
  : list Obstacle * Game :=
  match obs with
  | [] => ([], g)
  | o :: rest =>
      let o' := obstacle_update o in
      let g' := if collides (ball_x g) (ball_y g) rad (rect o')
                then game_over t g else g in
      let '(rest', g'') := obstacle_loop t rad rest g' in
      (o' :: rest', g'')
  end.

Definition update_obstacles (t : Q) (g : Game) : option Game :=
  r ← cur_radius g;
  let '(obs, g') := obstacle_loop t r (obstacles g) g in
  Some (set_obstacles obs g').

(** The game duration timer. *)
Definition round_timer (t : Q) (g : Game) : Game :=
  if Qle_bool GAME_DURATION (t - start_time g) then game_over t g else g.

(** The ball moves by the deltas and is clamped to the screen. *)
Definition move_ball (g : Game) : option Game :=
  r ← cur_radius g;
  Some (g |> set_ball_x (Z.max r (Z.min (WIDTH - r) (ball_x g + move_dx g)))
          |> set_ball_y (Z.max r (Z.min (HEIGHT - r) (ball_y g + move_dy g)))).

Section Main.

(** The entropy the random module draws from. *)
Variable entropy : nat -> Z.

Definition draw_coin_x (p : nat) : Z :=
  Rnd.randint COIN_RADIUS (WIDTH - COIN_RADIUS) (entropy p).
Definition draw_coin_y (p : nat) : Z :=
  Rnd.randint COIN_RADIUS (HEIGHT - COIN_RADIUS) (entropy p).
Definition draw_special (p : nat) : bool :=
  Qltb (Rnd.random (entropy p)) POWERUP_CHANCE.

(** One pass of the obstacle spawning loop, reading eight draws. *)
Definition spawn_obstacle (p : nat) : Obstacle :=
  let w := Rnd.randint 30 70 (entropy p) in
  let h := Rnd.randint 30 50 (entropy (p + 1)) in
  let x := Rnd.randint 0 (WIDTH - w) (entropy (p + 2)) in
  let y := Rnd.randint 0 (HEIGHT - h) (entropy (p + 3)) in
  let vx := Double.mul (inject_Z (Rnd.choice_sign (entropy (p + 4))))
              (Rnd.uniform OBSTACLE_MIN_SPEED OBSTACLE_MAX_SPEED (entropy (p + 5))) in
  let vy := Double.mul (inject_Z (Rnd.choice_sign (entropy (p + 6))))
              (Rnd.uniform OBSTACLE_MIN_SPEED OBSTACLE_MAX_SPEED (entropy (p + 7))) in
  mkObstacle (mkRect x y w h) vx vy.

Fixpoint spawn_obstacles (n p : nat) : list Obstacle :=
  match n with
  | O => []
  | S n' => spawn_obstacle p :: spawn_obstacles n' (p + 8)
  end.

(** [init_game]; [t] is the [time.time()] it reads. It assigns the ball,
    the score, the coin, the power-up, the obstacles and the start time,
    and nothing else. *)
Definition init_game (t : Q) (g : Game) : Game :=
  let p := rng_pos g in
  g |> set_ball_x (WIDTH / 2)
    |> set_ball_y (HEIGHT / 2)
    |> set_score 0
    |> set_coin_x (draw_coin_x p)
    |> set_coin_y (draw_coin_y (p + 1))
    |> set_coin_special (draw_special (p + 2))
    |> set_power_active false
    |> set_power_ends_at 0%Q
    |> set_obstacles (spawn_obstacles OBSTACLE_COUNT (p + 3))
    |> set_rng_pos (p + 3 + 8 * OBSTACLE_COUNT)
    |> set_start_time t.

(** The three assignments that spawn a new coin. *)
Definition spawn_coin (g : Game) : Game :=
  let p := rng_pos g in
  g |> set_coin_x (draw_coin_x p)
    |> set_coin_y (draw_coin_y (p + 1))
    |> set_coin_special (draw_special (p + 2))
    |> set_rng_pos (p + 3).

(** The body of the coin test: score, power-up, new coin. *)
Definition collect (t : Q) (g : Game) : Game :=
  (if coin_special g
   then g |> set_score (score g + 5)
          |> set_power_active true
          |> set_power_ends_at (t + POWERUP_DURATION)%Q
          |> set_cur_radius (BALL_RADIUS + 8)
   else g |> set_score (score g + 1))
  |> spawn_coin.

(** The coin is reached when the centres are closer than the two radii. *)
Definition coin_reached (g : Game) (r : Z) : bool :=
  dist_lt (sq (ball_x g - coin_x g) + sq (ball_y g - coin_y g)) (r + COIN_RADIUS).

Definition check_coin (t : Q) (g : Game) : option Game :=
  r ← cur_radius g;
  Some (if coin_reached g r then collect t g else g).

(** The block under [if state == STATE_PLAY], headed UPDATE GAME STATE. *)
Definition update_game_state (t : Q) (g : Game) : option Game :=
  g1 ← move_ball g;
  g2 ← check_coin t g1;
  g3 ← update_obstacles t (power_timeout t g2);
  Some (round_timer t g3).

(** One [KEYDOWN] or [QUIT] event. *)
Definition handle_event (t : Q) (g : Game) (e : Event) : Game :=
  match e with
  | QUIT => set_running false g
  | KEYDOWN k =>
      match state g, k with
      | STATE_MENU, K_RETURN => g |> set_state STATE_PLAY |> init_game t
      | STATE_MENU, K_ESCAPE => set_running false g
      | STATE_PLAY, K_p => set_state STATE_PAUSE g
      | STATE_PLAY, K_ESCAPE => set_state STATE_MENU g
      | STATE_PAUSE, K_p => set_state STATE_PLAY g
      | STATE_PAUSE, K_ESCAPE => set_state STATE_MENU g
      | STATE_GAMEOVER, K_RETURN => g |> set_state STATE_PLAY |> init_game t
      | STATE_GAMEOVER, K_ESCAPE => set_state STATE_MENU g
      | _, _ => g
      end
  | OTHER_EVENT => g
  end.

(** The start of an iteration: the events are handled, and the lines the
    reader received meanwhile are in the queue. *)
Definition receive (f : Frame) (g : Game) : Game :=
  let g := fold_left (handle_event (clock f)) (events f) g in
  set_queue (fold_left SerialReader.push_raw (arrivals f) (queue g)) g.

(** The inputs of an iteration before the update: the events, the serial
    block, the keyboard block. *)
Definition inputs (f : Frame) (g : Game) : Game :=
  receive f g |> process_serial (now f) |> keyboard (keys f).

(** One iteration of the main loop. *)
Definition frame_step (f : Frame) (g : Game) : option Game :=
  let g := inputs f g in
  if decide (state g = STATE_PLAY) then update_game_state (now f) g else Some g.

(** The loop: it runs while [running] holds. *)
Fixpoint run (fs : list Frame) (g : Game) : option Game :=
  match fs with
  | [] => Some g
  | f :: fs' => if running g then frame_step f g ≫= run fs' else Some g
  end.

(** The variables as [main] sets them before the loop; [t] is the clock
    read by the first [init_game]. *)
Definition main_start (t : Q) : Game :=
  init_game t
    (mkGame
       [ mkCharacter "Green" (60, 200, 80) BALL_RADIUS;
         mkCharacter "Blue" (60, 140, 220) BALL_RADIUS;
         mkCharacter "Orange" (255, 165, 60) BALL_RADIUS ]
       0 0%Q STATE_MENU [] 0%Q 0 0 0 0 0 false false 0%Q 0 0 true None [] 0).

End Main.

(** * Auxiliary definitions used by the statements *)

Module Aux.

(** A string of [n] copies of a character. *)
Fixpoint repeat_char (c : ascii) (n : nat) : string :=
  match n with
  | O => EmptyString
  | S n' => String c (repeat_char c n')
  end.

(** Putting the commas back between the pieces of a split. *)
Fixpoint join_comma (l : list string) : string :=
  match l with
  | [] => EmptyString
  | [t] => t
  | t :: ts => (t ++ String ","%char (join_comma ts))%string
  end.

(** [n] successive calls of [get_latest] with no push in between: the
    results in call order and the queue left. *)
Fixpoint drain (n : nat) (q : SerialReader.queue)
  : list (option string) * SerialReader.queue :=
  match n with
  | O => ([], q)
  | S n' =>
      let '(r, q') := SerialReader.get_latest q in
      let '(rs, q'') := drain n' q' in
      (r :: rs, q'')
  end.

(** The character list has its three entries and the current index points
    at one of them. *)
Definition char_inv (g : Game) : Prop :=
  length (characters g) = 3%nat /\ (current_char g < 3)%nat.

(** The length of the character list and the current index. *)
Definition chars_shape (g : Game) : nat * nat :=
  (length (characters g), current_char g).

(** Some trigger switches the character on this sample. *)
Definition switched (t : Q) (s : Sample) (g : Game) : bool :=
  button_fires t s g || shake_fires t s g.

(** The sample that the serial block interprets when it reads this queue,
    if there is one: the latest line, when it is not empty and parses. *)
Definition latest_sample (q : SerialReader.queue) : option Sample :=
  match fst (SerialReader.get_latest q) with
  | Some l => if PyStr.is_empty l then None else parse_serial_line l
  | None => None
  end.

(** The ball after the move and the clamp, for the radius [r]. *)
Definition moved (r : Z) (g : Game) : Game :=
  g |> set_ball_x (Z.max r (Z.min (WIDTH - r) (ball_x g + move_dx g)))
    |> set_ball_y (Z.max r (Z.min (HEIGHT - r) (ball_y g + move_dy g))).

(** Some obstacle, once moved, is hit by the ball of radius [rad]. *)
Definition any_hit (rad : Z) (g : Game) : bool :=
  existsb (fun o => collides (ball_x g) (ball_y g) rad (rect (obstacle_update o)))
          (obstacles g).

(** The obstacle block in one step. *)
Definition hits (t : Q) (rad : Z) (g : Game) : Game :=
  set_obstacles (List.map obstacle_update (obstacles g))
                (if any_hit rad g then game_over t g else g).

(** The coin block in one step, for the radius [r] read before it. *)
Definition coin_step (entropy : nat -> Z) (t : Q) (r : Z) (g : Game) : Game :=
  if coin_reached g r then collect entropy t g else g.

(** The state on which the obstacle block runs. *)
Definition before_obstacles (entropy : nat -> Z) (t : Q) (r : Z) (g : Game) : Game :=
  power_timeout t (coin_step entropy t r (moved r g)).

(** Handling this event in this state calls [init_game]: a round starts. *)
Definition starts_round (g : Game) (e : Event) : bool :=
  match e, state g with
  | KEYDOWN K_RETURN, STATE_MENU | KEYDOWN K_RETURN, STATE_GAMEOVER => true
  | _, _ => false
  end.

(** The number of rounds started while a list of events is handled. *)
Fixpoint starts_in (entropy : nat -> Z) (t : Q) (evs : list Event) (g : Game) : nat :=
  match evs with
  | [] => O
  | e :: evs' =>
      (Nat.b2n (starts_round g e) + starts_in entropy t evs' (handle_event entropy t g e))%nat
  end.

(** The iteration reaches the update block in Play and leaves it in
    GameOver. *)
Definition went_over (entropy : nat -> Z) (f : Frame) (g : Game) : bool :=
  bool_decide (state (inputs entropy f g) = STATE_PLAY) &&
  bool_decide (state <$> frame_step entropy f g = Some STATE_GAMEOVER).

(** A count summed over the iterations of a run. *)
Fixpoint run_count (entropy : nat -> Z) (what : Frame -> Game -> nat)
    (fs : list Frame) (g : Game) : nat :=
  match fs with
  | [] => O
  | f :: fs' =>
      if running g then
        match frame_step entropy f g with
        | Some g' => (what f g + run_count entropy what fs' g')%nat
        | None => O
        end
      else O
  end.

Definition run_gameovers (entropy : nat -> Z) : list Frame -> Game -> nat :=
  run_count entropy (fun f g => Nat.b2n (went_over entropy f g)).

Definition run_starts (entropy : nat -> Z) : list Frame -> Game -> nat :=
  run_count entropy (fun f g => starts_in entropy (clock f) (events f) g).

(** No round is being played: only a new round leads to Play again. *)
Definition idle (g : Game) : Prop :=
  state g = STATE_MENU \/ state g = STATE_GAMEOVER.

(** Obstacles are spawned with positive sizes and keep them. *)
Definition sized (o : Obstacle) : Prop := 0 <= rw (rect o) /\ 0 <= rh (rect o).

(** An entropy that spawns the first obstacle of the first round on the
    centre of the screen, where the ball starts. *)
Definition obstacle_on_ball (n : nat) : Z :=
  if (n =? 5)%nat then 435 else if (n =? 6)%nat then 285 else 0.

(** A quiet frame: no event, no line, no key held. *)
Definition quiet (t : Q) : Frame :=
  mkFrame t t [] [] (mkPressed false false false false).

(** ** Two sessions that leave a character enlarged *)

Definition no_keys : Pressed := mkPressed false false false false.

(** The frame on which Enter goes down and nothing else happens. *)
Definition enter (t : Q) : Frame := mkFrame t t [KEYDOWN K_RETURN] [] no_keys.

(** An entropy that puts the coin of the first round played under the
    ball (the 28th and 29th draws) and makes every coin special. *)
Definition coin_under_ball (n : nat) : Z :=
  if (n =? 27)%nat then 435 else if (n =? 28)%nat then 285 else 0.

(** Enter starts a round and the special coin is collected at once; one
    second later Escape and Enter start a new round. *)
Definition restart_session : list Frame :=
  [ mkFrame 100 100 [KEYDOWN K_RETURN] [] no_keys;
    mkFrame 101 101 [KEYDOWN K_ESCAPE; KEYDOWN K_RETURN] [] no_keys ].

(** Enter starts a round and the special coin is collected at once; the
    button switches to the next character while the power-up runs; the
    power-up expires; two more presses of the button come back to the
    first character. *)
Definition switch_session : list Frame :=
  [ mkFrame 100 100 [KEYDOWN K_RETURN] [] no_keys;
    mkFrame 101 101 [] ["0,0,0,1"%string] no_keys;
    mkFrame 107 107 [] [] no_keys;
    mkFrame 108 108 [] ["0,0,0,1"%string] no_keys;
    mkFrame 109 109 [] ["0,0,0,1"%string] no_keys ].

(** What the invariant of the power-up is about. *)
Definition power_view (g : Game) : GState * bool * option Z * nat :=
  (state g, power_active g, cur_radius g, current_char g).

(** ** Switch events *)

(** The entropy whose draws are all zero. *)
Definition zero_entropy (n : nat) : Z := 0.

(** The sample asks for a switch: the button is pressed or the shake is
    strong enough. *)
Definition eligible (s : Sample) : bool :=
  match btn s with Some b => b =? 1 | None => false end
  || (Z.abs (az s) >? SHAKE_THRESHOLD).

(** Valid samples processed one after the other, each at its time. *)
Fixpoint process_samples (l : list (Q * Sample)) (g : Game) : Game :=
  match l with
  | [] => g
  | (t, s) :: l' => process_samples l' (process_sample t s g)
  end.

(** The number of character changes they produce. *)
Fixpoint switch_count (l : list (Q * Sample)) (g : Game) : nat :=
  match l with
  | [] => O
  | (t, s) :: l' =>
      (Nat.b2n (switched t s g) + switch_count l' (process_sample t s g))%nat
  end.

(** Every sample of the list is processed at a time of [lo .. hi]. *)
Definition within (lo hi : Q) (l : list (Q * Sample)) : Prop :=
  Forall (fun ts => (lo <= fst ts)%Q /\ (fst ts <= hi)%Q) l.

Definition pressed : Sample := mkSample 0 0 0 (Some 1).

(** The button is reported three times within half a second. *)
Definition three_presses : list Frame :=
  [ mkFrame 100 100 [] ["0,0,0,1"%string] no_keys;
    mkFrame (1002 # 10) (1002 # 10) [] ["0,0,0,1"%string] no_keys;
    mkFrame (1004 # 10) (1004 # 10) [] ["0,0,0,1"%string] no_keys ].

(** ** Deltas *)

(** The variables that the gesture interpretation owns. *)
Definition gesture_view (g : Game) : nat * Q * Z * Z :=
  (current_char g, last_switch g, move_dx g, move_dy g).

(** Enter starts a round while one sample with a tilt to the right is
    waiting. *)
Definition tilt_frame : Frame :=
  mkFrame 100 100 [KEYDOWN K_RETURN] ["2001,0,0"%string] no_keys.

(** ** Coins *)

(** An entropy that puts the first coin under the ball; the special draw
    is zero, below the chance. *)
Definition first_coin_under_ball (n : nat) : Z :=
  if (n =? 0)%nat then 435 else if (n =? 1)%nat then 285 else 0.


(** What a pickup changes. *)
Definition pickup_view (g : Game) : Z * bool * Q * option Z :=
  (score g, power_active g, power_ends_at g, cur_radius g).

(** ** Pause *)

(** The state of the round: what [init_game] sets, and the characters
    with their radii. *)
Record Round := mkRound {
  r_start_time : Q;
  r_power_active : bool;
  r_power_ends_at : Q;
  r_score : Z;
  r_ball : Z * Z;
  r_coin : Z * Z * bool;
  r_obstacles : list Obstacle;
  r_characters : list Character
}.

Definition round_view (g : Game) : Round :=
  mkRound (start_time g) (power_active g) (power_ends_at g) (score g)
    (ball_x g, ball_y g) (coin_x g, coin_y g, coin_special g)
    (obstacles g) (characters g).

(** No key goes down during the iteration. *)
Definition keyless (f : Frame) : bool :=
  forallb (fun e => match e with KEYDOWN _ => false | _ => true end) (events f).

(** The key P goes down, and nothing else happens. *)
Definition press_p (t : Q) : Frame := mkFrame t t [KEYDOWN K_p] [] no_keys.

End Aux.

(** * Further definitions: invariants of the loop *)

Module More.

(** The newest [n] entries of a list. *)
Definition keep_last {A : Type} (n : nat) (l : list A) : list A :=
  skipn (length l - n) l.

(** The lines that [SerialReader.run] queues for the raw lines it reads:
    each one stripped, the empty ones left out. *)
Definition queued_lines (raws : list string) : list string :=
  List.filter (fun l => negb (PyStr.is_empty l)) (List.map PyStr.strip raws).

(** The character occurs in the string. *)
Fixpoint has_char (c : ascii) (s : string) : bool :=
  match s with
  | EmptyString => false
  | String d s' => Ascii.eqb c d || has_char c s'
  end.

(** A line as the reader queues it and a token as the parser keeps it:
    not empty, with nothing left to strip. *)
Definition clean (l : string) : Prop :=
  PyStr.is_empty l = false /\ PyStr.strip l = l.

(** A speed of a magnitude from 2 up to, but not reaching, 4. *)
Definition speed_ok (v : Q) : Prop :=
  ((2 # 1) <= v /\ v < (4 # 1))%Q \/ (- (4 # 1) < v /\ v <= - (2 # 1))%Q.

(** A speed as [init_game] draws it, in either direction: a magnitude
    between [OBSTACLE_MIN_SPEED] and [OBSTACLE_MAX_SPEED], both ends
    included (the sum that [uniform] returns is rounded, and reaches the
    upper end). *)
Definition speed_in_range (v : Q) : Prop :=
  (OBSTACLE_MIN_SPEED <= v /\ v <= OBSTACLE_MAX_SPEED)%Q \/
  (- OBSTACLE_MAX_SPEED <= v /\ v <= - OBSTACLE_MIN_SPEED)%Q.

(** An obstacle as [init_game] spawns it: its size in the drawn ranges,
    the rectangle on the screen, the speeds in the drawn range. *)
Definition obstacle_ok (o : Obstacle) : Prop :=
  30 <= rw (rect o) <= 70 /\ 30 <= rh (rect o) <= 50 /\
  0 <= rx (rect o) /\ rx (rect o) + rw (rect o) <= WIDTH /\
  0 <= ry (rect o) /\ ry (rect o) + rh (rect o) <= HEIGHT /\
  speed_in_range (vx o) /\ speed_in_range (vy o).

(** A radius is the base radius or the enlarged one. *)
Definition radius_ok (c : Character) : Prop :=
  radius c = BALL_RADIUS \/ radius c = BALL_RADIUS + 8.

(** What holds of the round in every state of the loop. *)
Definition round_ok (r : Aux.Round) : Prop :=
  0 <= Aux.r_score r /\
  BALL_RADIUS <= fst (Aux.r_ball r) <= WIDTH - BALL_RADIUS /\
  BALL_RADIUS <= snd (Aux.r_ball r) <= HEIGHT - BALL_RADIUS /\
  COIN_RADIUS <= fst (fst (Aux.r_coin r)) <= WIDTH - COIN_RADIUS /\
  COIN_RADIUS <= snd (fst (Aux.r_coin r)) <= HEIGHT - COIN_RADIUS /\
  length (Aux.r_obstacles r) = OBSTACLE_COUNT /\
  Forall obstacle_ok (Aux.r_obstacles r) /\
  Forall radius_ok (Aux.r_characters r).

(** What holds of the queue in every state of the loop. *)
Definition queue_ok (q : SerialReader.queue) : Prop :=
  (length q <= SerialReader.maxlen)%nat /\ Forall clean q.

(** An iteration with one sample of a tilt to the right and up, the right
    arrow held, and no event. *)
Definition tilt_only (t : Q) : Frame :=
  mkFrame t t [] ["2500,2500,0"%string] (mkPressed false true false false).

End More.

(** * Properties *)

(** ** The line parser *)

Module ParserFacts.
Import PyStr Aux.

Lemma split_comma_nonempty s : split_comma s <> [].
Proof.
  destruct s as [|c s]; simpl; [discriminate|].
  destruct (Ascii.eqb c ","); [discriminate|].
  destruct (split_comma s); discriminate.
Qed.

Lemma join_cons_char c t ts :
  join_comma (String c t :: ts) = String c (join_comma (t :: ts)).
Proof. destruct ts; reflexivity. Qed.

Lemma join_empty_cons l :
  l <> [] -> join_comma (EmptyString :: l) = String ","%char (join_comma l).
Proof. destruct l; [contradiction|reflexivity]. Qed.

Lemma join_split s : join_comma (split_comma s) = s.
Proof.
  induction s as [|c s IH]; [reflexivity|].
  cbn [split_comma]. destruct (Ascii.eqb_spec c ","%char) as [->|Hc].
  - rewrite join_empty_cons by apply split_comma_nonempty. now rewrite IH.
  - destruct (split_comma s) as [|t ts] eqn:E.
    + now destruct (split_comma_nonempty s).
    + rewrite join_cons_char. now rewrite IH.
Qed.

Lemma tokens_not_empty line : Forall (fun t => t <> EmptyString) (tokens line).
Proof.
  unfold tokens. apply List.Forall_forall. intros t Ht.
  apply List.filter_In in Ht as [_ Ht]. now destruct t.
Qed.

Lemma parse_too_few line :
  (length (tokens line) < 3)%nat -> parse_serial_line line = None.
Proof.
  intros H. unfold parse_serial_line.
  destruct (Nat.ltb_spec (length (tokens line)) 3); [reflexivity|lia].
Qed.

Lemma parse_three line t1 t2 t3 rest :
  tokens line = t1 :: t2 :: t3 :: rest ->
  parse_serial_line line =
    x ← int t1; y ← int t2; z ← int t3;
    Some (mkSample x y z (head rest ≫= int)).
Proof.
  intros E. unfold parse_serial_line. rewrite E. simpl.
  destruct (int t1); simpl; [|reflexivity].
  destruct (int t2); simpl; [|reflexivity].
  destruct (int t3); simpl; [|reflexivity].
  now destruct rest.
Qed.

Lemma parse_bad_number line i t :
  (i < 3)%nat -> tokens line !! i = Some t -> int t = None ->
  parse_serial_line line = None.
Proof.
  intros Hi Ht Hn.
  destruct (tokens line) as [|t1 [|t2 [|t3 rest]]] eqn:E;
    try (apply parse_too_few; rewrite E; simpl; lia).
  rewrite (parse_three _ _ _ _ _ E).
  destruct i as [|[|[|i]]]; simpl in Ht; try lia;
    injection Ht as ->; rewrite Hn; simpl; try reflexivity.
  - destruct (int t1); reflexivity.
  - destruct (int t1); simpl; [|reflexivity]. destruct (int t2); reflexivity.
Qed.

End ParserFacts.

(** C6. The parser splits the line at its commas (putting the commas back
    between the pieces gives the line again), strips the pieces and keeps
    the non-empty ones. With fewer than three tokens, or with one of the
    first three not an integer, the result is [None]; otherwise the first
    three tokens give [ax], [ay], [az], and the button is the fourth token
    when there is one and it is an integer, absent otherwise; the result
    does not depend on the tokens after the fourth. The five lines of the
    specification parse as it says. *)
Theorem parse_serial_line_spec :
  (forall line : string,
      Aux.join_comma (PyStr.split_comma line) = line /\
      Forall (fun t => t <> EmptyString) (tokens line) /\
      ((length (tokens line) < 3)%nat -> parse_serial_line line = None) /\
      (forall (i : nat) (t : string),
          (i < 3)%nat -> tokens line !! i = Some t -> PyStr.int t = None ->
          parse_serial_line line = None) /\
      (forall t1 t2 t3 rest x y z,
          tokens line = t1 :: t2 :: t3 :: rest ->
          PyStr.int t1 = Some x -> PyStr.int t2 = Some y -> PyStr.int t3 = Some z ->
          parse_serial_line line = Some (mkSample x y z (head rest ≫= PyStr.int)))) /\
  parse_serial_line "100,-200,300" = Some (mkSample 100 (-200) 300 None) /\
  parse_serial_line "1,2,3,1" = Some (mkSample 1 2 3 (Some 1)) /\
  parse_serial_line "1,2" = None /\
  parse_serial_line "a,2,3" = None /\
  parse_serial_line "1,2,3,x" = Some (mkSample 1 2 3 None).
Proof.
  split; [|repeat split; reflexivity].
  intros line. split; [apply ParserFacts.join_split|].
  split; [apply ParserFacts.tokens_not_empty|].
  split; [apply ParserFacts.parse_too_few|].
  split; [apply ParserFacts.parse_bad_number|].
  intros t1 t2 t3 rest x y z E H1 H2 H3.
  rewrite (ParserFacts.parse_three _ _ _ _ _ E), H1, H2, H3. reflexivity.
Qed.

Lemma parse_serial_line_spec_witness :
  parse_serial_line "7, 8,,-9,1,5" = Some (mkSample 7 8 (-9) (Some 1)).
Proof.
  destruct parse_serial_line_spec as [H _].
  destruct (H "7, 8,,-9,1,5"%string) as (_ & _ & _ & _ & H5).
  apply (H5 "7" "8" "-9" ["1"; "5"])%string; reflexivity.
Defined.

(** [int()] takes a literal of 4300 digits and refuses one of 4301, and so
    does the parser with the line. *)
Example int_digit_limit :
  PyStr.int (Aux.repeat_char "1" 4300) <> None /\
  PyStr.int (Aux.repeat_char "1" 4301) = None /\
  parse_serial_line (Aux.repeat_char "1" 4301 ++ ",2,3") = None.
Proof. repeat apply conj; vm_compute; [discriminate|reflexivity|reflexivity]. Qed.

(** ** The telemetry queue *)

Module QueueFacts.
Import SerialReader Aux.

Lemma pop_snoc (q : queue) (l : string) : pop (q ++ [l]) = Some (l, q).
Proof.
  induction q as [|x q IH]; [reflexivity|].
  change ((x :: q) ++ [l]) with (x :: (q ++ [l])).
  cbn [pop]. rewrite IH. now destruct (q ++ [l]) eqn:E; [destruct q|].
Qed.

Lemma get_latest_snoc (q : queue) (l : string) :
  get_latest (q ++ [l]) = (Some l, q).
Proof. unfold get_latest. now rewrite pop_snoc. Qed.

Lemma drain_all (q : queue) :
  drain (length q) q = (List.map Some (List.rev q), []).
Proof.
  induction q as [|l q IH] using List.rev_ind; [reflexivity|].
  rewrite List.length_app, Nat.add_1_r. cbn [drain].
  rewrite get_latest_snoc, IH, List.rev_app_distr. reflexivity.
Qed.

End QueueFacts.

(** C3, as the code has it. [get_latest] is a total function of the
    queue. On the empty queue it returns no line. Otherwise it returns the
    line pushed last among those still queued and removes that line only:
    the older lines stay queued, in order, and calls that follow without a
    new push return them from the newest to the oldest. A push onto a full
    queue evicts the oldest line first. *)
Theorem get_latest_pops_newest (q : SerialReader.queue) (l : string) :
  SerialReader.get_latest [] = (None, []) /\
  SerialReader.get_latest (q ++ [l]) = (Some l, q) /\
  SerialReader.get_latest (SerialReader.append l q) =
    (Some l, if (SerialReader.maxlen <=? length q)%nat then List.tl q else q) /\
  Aux.drain (length q) q = (List.map Some (List.rev q), []).
Proof.
  split; [reflexivity|]. split; [apply QueueFacts.get_latest_snoc|].
  split; [|apply QueueFacts.drain_all].
  unfold SerialReader.append.
  destruct (SerialReader.maxlen <=? length q)%nat;
    apply QueueFacts.get_latest_snoc.
Qed.

(** C3, as the specification states it, fails: after the pushes of two lines, the
    first call returns the second line and the next call returns the first
    line, which is older than the one already consumed and was not
    dropped. *)
Lemma get_latest_returns_older_line :
  let q := fold_left SerialReader.push_raw ["1,0,0"; "2,0,0"]%string [] in
  fst (SerialReader.get_latest q) = Some "2,0,0"%string /\
  fst (SerialReader.get_latest (snd (SerialReader.get_latest q)))
    = Some "1,0,0"%string.
Proof. split; reflexivity. Qed.

(** ** Which variables each block of the loop leaves alone *)

Module Frames.
Import Aux.

Lemma cur_radius_in_bounds g :
  (current_char g < length (characters g))%nat <-> is_Some (cur_radius g).
Proof.
  unfold cur_radius. rewrite <- lookup_lt_is_Some.
  destruct (characters g !! current_char g); simpl; split; intros [x Hx]; eauto;
    discriminate.
Qed.

Lemma shape_set_cur_radius r g : chars_shape (set_cur_radius r g) = chars_shape g.
Proof. unfold chars_shape, set_cur_radius. simpl. now rewrite length_alter. Qed.

Lemma switch_character_cases t s g :
  switch_character t s g = if switched t s g then advance t g else g.
Proof.
  unfold switch_character, switched.
  destruct (button_fires t s g); simpl; [reflexivity|].
  now destruct (shake_fires t s g).
Qed.

Lemma shape_power_timeout t g : chars_shape (power_timeout t g) = chars_shape g.
Proof.
  unfold power_timeout.
  destruct (power_active g && Qle_bool (power_ends_at g) t); [|reflexivity].
  now rewrite shape_set_cur_radius.
Qed.

Lemma game_over_twice t g : game_over t (game_over t g) = game_over t g.
Proof. reflexivity. Qed.

(** The obstacle loop in closed form: every obstacle moves, and the state
    is assigned when at least one of them is hit. *)
Lemma obstacle_loop_closed t rad obs g :
  obstacle_loop t rad obs g =
    (List.map obstacle_update obs,
     if existsb (fun o => collides (ball_x g) (ball_y g) rad (rect (obstacle_update o))) obs
     then game_over t g else g).
Proof.
  revert g. induction obs as [|o obs IH]; intros g; [reflexivity|].
  cbn [obstacle_loop List.map existsb]. rewrite IH.
  destruct (collides (ball_x g) (ball_y g) rad (rect (obstacle_update o))); simpl.
  - rewrite game_over_twice.
    now destruct (existsb _ obs).
  - reflexivity.
Qed.

Section WithEntropy.
Variable entropy : nat -> Z.

Lemma shape_collect t g : chars_shape (collect entropy t g) = chars_shape g.
Proof.
  unfold collect. destruct (coin_special g); [|reflexivity].
  unfold spawn_coin, chars_shape. cbn -[alter].
  now rewrite length_alter.
Qed.

Lemma shape_handle_event t g e :
  chars_shape (handle_event entropy t g e) = chars_shape g.
Proof.
  destruct e as [|k|]; [reflexivity| |reflexivity].
  unfold handle_event. destruct (state g), k; reflexivity.
Qed.

Lemma shape_events t evs g :
  chars_shape (fold_left (handle_event entropy t) evs g) = chars_shape g.
Proof.
  revert g. induction evs as [|e evs IH]; intros g; [reflexivity|].
  simpl. now rewrite IH, shape_handle_event.
Qed.

(** With the current index in bounds the update block raises no
    [IndexError], and it keeps the index and the length of the list. *)
Lemma update_total t g :
  (current_char g < length (characters g))%nat ->
  exists g', update_game_state entropy t g = Some g' /\ chars_shape g' = chars_shape g.
Proof.
  intros Hb. apply cur_radius_in_bounds in Hb as [r Hr].
  unfold update_game_state, move_ball. rewrite Hr. cbn [mbind option_bind].
  set (g1 := set_ball_y _ _).
  assert (H1 : cur_radius g1 = Some r) by exact Hr.
  unfold check_coin. rewrite H1. cbn [mbind option_bind].
  set (g2 := if coin_reached g1 r then _ else _).
  assert (S2 : chars_shape g2 = chars_shape g).
  { subst g2. destruct (coin_reached g1 r); [now rewrite shape_collect|reflexivity]. }
  set (g3 := power_timeout t g2).
  assert (S3 : chars_shape g3 = chars_shape g).
  { subst g3. now rewrite shape_power_timeout. }
  assert (H3 : is_Some (cur_radius g3)).
  { apply cur_radius_in_bounds. unfold chars_shape in S3.
    injection S3 as -> ->. apply cur_radius_in_bounds. eauto. }
  destruct H3 as [r3 H3]. unfold update_obstacles. rewrite H3.
  cbn [mbind option_bind]. rewrite obstacle_loop_closed.
  eexists; split; [reflexivity|].
  rewrite <- S3. unfold round_timer.
  destruct (Qle_bool _ _), (existsb _ _); reflexivity.
Qed.

End WithEntropy.
End Frames.

(** ** Gesture thresholds *)

Module Gesture.
Import Aux.

Lemma move_switch_character t s g :
  move_dx (switch_character t s g) = move_dx g /\
  move_dy (switch_character t s g) = move_dy g.
Proof.
  rewrite Frames.switch_character_cases. now destruct (switched t s g).
Qed.

Lemma move_process_sample t s g :
  move_dx (process_sample t s g) = sensor_dx (ax s) /\
  move_dy (process_sample t s g) = sensor_dy (ay s).
Proof.
  unfold process_sample.
  destruct (move_switch_character t s
              (set_move_dy (sensor_dy (ay s)) (set_move_dx (sensor_dx (ax s)) g)))
    as [-> ->].
  split; reflexivity.
Qed.

Lemma sensor_dx_cases a :
  (AX_POS_THRESHOLD < a -> sensor_dx a = BALL_SPEED) /\
  (a < AX_NEG_THRESHOLD -> sensor_dx a = - BALL_SPEED) /\
  (AX_NEG_THRESHOLD <= a <= AX_POS_THRESHOLD -> sensor_dx a = 0).
Proof.
  unfold sensor_dx, AX_POS_THRESHOLD, AX_NEG_THRESHOLD, BALL_SPEED.
  destruct (Z.gtb_spec a 2000), (Z.ltb_spec a (-2000)); repeat split; lia.
Qed.

Lemma sensor_dy_cases a :
  (AY_POS_THRESHOLD < a -> sensor_dy a = - BALL_SPEED) /\
  (a < AY_NEG_THRESHOLD -> sensor_dy a = BALL_SPEED) /\
  (AY_NEG_THRESHOLD <= a <= AY_POS_THRESHOLD -> sensor_dy a = 0).
Proof.
  unfold sensor_dy, AY_POS_THRESHOLD, AY_NEG_THRESHOLD, BALL_SPEED.
  destruct (Z.gtb_spec a 2000), (Z.ltb_spec a (-2000)); repeat split; lia.
Qed.

End Gesture.

(** C9. When a valid sample is processed, the horizontal delta it leaves
    is [+BALL_SPEED] for [ax = 2001] (and any [ax] above 2000),
    [-BALL_SPEED] for [ax = -2001] (and any [ax] below -2000) and zero for
    [|ax| <= 2000], the thresholds themselves included. The vertical delta
    follows [ay] the same way with the sign inverted: above 2000 the
    delta is [-BALL_SPEED] (up), below -2000 it is [+BALL_SPEED] (down). *)
Theorem sensor_thresholds (t : Q) (s : Sample) (g : Game) :
  let g' := process_sample t s g in
  (ax s = 2001 -> move_dx g' = BALL_SPEED) /\
  (ax s = -2001 -> move_dx g' = - BALL_SPEED) /\
  (Z.abs (ax s) <= 2000 -> move_dx g' = 0) /\
  (2000 < ax s -> move_dx g' = BALL_SPEED) /\
  (ax s < -2000 -> move_dx g' = - BALL_SPEED) /\
  (Z.abs (ay s) <= 2000 -> move_dy g' = 0) /\
  (2000 < ay s -> move_dy g' = - BALL_SPEED) /\
  (ay s < -2000 -> move_dy g' = BALL_SPEED).
Proof.
  intros g'. subst g'.
  destruct (Gesture.move_process_sample t s g) as [-> ->].
  destruct (Gesture.sensor_dx_cases (ax s)) as (X1 & X2 & X3).
  destruct (Gesture.sensor_dy_cases (ay s)) as (Y1 & Y2 & Y3).
  unfold AX_POS_THRESHOLD, AX_NEG_THRESHOLD, AY_POS_THRESHOLD, AY_NEG_THRESHOLD in *.
  repeat split; intros H; first [apply X1|apply X2|apply X3|apply Y1|apply Y2|apply Y3]; lia.
Qed.

Lemma sensor_thresholds_witness :
  let g := main_start (fun _ => 0) 0 in
  move_dx (process_sample 0 (mkSample 2001 2000 0 None) g) = BALL_SPEED /\
  move_dy (process_sample 0 (mkSample 2001 2000 0 None) g) = 0 /\
  move_dx (process_sample 0 (mkSample (-2000) (-2001) 0 None) g) = 0 /\
  move_dy (process_sample 0 (mkSample (-2000) (-2001) 0 None) g) = BALL_SPEED.
Proof.
  intros g.
  destruct (sensor_thresholds 0 (mkSample 2001 2000 0 None) g)
    as (A1 & _ & _ & _ & _ & A6 & _).
  destruct (sensor_thresholds 0 (mkSample (-2000) (-2001) 0 None) g)
    as (_ & _ & B3 & _ & _ & _ & _ & B8).
  split; [apply A1; simpl; lia|].
  split; [apply A6; simpl; lia|].
  split; [apply B3; simpl; lia|apply B8; simpl; lia].
Defined.

(** ** The character index *)

Module CharIndex.
Import Aux.

Lemma char_inv_shape g g' :
  chars_shape g' = chars_shape g -> char_inv g -> char_inv g'.
Proof. unfold chars_shape, char_inv. intros [= -> ->]. trivial. Qed.

Lemma char_inv_advance t g : char_inv g -> char_inv (advance t g).
Proof.
  intros [Hl Hc]. split; [exact Hl|]. simpl. rewrite Hl.
  apply Nat.mod_upper_bound. discriminate.
Qed.

Lemma char_inv_switch t s g : char_inv g -> char_inv (switch_character t s g).
Proof.
  intros H. rewrite Frames.switch_character_cases.
  destruct (switched t s g); [now apply char_inv_advance|exact H].
Qed.

Lemma char_inv_process_serial t g : char_inv g -> char_inv (process_serial t g).
Proof.
  intros H. unfold process_serial.
  destruct (SerialReader.get_latest (queue g)) as [[l|] q]; [|exact H].
  destruct (PyStr.is_empty l); [exact H|].
  destruct (parse_serial_line l) as [s|]; [|exact H].
  unfold process_sample. now apply char_inv_switch.
Qed.

Section WithEntropy.
Variable entropy : nat -> Z.

Lemma char_inv_inputs f g : char_inv g -> char_inv (inputs entropy f g).
Proof.
  intros H. unfold inputs, receive.
  set (g1 := fold_left _ (events f) g).
  assert (H1 : char_inv g1).
  { eapply char_inv_shape; [apply Frames.shape_events|exact H]. }
  set (g2 := set_queue _ g1).
  assert (H2 : char_inv g2) by exact H1.
  exact (char_inv_process_serial (now f) g2 H2).
Qed.

Lemma frame_step_inv f g :
  char_inv g -> exists g', frame_step entropy f g = Some g' /\ char_inv g'.
Proof.
  intros H. unfold frame_step.
  pose proof (char_inv_inputs f g H) as Hi.
  destruct (decide (state (inputs entropy f g) = STATE_PLAY)); [|eauto].
  destruct (Frames.update_total entropy (now f) (inputs entropy f g))
    as (g' & Hu & Hs).
  { destruct Hi as [-> Hc]. exact Hc. }
  exists g'. split; [exact Hu|]. now apply (char_inv_shape _ _ Hs).
Qed.

Lemma run_inv fs g :
  char_inv g -> exists g', run entropy fs g = Some g' /\ char_inv g'.
Proof.
  revert g. induction fs as [|f fs IH]; intros g H; [now exists g|].
  cbn [run]. destruct (running g); [|now exists g].
  destruct (frame_step_inv f g H) as (g1 & -> & H1).
  cbn [mbind option_bind]. now apply IH.
Qed.

Lemma char_inv_start t : char_inv (main_start entropy t).
Proof. split; simpl; lia. Qed.

End WithEntropy.
End CharIndex.

(** C10. The loop starts with the index 0 and three characters. A switch
    keeps the index below three: it sets it to the successor modulo three,
    so that 2 is followed by 0. Every state the loop reaches has three
    characters and an index below three, the lookup of the current
    character succeeds in it, and no iteration fails on an index. *)
Theorem current_char_in_bounds (entropy : nat -> Z) (t0 : Q) :
  current_char (main_start entropy t0) = 0%nat /\
  length (characters (main_start entropy t0)) = 3%nat /\
  (forall t s g, Aux.char_inv g -> Aux.char_inv (switch_character t s g)) /\
  (forall t g, length (characters g) = 3%nat ->
     current_char (advance t g) = ((current_char g + 1) mod 3)%nat) /\
  (forall t g, length (characters g) = 3%nat -> current_char g = 2%nat ->
     current_char (advance t g) = 0%nat) /\
  (forall fs, exists g,
     run entropy fs (main_start entropy t0) = Some g /\
     Aux.char_inv g /\ is_Some (characters g !! current_char g)).
Proof.
  split; [reflexivity|]. split; [reflexivity|].
  split; [apply CharIndex.char_inv_switch|].
  split; [intros t g Hl; simpl; now rewrite Hl|].
  split; [intros t g Hl Hc; simpl; now rewrite Hl, Hc|].
  intros fs.
  destruct (CharIndex.run_inv entropy fs _ (CharIndex.char_inv_start entropy t0))
    as (g & Hr & Hi).
  exists g. repeat split; try exact Hr; try apply Hi.
  apply lookup_lt_is_Some. destruct Hi as [-> Hc]. exact Hc.
Qed.

Lemma current_char_in_bounds_witness :
  current_char
    (advance 7
       (advance 5 (advance 3 (main_start (fun _ => 0) 0)))) = 0%nat.
Proof.
  destruct (current_char_in_bounds (fun _ => 0) 0) as (_ & _ & _ & _ & H & _).
  apply H; reflexivity.
Defined.

(** ** The update block in closed form *)

Module UpdateFacts.
Import Aux.

(** Goals that say a block leaves a variable alone: unfold the block,
    split on its tests, compute. *)
Ltac untouched :=
  unfold before_obstacles, coin_step, round_timer, hits, game_over,
    power_timeout, collect, spawn_coin, moved, set_cur_radius;
  repeat match goal with
         | |- context [if ?b then _ else _] => destruct b
         end;
  reflexivity.

Section WithEntropy.
Variable entropy : nat -> Z.

Lemma update_closed t g r :
  cur_radius g = Some r ->
  exists r3,
    cur_radius (before_obstacles entropy t r g) = Some r3 /\
    update_game_state entropy t g =
      Some (round_timer t (hits t r3 (before_obstacles entropy t r g))).
Proof.
  intros Hr.
  assert (Hb : is_Some (cur_radius (before_obstacles entropy t r g))).
  { apply Frames.cur_radius_in_bounds.
    assert (S : chars_shape (before_obstacles entropy t r g) = chars_shape g).
    { unfold before_obstacles, coin_step. rewrite Frames.shape_power_timeout.
      destruct (coin_reached _ _); [now rewrite Frames.shape_collect|reflexivity]. }
    unfold chars_shape in S. injection S as -> ->.
    apply Frames.cur_radius_in_bounds. eauto. }
  destruct Hb as [r3 H3]. exists r3. split; [exact H3|].
  unfold update_game_state, move_ball. rewrite Hr. cbn [mbind option_bind].
  unfold check_coin.
  change (cur_radius (set_ball_y _ (set_ball_x _ g))) with (cur_radius g).
  rewrite Hr. cbn [mbind option_bind].
  unfold update_obstacles.
  change (power_timeout t _) with (before_obstacles entropy t r g).
  rewrite H3. cbn [mbind option_bind].
  rewrite Frames.obstacle_loop_closed. reflexivity.
Qed.

(** What the update block does to the ball, the round clock and the
    obstacles. *)
Lemma ball_before_obstacles t r g :
  ball_x (before_obstacles entropy t r g) = ball_x (moved r g) /\
  ball_y (before_obstacles entropy t r g) = ball_y (moved r g).
Proof. split; untouched. Qed.

Lemma start_time_before_obstacles t r g :
  start_time (before_obstacles entropy t r g) = start_time g.
Proof. untouched. Qed.

Lemma obstacles_before_obstacles t r g :
  obstacles (before_obstacles entropy t r g) = obstacles g.
Proof. untouched. Qed.

Lemma state_before_obstacles t r g :
  state (before_obstacles entropy t r g) = state g.
Proof. untouched. Qed.

End WithEntropy.
End UpdateFacts.

(** ** The draws of the random source *)

Module Draws.

Lemma randint_range a b raw : a <= b -> a <= Rnd.randint a b raw <= b.
Proof.
  intros H. unfold Rnd.randint.
  pose proof (Z.mod_pos_bound raw (b - a + 1) ltac:(lia)). lia.
Qed.

Lemma random_range raw : (0 <= Rnd.random raw)%Q /\ (Rnd.random raw < 1)%Q.
Proof.
  unfold Rnd.random, Qle, Qlt. simpl.
  pose proof (Z.mod_pos_bound raw (2 ^ 53) ltac:(lia)) as H.
  change (Z.pos (2 ^ 53)) with (2 ^ 53). lia.
Qed.

End Draws.

(** ** Circle against rectangle *)

Module Collision.

Lemma Qltb_lt x y : Qltb x y = true <-> (x < y)%Q.
Proof.
  unfold Qltb. rewrite negb_true_iff. split.
  - intros H. apply Qnot_le_lt. intros Hle.
    apply Qle_bool_iff in Hle. congruence.
  - intros H. destruct (Qle_bool y x) eqn:E; [|reflexivity].
    apply Qle_bool_iff in E. apply Qlt_not_le in H. contradiction.
Qed.

(** The broad-phase test, a comparison with a half-integer, on integers. *)
Lemma broad_phase_Z (w rad c : Z) :
  Qltb (inject_Z w / (2 # 1) + inject_Z rad) (inject_Z c) = true
  <-> w + 2 * rad < 2 * c.
Proof.
  rewrite Qltb_lt. unfold Qlt, Qplus, Qdiv, Qmult, Qinv, inject_Z. simpl. lia.
Qed.

(** [dist_lt] is the comparison of the real square root with the radius. *)
Lemma dist_lt_sqrt (n r : Z) :
  0 <= n -> dist_lt n r = true <-> (sqrt (IZR n) < IZR r)%R.
Proof.
  intros Hn. unfold dist_lt. rewrite andb_true_iff, Z.ltb_lt, Z.ltb_lt.
  split.
  - intros [Hr Hlt].
    rewrite <- (sqrt_Rsqr (IZR r)) by (apply IZR_le; lia).
    apply sqrt_lt_1_alt. split; [apply IZR_le; lia|].
    unfold Rsqr. rewrite <- mult_IZR. now apply IZR_lt.
  - intros H.
    assert (Hr : (0 < IZR r)%R).
    { eapply Rle_lt_trans; [apply sqrt_pos|exact H]. }
    apply lt_IZR in Hr. split; [exact Hr|].
    apply lt_IZR. rewrite mult_IZR.
    rewrite <- (sqrt_Rsqr (IZR r)) in H by (apply IZR_le; lia).
    apply sqrt_lt_0_alt in H. exact H.
Qed.

Lemma sq_nonneg x : 0 <= sq x.
Proof. unfold sq. nia. Qed.

(** On one axis: a centre that the broad phase rejects is at least a
    radius away from the closest point of the side. *)
Lemma far_on_axis (b lo w rad : Z) :
  0 <= w -> 0 < rad ->
  w + 2 * rad < 2 * Z.abs (b - (lo + Z.quot w 2)) ->
  rad <= Z.abs (b - Z.max lo (Z.min b (lo + w))).
Proof.
  intros Hw Hr. rewrite Z.quot_div_nonneg by lia.
  pose proof (Z.div_mod w 2 ltac:(lia)) as Hd.
  pose proof (Z.mod_pos_bound w 2 ltac:(lia)) as Hm.
  lia.
Qed.

Lemma dist_lt_far (dx dy rad : Z) :
  rad <= Z.abs dx \/ rad <= Z.abs dy -> dist_lt (sq dx + sq dy) rad = false.
Proof.
  intros H. unfold dist_lt, sq.
  destruct (Z.ltb_spec 0 rad) as [Hr|Hr]; [|reflexivity].
  simpl. apply Z.ltb_ge. nia.
Qed.

(** The two phases together decide what the closest-point test decides. *)
Lemma collides_closest (bx by_ rad : Z) (r : Rect) :
  0 <= rw r -> 0 <= rh r ->
  collides bx by_ rad r = closest_point_hit bx by_ rad r.
Proof.
  intros Hw Hh. unfold collides.
  destruct (Qltb (inject_Z (rw r) / (2 # 1) + inject_Z rad)
                 (inject_Z (Z.abs (bx - centerx r)))) eqn:Ex.
  { apply broad_phase_Z in Ex. unfold closest_point_hit.
    destruct (Z.ltb_spec 0 rad) as [Hr|Hr].
    - symmetry. apply dist_lt_far. left.
      apply far_on_axis; assumption.
    - unfold dist_lt. destruct (Z.ltb_spec 0 rad); [lia|reflexivity]. }
  destruct (Qltb (inject_Z (rh r) / (2 # 1) + inject_Z rad)
                 (inject_Z (Z.abs (by_ - centery r)))) eqn:Ey; [|reflexivity].
  apply broad_phase_Z in Ey. unfold closest_point_hit.
  destruct (Z.ltb_spec 0 rad) as [Hr|Hr].
  - symmetry. apply dist_lt_far. right.
    apply far_on_axis; assumption.
  - unfold dist_lt. destruct (Z.ltb_spec 0 rad); [lia|reflexivity].
Qed.

Lemma size_obstacle_update o :
  rw (rect (obstacle_update o)) = rw (rect o) /\
  rh (rect (obstacle_update o)) = rh (rect o).
Proof. split; reflexivity. Qed.

End Collision.

(** ** The end of a round *)

Module RoundEnd.
Import Aux.

Lemma state_process_serial t g : state (process_serial t g) = state g.
Proof.
  unfold process_serial.
  destruct (SerialReader.get_latest (queue g)) as [[l|] q]; [|reflexivity].
  destruct (PyStr.is_empty l); [reflexivity|].
  destruct (parse_serial_line l) as [s|]; [|reflexivity].
  unfold process_sample. rewrite Frames.switch_character_cases.
  now destruct (switched _ _ _).
Qed.

Section WithEntropy.
Variable entropy : nat -> Z.

Lemma state_inputs f g :
  state (inputs entropy f g)
  = state (fold_left (handle_event entropy (clock f)) (events f) g).
Proof. unfold inputs, receive, keyboard. simpl. now rewrite state_process_serial. Qed.

Lemma idle_events t evs g :
  idle g -> starts_in entropy t evs g = 0%nat ->
  idle (fold_left (handle_event entropy t) evs g).
Proof.
  revert g. induction evs as [|e evs IH]; intros g Hi Hs; [exact Hi|].
  cbn [starts_in] in Hs. cbn [fold_left]. apply IH; [|lia].
  unfold starts_round in Hs. unfold idle in *.
  destruct e as [|k|]; [exact Hi| |exact Hi].
  unfold handle_event.
  destruct Hi as [Hi|Hi]; rewrite Hi in *; destruct k; simpl in *;
    try lia; auto.
Qed.

Lemma frame_step_idle f g :
  idle g -> starts_in entropy (clock f) (events f) g = 0%nat ->
  frame_step entropy f g = Some (inputs entropy f g) /\
  idle (inputs entropy f g) /\ went_over entropy f g = false.
Proof.
  intros Hi Hs. pose proof (idle_events _ _ _ Hi Hs) as Hi'.
  unfold idle in Hi' |- *. rewrite <- state_inputs in Hi'.
  assert (Hn : state (inputs entropy f g) <> STATE_PLAY).
  { destruct Hi' as [-> | ->]; discriminate. }
  unfold went_over, frame_step.
  destruct (decide (state (inputs entropy f g) = STATE_PLAY)); [contradiction|].
  rewrite bool_decide_eq_false_2 by exact Hn. auto.
Qed.

Lemma went_over_idle f g g1 :
  frame_step entropy f g = Some g1 -> went_over entropy f g = true -> idle g1.
Proof.
  intros Hf Hw. unfold went_over in Hw. rewrite Hf in Hw.
  apply andb_true_iff in Hw as [_ Hw]. apply bool_decide_eq_true_1 in Hw.
  right. now injection Hw.
Qed.

Lemma idle_no_gameover fs g :
  idle g -> run_starts entropy fs g = 0%nat -> run_gameovers entropy fs g = 0%nat.
Proof.
  revert g. induction fs as [|f fs IH]; intros g Hi Hs; [reflexivity|].
  unfold run_gameovers, run_starts in *. cbn [run_count] in *.
  destruct (running g); [|reflexivity].
  destruct (frame_step entropy f g) as [g1|] eqn:Hf1; [|reflexivity].
  apply Nat.eq_add_0 in Hs as [Hs1 Hs2].
  destruct (frame_step_idle f g Hi Hs1) as (Hf & Hi' & Hw).
  rewrite Hf1 in Hf. injection Hf as ->.
  rewrite Hw. simpl. now apply IH.
Qed.

Lemma at_most_one_gameover fs g :
  run_starts entropy fs g = 0%nat -> (run_gameovers entropy fs g <= 1)%nat.
Proof.
  revert g. induction fs as [|f fs IH]; intros g Hs;
    unfold run_gameovers, run_starts in *; cbn [run_count] in *; [lia|].
  destruct (running g); [|lia].
  destruct (frame_step entropy f g) as [g1|] eqn:Hf; [|lia].
  apply Nat.eq_add_0 in Hs as [Hs1 Hs2].
  destruct (went_over entropy f g) eqn:Hw.
  - pose proof (went_over_idle f g g1 Hf Hw) as Hi.
    pose proof (idle_no_gameover fs g1 Hi Hs2) as H0.
    unfold run_gameovers in H0. rewrite H0. simpl. lia.
  - simpl. now apply IH.
Qed.

(** Once the loop has stopped, the remaining iterations do nothing. *)
Lemma run_stopped fs g : running g = false -> run entropy fs g = Some g.
Proof. intros H. destruct fs; [reflexivity|]. cbn [run]. now rewrite H. Qed.

Lemma run_app fs1 fs2 g :
  run entropy (fs1 ++ fs2) g = run entropy fs1 g ≫= run entropy fs2.
Proof.
  revert g. induction fs1 as [|f fs1 IH]; intros g; [reflexivity|].
  cbn [app run]. destruct (running g) eqn:Er.
  - destruct (frame_step entropy f g) as [g1|]; [|reflexivity].
    cbn [mbind option_bind]. apply IH.
  - cbn [mbind option_bind]. symmetry. now apply run_stopped.
Qed.

(** An iteration that stays out of Play runs the inputs only. *)
Lemma frame_outside_play f g :
  state (inputs entropy f g) <> STATE_PLAY ->
  frame_step entropy f g = Some (inputs entropy f g) /\
  went_over entropy f g = false.
Proof.
  intros Hn. unfold went_over, frame_step.
  destruct (decide (state (inputs entropy f g) = STATE_PLAY)); [contradiction|].
  rewrite bool_decide_eq_false_2 by exact Hn. auto.
Qed.

(** The iteration counts as a transition exactly when it ran the update
    block and that left GameOver. *)
Lemma went_over_iff f g g' :
  frame_step entropy f g = Some g' -> state (inputs entropy f g) = STATE_PLAY ->
  went_over entropy f g = true <-> state g' = STATE_GAMEOVER.
Proof.
  intros Hf Hp. unfold went_over. rewrite Hf.
  rewrite bool_decide_eq_true_2 by exact Hp. cbn [andb fmap option_fmap option_map].
  rewrite bool_decide_eq_true. split; [now intros [= ->]|now intros ->].
Qed.

(** A round that ends on an iteration has ended once when the next round
    starts, however many iterations follow. *)
Lemma exactly_one_gameover f fs g g1 :
  running g = true -> frame_step entropy f g = Some g1 ->
  state (inputs entropy f g) = STATE_PLAY -> state g1 = STATE_GAMEOVER ->
  run_starts entropy fs g1 = 0%nat ->
  run_gameovers entropy (f :: fs) g = 1%nat.
Proof.
  intros Hr Hf Hp Hg Hs.
  pose proof (proj2 (went_over_iff f g g1 Hf Hp) Hg) as Hw.
  pose proof (idle_no_gameover fs g1 (went_over_idle f g g1 Hf Hw) Hs) as H0.
  unfold run_gameovers in *. cbn [run_count]. rewrite Hr, Hf, Hw, H0. reflexivity.
Qed.

Lemma run_count_stopped what fs g :
  running g = false -> run_count entropy what fs g = 0%nat.
Proof. intros H. destruct fs; [reflexivity|]. cbn [run_count]. now rewrite H. Qed.

(** Counting over two stretches of the loop. *)
Lemma run_count_app what fs1 fs2 g :
  run_count entropy what (fs1 ++ fs2) g
  = (run_count entropy what fs1 g
     + match run entropy fs1 g with
       | Some g1 => run_count entropy what fs2 g1
       | None => 0
       end)%nat.
Proof.
  revert g. induction fs1 as [|f fs1 IH]; intros g; [reflexivity|].
  cbn [app run run_count]. destruct (running g) eqn:Er.
  - destruct (frame_step entropy f g) as [g1|]; [|reflexivity].
    cbn [mbind option_bind]. rewrite IH. lia.
  - now rewrite run_count_stopped.
Qed.

(** Without a start of a round, the loop stays out of Play once it is. *)
Lemma idle_run fs g g1 :
  idle g -> run_starts entropy fs g = 0%nat -> run entropy fs g = Some g1 -> idle g1.
Proof.
  revert g. induction fs as [|f fs IH]; intros g Hi Hs Hr.
  - now injection Hr as <-.
  - unfold run_starts in *. cbn [run run_count] in *.
    destruct (running g); [|now injection Hr as <-].
    destruct (frame_step entropy f g) as [g'|] eqn:Hf; [|discriminate].
    cbn [mbind option_bind] in Hr.
    apply Nat.eq_add_0 in Hs as [Hs1 Hs2].
    destruct (frame_step_idle f g Hi Hs1) as (Hf' & Hi' & _).
    rewrite Hf in Hf'. injection Hf' as ->.
    exact (IH _ Hi' Hs2 Hr).
Qed.

(** A stretch without a start of a round on which Play turned into
    GameOver ends out of Play. *)
Lemma gameover_idle fs g g1 :
  run_starts entropy fs g = 0%nat -> run entropy fs g = Some g1 ->
  run_gameovers entropy fs g <> 0%nat -> idle g1.
Proof.
  revert g. induction fs as [|f fs IH]; intros g Hs Hr Hn.
  - now contradiction Hn.
  - unfold run_starts, run_gameovers in *. cbn [run run_count] in *.
    destruct (running g); [|now contradiction Hn].
    destruct (frame_step entropy f g) as [g'|] eqn:Hf; [|discriminate].
    cbn [mbind option_bind] in Hr.
    apply Nat.eq_add_0 in Hs as [Hs1 Hs2].
    destruct (went_over entropy f g) eqn:Hw.
    + exact (idle_run fs g' g1 (went_over_idle f g g' Hf Hw) Hs2 Hr).
    + exact (IH g' Hs2 Hr Hn).
Qed.

(** A round that meets its end on some iteration has, from the iteration
    on which it may have started to the next start of a round, exactly
    one transition from Play to GameOver. *)
Lemma one_gameover_in_round fs1 f fs2 g g1 g2 :
  run entropy fs1 g = Some g1 -> running g1 = true ->
  frame_step entropy f g1 = Some g2 ->
  state (inputs entropy f g1) = STATE_PLAY -> state g2 = STATE_GAMEOVER ->
  run_starts entropy (fs1 ++ f :: fs2) g = 0%nat ->
  run_gameovers entropy (fs1 ++ f :: fs2) g = 1%nat.
Proof.
  intros Hr1 Hr Hf Hp Hg Hs.
  unfold run_starts in Hs. rewrite run_count_app, Hr1 in Hs.
  apply Nat.eq_add_0 in Hs as [Hs1 Hs2].
  assert (Hs2' := Hs2). cbn [run_count] in Hs2'. rewrite Hr, Hf in Hs2'.
  apply Nat.eq_add_0 in Hs2' as [Hsf Hs3].
  unfold run_gameovers. rewrite run_count_app, Hr1.
  fold (run_gameovers entropy (f :: fs2) g1).
  rewrite (exactly_one_gameover f fs2 g1 g2 Hr Hf Hp Hg Hs3).
  fold (run_gameovers entropy fs1 g).
  destruct (Nat.eq_dec (run_gameovers entropy fs1 g) 0%nat) as [-> | Hn];
    [reflexivity|].
  pose proof (gameover_idle fs1 g g1 Hs1 Hr1 Hn) as Hi.
  destruct (frame_step_idle f g1 Hi Hsf) as (_ & [Hi' | Hi'] & _); congruence.
Qed.

(** From the iteration on which a round may have started to the next
    start of a round, Play turns into GameOver at most once. *)
Lemma one_gameover_per_round f fs g g1 :
  frame_step entropy f g = Some g1 ->
  run_starts entropy fs g1 = 0%nat ->
  (Nat.b2n (went_over entropy f g) + run_gameovers entropy fs g1 <= 1)%nat.
Proof.
  intros Hf Hs. destruct (went_over entropy f g) eqn:Hw.
  - rewrite (idle_no_gameover fs g1 (went_over_idle f g g1 Hf Hw) Hs). simpl. lia.
  - simpl. now apply at_most_one_gameover.
Qed.

End WithEntropy.
End RoundEnd.

Module PlayTick.
Import Aux.

Lemma after_hits t r3 b :
  let g' := round_timer t (hits t r3 b) in
  cur_radius g' = cur_radius b /\
  ball_x g' = ball_x b /\ ball_y g' = ball_y b /\
  obstacles g' = List.map obstacle_update (obstacles b) /\
  state g' = (if Qle_bool GAME_DURATION (t - start_time b) then STATE_GAMEOVER
              else if any_hit r3 b then STATE_GAMEOVER else state b).
Proof.
  unfold round_timer, hits, game_over.
  destruct (any_hit r3 b); simpl;
    destruct (Qle_bool GAME_DURATION (t - start_time b)); simpl;
    repeat split; reflexivity.
Qed.

Lemma any_hit_iff rad g :
  Forall sized (obstacles g) ->
  any_hit rad g = true <->
  exists o, In o (List.map obstacle_update (obstacles g)) /\
            closest_point_hit (ball_x g) (ball_y g) rad (rect o) = true.
Proof.
  intros Hs. unfold any_hit. rewrite existsb_exists. split.
  - intros (o & Ho & Hc). exists (obstacle_update o).
    split; [now apply List.in_map|].
    rewrite <- Collision.collides_closest; [exact Hc| |];
      apply (proj1 (List.Forall_forall _ _) Hs o Ho).
  - intros (o' & Ho' & Hc). apply List.in_map_iff in Ho' as (o & <- & Ho).
    exists o. split; [exact Ho|].
    rewrite Collision.collides_closest; [exact Hc| |];
      apply (proj1 (List.Forall_forall _ _) Hs o Ho).
Qed.

Section WithEntropy.
Variable entropy : nat -> Z.

(** The update block in Play: it returns, and it leaves GameOver exactly
    on a timeout or a hit, measured on the ball and the radius it leaves
    and on the moved obstacles. *)
Lemma update_ends_round t g r :
  state g = STATE_PLAY -> cur_radius g = Some r ->
  Forall sized (obstacles g) ->
  exists g' r',
    update_game_state entropy t g = Some g' /\ cur_radius g' = Some r' /\
    obstacles g' = List.map obstacle_update (obstacles g) /\
    (state g' = STATE_PLAY \/ state g' = STATE_GAMEOVER) /\
    (state g' = STATE_GAMEOVER <->
       (GAME_DURATION <= t - start_time g)%Q \/
       exists o, In o (obstacles g') /\
                 closest_point_hit (ball_x g') (ball_y g') r' (rect o) = true).
Proof.
  intros Hp Hr Hs.
  destruct (UpdateFacts.update_closed entropy t g r Hr) as (r3 & H3 & Hu).
  set (b := before_obstacles entropy t r g) in *.
  destruct (after_hits t r3 b) as (Hc & Hx & Hy & Ho & Hst).
  exists (round_timer t (hits t r3 b)), r3.
  assert (Hob : obstacles b = obstacles g)
    by apply UpdateFacts.obstacles_before_obstacles.
  assert (Hsb : state b = STATE_PLAY).
  { subst b. now rewrite UpdateFacts.state_before_obstacles. }
  assert (Htb : start_time b = start_time g)
    by apply UpdateFacts.start_time_before_obstacles.
  assert (Hsz : Forall sized (obstacles b)) by now rewrite Hob.
  split; [exact Hu|]. split; [now rewrite Hc|].
  split; [now rewrite Ho, Hob|].
  rewrite Hst, Hx, Hy, Ho, Htb, Hsb. clear Hst.
  pose proof (any_hit_iff r3 b Hsz) as Hh.
  destruct (Qle_bool GAME_DURATION (t - start_time g)) eqn:Et.
  - apply Qle_bool_iff in Et. split; [now right|]. split; auto.
  - assert (Hn : ~ (GAME_DURATION <= t - start_time g)%Q).
    { intros H. apply Qle_bool_iff in H. congruence. }
    destruct (any_hit r3 b) eqn:Eh.
    + split; [now right|]. split; [|reflexivity].
      intros _. right. now apply Hh.
    + split; [now left|]. split; [discriminate|].
      intros [H|H]; [contradiction|]. apply Hh in H. discriminate.
Qed.

(** An iteration whose inputs leave Play runs the update block. *)
Lemma frame_ends_round f g r :
  state (inputs entropy f g) = STATE_PLAY ->
  cur_radius (inputs entropy f g) = Some r ->
  Forall sized (obstacles (inputs entropy f g)) ->
  exists g' r',
    frame_step entropy f g = Some g' /\ cur_radius g' = Some r' /\
    obstacles g' = List.map obstacle_update (obstacles (inputs entropy f g)) /\
    (state g' = STATE_PLAY \/ state g' = STATE_GAMEOVER) /\
    (state g' = STATE_GAMEOVER <->
       (GAME_DURATION <= now f - start_time (inputs entropy f g))%Q \/
       exists o, In o (obstacles g') /\
                 closest_point_hit (ball_x g') (ball_y g') r' (rect o) = true) /\
    (went_over entropy f g = true <-> state g' = STATE_GAMEOVER).
Proof.
  intros Hp Hr Hs.
  destruct (update_ends_round (now f) (inputs entropy f g) r Hp Hr Hs)
    as (g' & r' & Hu & Hc & Ho & Hst & Hiff).
  assert (Hf : frame_step entropy f g = Some g').
  { unfold frame_step.
    destruct (decide (state (inputs entropy f g) = STATE_PLAY)); [exact Hu|contradiction]. }
  exists g', r'. repeat apply conj; try assumption; try apply Hiff;
    now apply RoundEnd.went_over_iff.
Qed.

Lemma sized_spawn n p : Forall sized (spawn_obstacles entropy n p).
Proof.
  revert p. induction n as [|n IH]; intros p; [apply List.Forall_nil|].
  cbn [spawn_obstacles]. apply List.Forall_cons; [|apply IH].
  unfold sized, spawn_obstacle. simpl.
  pose proof (Draws.randint_range 30 70 (entropy p) ltac:(lia)).
  pose proof (Draws.randint_range 30 50 (entropy (p + 1)) ltac:(lia)). lia.
Qed.

Lemma sized_handle_event t g e :
  Forall sized (obstacles g) -> Forall sized (obstacles (handle_event entropy t g e)).
Proof.
  intros H. destruct e as [|k|]; [exact H| |exact H].
  unfold handle_event. destruct (state g), k; try exact H; apply sized_spawn.
Qed.

Lemma sized_inputs f g :
  Forall sized (obstacles g) -> Forall sized (obstacles (inputs entropy f g)).
Proof.
  intros H.
  assert (E : obstacles (inputs entropy f g)
              = obstacles (fold_left (handle_event entropy (clock f)) (events f) g)).
  { unfold inputs, receive, keyboard, process_serial. simpl.
    destruct (SerialReader.get_latest _) as [[l|] q]; [|reflexivity].
    destruct (PyStr.is_empty l); [reflexivity|].
    destruct (parse_serial_line l) as [s|]; [|reflexivity].
    unfold process_sample. rewrite Frames.switch_character_cases.
    now destruct (switched _ _ _). }
  rewrite E. clear E. revert g H.
  induction (events f) as [|e evs IH]; intros g H; [exact H|].
  cbn [fold_left]. apply IH. now apply sized_handle_event.
Qed.

Lemma sized_update t g g' :
  Forall sized (obstacles g) -> update_game_state entropy t g = Some g' ->
  Forall sized (obstacles g').
Proof.
  intros H Hu.
  destruct (cur_radius g) as [r|] eqn:Hr.
  - destruct (UpdateFacts.update_closed entropy t g r Hr) as (r3 & _ & Hc).
    rewrite Hc in Hu. injection Hu as <-.
    destruct (after_hits t r3 (before_obstacles entropy t r g)) as (_ & _ & _ & -> & _).
    rewrite UpdateFacts.obstacles_before_obstacles.
    apply List.Forall_map. eapply List.Forall_impl; [|exact H].
    intros o Ho. exact Ho.
  - unfold update_game_state, move_ball in Hu. rewrite Hr in Hu. discriminate.
Qed.

(** Every state the loop reaches has obstacles of positive sizes. *)
Lemma sized_run fs g g' :
  Forall sized (obstacles g) -> run entropy fs g = Some g' ->
  Forall sized (obstacles g').
Proof.
  revert g. induction fs as [|f fs IH]; intros g H Hr.
  - now injection Hr as <-.
  - cbn [run] in Hr. destruct (running g); [|now injection Hr as <-].
    destruct (frame_step entropy f g) as [g1|] eqn:Hf; [|discriminate].
    cbn [mbind option_bind] in Hr. apply (IH g1); [|exact Hr].
    unfold frame_step in Hf. pose proof (sized_inputs f g H) as Hi.
    destruct (decide (state (inputs entropy f g) = STATE_PLAY)).
    + now apply (sized_update (now f) (inputs entropy f g)).
    + now injection Hf as <-.
Qed.

(** The same in a state the loop reaches: the current radius is there and
    the sizes are non-negative, and the iteration is the next one of the
    loop. *)
Lemma reached_frame_ends_round t0 fs g f :
  run entropy fs (main_start entropy t0) = Some g -> running g = true ->
  state (inputs entropy f g) = STATE_PLAY ->
  exists g' r',
    frame_step entropy f g = Some g' /\
    run entropy (fs ++ [f]) (main_start entropy t0) = Some g' /\
    cur_radius g' = Some r' /\
    obstacles g' = List.map obstacle_update (obstacles (inputs entropy f g)) /\
    (state g' = STATE_PLAY \/ state g' = STATE_GAMEOVER) /\
    (state g' = STATE_GAMEOVER <->
       (GAME_DURATION <= now f - start_time (inputs entropy f g))%Q \/
       exists o, In o (obstacles g') /\
                 closest_point_hit (ball_x g') (ball_y g') r' (rect o) = true) /\
    (went_over entropy f g = true <-> state g' = STATE_GAMEOVER).
Proof.
  intros Hrun Hr Hp.
  destruct (CharIndex.run_inv entropy fs (main_start entropy t0)
              (CharIndex.char_inv_start entropy t0)) as (g0 & Hg0 & Hi).
  rewrite Hrun in Hg0. injection Hg0 as <-.
  pose proof (CharIndex.char_inv_inputs entropy f g Hi) as [Hl Hc].
  assert (Hrad : is_Some (cur_radius (inputs entropy f g))).
  { apply Frames.cur_radius_in_bounds. now rewrite Hl. }
  destruct Hrad as [r Hrad].
  assert (Hs : Forall sized (obstacles (inputs entropy f g))).
  { apply sized_inputs. apply (sized_run fs (main_start entropy t0)); [|exact Hrun].
    apply sized_spawn. }
  destruct (frame_ends_round f g r Hp Hrad Hs)
    as (g' & r' & Hf & Hc' & Ho & Hst & Hiff & Hw).
  exists g', r'. repeat apply conj; try assumption; try apply Hiff; try apply Hw.
  rewrite RoundEnd.run_app, Hrun. cbn [mbind option_bind run]. rewrite Hr, Hf.
  reflexivity.
Qed.

End WithEntropy.
End PlayTick.

(** C2. In Play the update block returns a state that is in GameOver
    exactly when the round has lasted at least 60 seconds or some
    obstacle, after its move, has its closest point at a distance below
    the radius from the ball centre (ball, radius and obstacles as the
    block leaves them); otherwise the state stays Play. So does an
    iteration of the loop: in every state the loop reaches, an iteration
    whose inputs leave the state in Play runs the update block, is the
    next step of the loop, and ends in GameOver exactly on that condition;
    an iteration whose inputs leave another state runs no update and is no
    transition. The broad phase followed by the closest-point test
    decides the same as the closest-point test alone, which is the
    comparison of the Euclidean distance with the radius; the sizes this
    asks to be non-negative are so in every state the loop reaches.
    Assigning GameOver a second time on the same iteration changes
    nothing. From the iteration on which a round may have started up to
    the next start of a round the state goes from Play to GameOver at most
    once; and when, after any number of iterations without a new start, an
    iteration in Play ends in GameOver, the transitions counted over all
    the iterations up to the next start are exactly one. *)
Theorem round_ends_on_hit_or_timeout (entropy : nat -> Z) :
  (forall t g r,
      state g = STATE_PLAY -> cur_radius g = Some r ->
      Forall Aux.sized (obstacles g) ->
      exists g' r',
        update_game_state entropy t g = Some g' /\ cur_radius g' = Some r' /\
        obstacles g' = List.map obstacle_update (obstacles g) /\
        (state g' = STATE_PLAY \/ state g' = STATE_GAMEOVER) /\
        (state g' = STATE_GAMEOVER <->
           (GAME_DURATION <= t - start_time g)%Q \/
           exists o, In o (obstacles g') /\
                     closest_point_hit (ball_x g') (ball_y g') r' (rect o) = true)) /\
  (forall t0 fs g f,
      run entropy fs (main_start entropy t0) = Some g -> running g = true ->
      state (inputs entropy f g) = STATE_PLAY ->
      exists g' r',
        frame_step entropy f g = Some g' /\
        run entropy (fs ++ [f]) (main_start entropy t0) = Some g' /\
        cur_radius g' = Some r' /\
        obstacles g' = List.map obstacle_update (obstacles (inputs entropy f g)) /\
        (state g' = STATE_PLAY \/ state g' = STATE_GAMEOVER) /\
        (state g' = STATE_GAMEOVER <->
           (GAME_DURATION <= now f - start_time (inputs entropy f g))%Q \/
           exists o, In o (obstacles g') /\
                     closest_point_hit (ball_x g') (ball_y g') r' (rect o) = true) /\
        (Aux.went_over entropy f g = true <-> state g' = STATE_GAMEOVER)) /\
  (forall f g,
      state (inputs entropy f g) <> STATE_PLAY ->
      frame_step entropy f g = Some (inputs entropy f g) /\
      Aux.went_over entropy f g = false) /\
  (forall bx by_ rad r,
      0 <= rw r -> 0 <= rh r ->
      collides bx by_ rad r = closest_point_hit bx by_ rad r) /\
  (forall bx by_ rad r,
      closest_point_hit bx by_ rad r = true <->
      (sqrt (IZR (sq (bx - closest_x bx r) + sq (by_ - closest_y by_ r))) < IZR rad)%R) /\
  (forall t0 fs g,
      run entropy fs (main_start entropy t0) = Some g ->
      Forall Aux.sized (obstacles g)) /\
  (forall t g, game_over t (game_over t g) = game_over t g) /\
  (forall f fs g g1,
      frame_step entropy f g = Some g1 ->
      Aux.run_starts entropy fs g1 = 0%nat ->
      (Nat.b2n (Aux.went_over entropy f g) + Aux.run_gameovers entropy fs g1 <= 1)%nat) /\
  (forall fs1 f fs2 g g1 g2,
      run entropy fs1 g = Some g1 -> running g1 = true ->
      frame_step entropy f g1 = Some g2 ->
      state (inputs entropy f g1) = STATE_PLAY -> state g2 = STATE_GAMEOVER ->
      Aux.run_starts entropy (fs1 ++ f :: fs2) g = 0%nat ->
      Aux.run_gameovers entropy (fs1 ++ f :: fs2) g = 1%nat).
Proof.
  split; [apply PlayTick.update_ends_round|].
  split; [apply PlayTick.reached_frame_ends_round|].
  split; [apply RoundEnd.frame_outside_play|].
  split; [apply Collision.collides_closest|].
  split.
  { intros bx by_ rad r. unfold closest_point_hit.
    apply Collision.dist_lt_sqrt.
    pose proof (Collision.sq_nonneg (bx - closest_x bx r)).
    pose proof (Collision.sq_nonneg (by_ - closest_y by_ r)). lia. }
  split.
  { intros t0 fs g. apply PlayTick.sized_run. apply PlayTick.sized_spawn. }
  split; [apply Frames.game_over_twice|].
  split; [apply RoundEnd.one_gameover_per_round|].
  apply RoundEnd.one_gameover_in_round.
Qed.

(** A round in Play that nothing disturbs ends once, at the timeout. *)
Example timeout_counts_once :
  Aux.run_gameovers Aux.zero_entropy [Aux.quiet 59; Aux.quiet 61; Aux.quiet 62]
    (set_state STATE_PLAY (main_start Aux.zero_entropy 0)) = 1%nat.
Proof. vm_compute. reflexivity. Qed.

(** An obstacle that covers the ball ends the round on the first
    iteration, long before the timeout. *)
Example hit_ends_round :
  state <$> frame_step Aux.obstacle_on_ball (Aux.quiet 1)
              (set_state STATE_PLAY (main_start Aux.obstacle_on_ball 0))
  = Some STATE_GAMEOVER.
Proof. vm_compute. reflexivity. Qed.

(** The sum of a coordinate and a speed is rounded as a double before the
    rectangle takes its integer part: from 393 a speed just below 3 leads
    to 396. *)
Example step_rounds_the_sum :
  let v := (3 - (1 # 2 ^ 51))%Q in
  rx (rect (obstacle_update (mkObstacle (mkRect 393 0 30 30) v v))) = 396.
Proof. vm_compute. reflexivity. Qed.

Lemma round_ends_on_hit_or_timeout_witness :
  let e0 := Aux.zero_entropy in
  let start := main_start e0 0 in
  let g := set_state STATE_PLAY start in
  let g1 := default start (run e0 [Aux.enter 1] start) in
  let g2 := default start (run e0 [Aux.quiet 2; Aux.quiet 3] g1) in
  let g3 := default start (frame_step e0 (Aux.quiet 62) g2) in
  state <$> update_game_state e0 61 g = Some STATE_GAMEOVER /\
  state <$> run e0 ([Aux.enter 1] ++ [Aux.quiet 62]) start = Some STATE_GAMEOVER /\
  Aux.went_over e0 (Aux.quiet 62) g1 = true /\
  frame_step e0 (Aux.quiet 1) start = Some (inputs e0 (Aux.quiet 1) start) /\
  collides 40 40 25 (mkRect 0 0 31 30) = closest_point_hit 40 40 25 (mkRect 0 0 31 30) /\
  (Nat.b2n (Aux.went_over e0 (Aux.quiet 1) start)
   + Aux.run_gameovers e0 [Aux.quiet 62] (inputs e0 (Aux.quiet 1) start) <= 1)%nat /\
  Aux.run_gameovers e0
    ([Aux.quiet 2; Aux.quiet 3] ++ Aux.quiet 62 :: [Aux.quiet 63; Aux.quiet 64]) g1
  = 1%nat.
Proof.
  intros e0 start g g1 g2 g3.
  destruct (round_ends_on_hit_or_timeout e0) as (A & R & O & B & _ & _ & _ & E & X).
  assert (T : (GAME_DURATION <= now (Aux.quiet 62) - start_time (inputs e0 (Aux.quiet 62) g1))%Q).
  { apply Qle_bool_iff. vm_compute. reflexivity. }
  destruct (R 0%Q [Aux.enter 1] g1 (Aux.quiet 62)) as (g' & r' & Hf & Hrun & _ & _ & _ & Hiff & Hw);
    [vm_compute; reflexivity|vm_compute; reflexivity|vm_compute; reflexivity|].
  repeat apply conj.
  - destruct (A 61%Q g 25) as (ga & ra & Hu & _ & _ & _ & Ha).
    + reflexivity.
    + reflexivity.
    + change (obstacles g) with (spawn_obstacles e0 OBSTACLE_COUNT 3).
      cbn [spawn_obstacles OBSTACLE_COUNT].
      repeat (apply List.Forall_cons; [split; apply Z.leb_le; reflexivity|]).
      apply List.Forall_nil.
    + rewrite Hu. simpl. f_equal. apply Ha. left.
      apply Qle_bool_iff. reflexivity.
  - change (main_start e0 0) with start in Hrun. rewrite Hrun.
    simpl. f_equal. apply Hiff. left. exact T.
  - apply Hw, Hiff. left. exact T.
  - apply O. vm_compute. discriminate.
  - apply B; simpl; lia.
  - apply E; vm_compute; reflexivity.
  - apply (X [Aux.quiet 2; Aux.quiet 3] (Aux.quiet 62) [Aux.quiet 63; Aux.quiet 64]
             g1 g2 g3); vm_compute; reflexivity.
Defined.

(** ** The radius when no power-up is active *)

(** C1 fails on the code. In the first session a round is started while
    the power-up of the previous round is still active: [init_game] clears
    [power_active] and leaves the radius at 33. In the second session the
    character is switched while the power-up is active: the expiry resets
    the radius of the character that is current then, and the enlarged one
    keeps 33 when it is current again. Both sessions end in Play with no
    power-up active and a current radius of 33, not [BALL_RADIUS]. *)
Theorem radius_stays_enlarged :
  Aux.power_view <$>
    run Aux.coin_under_ball Aux.restart_session (main_start Aux.coin_under_ball 50)
  = Some (STATE_PLAY, false, Some (BALL_RADIUS + 8), 0%nat) /\
  Aux.power_view <$>
    run Aux.coin_under_ball Aux.switch_session (main_start Aux.coin_under_ball 50)
  = Some (STATE_PLAY, false, Some (BALL_RADIUS + 8), 0%nat) /\
  Aux.power_view <$>
    run Aux.coin_under_ball (firstn 3 Aux.switch_session)
      (main_start Aux.coin_under_ball 50)
  = Some (STATE_PLAY, false, Some BALL_RADIUS, 1%nat).
Proof. repeat apply conj; vm_compute; reflexivity. Qed.

(** ** The debounce of the character switch *)

Module Debounce.
Import Aux.

Lemma switched_eligible t s g :
  switched t s g = eligible s && Qltb SWITCH_DEBOUNCE (t - last_switch g).
Proof.
  unfold switched, button_fires, shake_fires, eligible.
  destruct (btn s) as [b|]; simpl.
  - destruct (b =? 1), (Z.abs (az s) >? SHAKE_THRESHOLD),
      (Qltb SWITCH_DEBOUNCE (t - last_switch g)); reflexivity.
  - reflexivity.
Qed.

Lemma last_switch_process_sample t s g :
  last_switch (process_sample t s g)
  = if switched t s g then t else last_switch g.
Proof.
  unfold process_sample. rewrite Frames.switch_character_cases.
  change (switched t s (set_move_dy _ (set_move_dx _ g))) with (switched t s g).
  now destruct (switched t s g).
Qed.

Lemma current_char_process_sample t s g :
  current_char (process_sample t s g)
  = if switched t s g
    then ((current_char g + 1) mod length (characters g))%nat
    else current_char g.
Proof.
  unfold process_sample. rewrite Frames.switch_character_cases.
  change (switched t s (set_move_dy _ (set_move_dx _ g))) with (switched t s g).
  now destruct (switched t s g).
Qed.

Lemma not_switched t s g :
  (t - last_switch g <= SWITCH_DEBOUNCE)%Q -> switched t s g = false.
Proof.
  intros H. rewrite switched_eligible.
  destruct (Qltb SWITCH_DEBOUNCE (t - last_switch g)) eqn:E.
  - apply Collision.Qltb_lt in E. apply Qlt_not_le in E. contradiction.
  - apply andb_false_r.
Qed.

(** No sample comes later than the debounce interval after the last
    switch: nothing switches. *)
Lemma quiet_interval l g :
  Forall (fun ts => (fst ts - last_switch g <= SWITCH_DEBOUNCE)%Q) l ->
  switch_count l g = 0%nat.
Proof.
  revert g. induction l as [|[t s] l IH]; intros g H; [reflexivity|].
  apply List.Forall_cons_iff in H as [Ht Hl]. simpl in Ht.
  cbn [switch_count]. rewrite (not_switched t s g Ht). simpl.
  apply IH. rewrite last_switch_process_sample, (not_switched t s g Ht).
  exact Hl.
Qed.

(** In a window shorter than the debounce interval there is at most one
    switch. *)
Lemma at_most_one_switch lo hi l g :
  (hi - lo < SWITCH_DEBOUNCE)%Q -> within lo hi l ->
  (switch_count l g <= 1)%nat.
Proof.
  intros Hw. revert g. induction l as [|[t s] l IH]; intros g H; [simpl; lia|].
  apply List.Forall_cons_iff in H as [[Ht1 Ht2] Hl]. simpl in Ht1, Ht2.
  cbn [switch_count]. destruct (switched t s g) eqn:E.
  - rewrite quiet_interval; [simpl; lia|].
    rewrite last_switch_process_sample, E.
    eapply List.Forall_impl; [|exact Hl]. intros [t' s'] [H1 H2]. simpl in *.
    unfold SWITCH_DEBOUNCE in *. lra.
  - simpl. now apply IH.
Qed.

Lemma switch_count_app l1 l2 g :
  switch_count (l1 ++ l2) g
  = (switch_count l1 g + switch_count l2 (process_samples l1 g))%nat.
Proof.
  revert g. induction l1 as [|[t s] l1 IH]; intros g; [reflexivity|].
  simpl. rewrite IH. lia.
Qed.

Lemma no_switch_keeps_timer l g :
  switch_count l g = 0%nat -> last_switch (process_samples l g) = last_switch g.
Proof.
  revert g. induction l as [|[t s] l IH]; intros g H; [reflexivity|].
  cbn [switch_count] in H. apply Nat.eq_add_0 in H as [H1 H2].
  cbn [process_samples]. rewrite (IH _ H2), last_switch_process_sample.
  now destruct (switched t s g).
Qed.

(** A window shorter than the debounce interval that ends with a switch
    event: one switch when the window ends later than the interval after
    the switch that preceded it, none otherwise. *)
Lemma window_count lo t2 s2 pre g :
  (t2 - lo < SWITCH_DEBOUNCE)%Q -> (lo <= t2)%Q -> within lo t2 pre ->
  eligible s2 = true ->
  switch_count (pre ++ [(t2, s2)]) g
  = if Qltb SWITCH_DEBOUNCE (t2 - last_switch g) then 1%nat else 0%nat.
Proof.
  intros Hw Hlo Hpre He.
  assert (Hall : within lo t2 (pre ++ [(t2, s2)])).
  { apply List.Forall_app. split; [exact Hpre|].
    apply List.Forall_cons; [|apply List.Forall_nil]. simpl. split; [exact Hlo|lra]. }
  destruct (Qltb SWITCH_DEBOUNCE (t2 - last_switch g)) eqn:E.
  - pose proof (at_most_one_switch lo t2 _ g Hw Hall) as Hle.
    rewrite switch_count_app in *. cbn [switch_count] in *.
    destruct (switch_count pre g) as [|n] eqn:Ec; [|lia].
    rewrite switched_eligible, He, (no_switch_keeps_timer _ _ Ec), E.
    reflexivity.
  - apply quiet_interval.
    assert (Hd : (t2 - last_switch g <= SWITCH_DEBOUNCE)%Q).
    { apply Qnot_lt_le. intros H. apply Collision.Qltb_lt in H. congruence. }
    eapply List.Forall_impl; [|exact Hall]. intros [t s] [H1 H2]. simpl in *.
    lra.
Qed.

End Debounce.

(** C7, as the code has it. A switch happens on a valid sample exactly
    when the sample is a switch event (button value 1, or [|az|] above
    15000) and more than 0.5 s have passed since the last switch; the
    button and the shake together give one switch, not two. A switch sets
    the index to its successor modulo three and the debounce timer to the
    current time. Over samples that all lie in a window shorter than 0.5 s
    there is at most one switch; when the window ends with a switch event,
    there is exactly one if that event comes more than 0.5 s after the
    last switch before the window, and none otherwise. *)
Theorem debounced_switch :
  (forall t s g,
      switch_character t s g = if Aux.switched t s g then advance t g else g) /\
  (forall t s g,
      Aux.switched t s g
      = Aux.eligible s && Qltb SWITCH_DEBOUNCE (t - last_switch g)) /\
  (forall t g,
      length (characters g) = 3%nat ->
      current_char (advance t g) = ((current_char g + 1) mod 3)%nat /\
      last_switch (advance t g) = t) /\
  (forall lo hi l g,
      (hi - lo < SWITCH_DEBOUNCE)%Q -> Aux.within lo hi l ->
      (Aux.switch_count l g <= 1)%nat) /\
  (forall t1 s1 mid t2 s2 g,
      (t1 <= t2)%Q -> (t2 - t1 < SWITCH_DEBOUNCE)%Q -> Aux.within t1 t2 mid ->
      Aux.eligible s1 = true -> Aux.eligible s2 = true ->
      Aux.switch_count ((t1, s1) :: mid ++ [(t2, s2)]) g
      = if Qltb SWITCH_DEBOUNCE (t2 - last_switch g) then 1%nat else 0%nat).
Proof.
  split; [apply Frames.switch_character_cases|].
  split; [apply Debounce.switched_eligible|].
  split; [intros t g Hl; simpl; now rewrite Hl|].
  split; [apply Debounce.at_most_one_switch|].
  intros t1 s1 mid t2 s2 g H12 Hw Hmid _ He2.
  apply (Debounce.window_count t1 t2 s2 ((t1, s1) :: mid) g Hw H12); [|exact He2].
  apply List.Forall_cons; [simpl; split; [lra|exact H12]|exact Hmid].
Qed.

Lemma debounced_switch_witness :
  Aux.switch_count [(100%Q, Aux.pressed); ((1003 # 10)%Q, Aux.pressed)]
    (main_start Aux.zero_entropy 0) = 1%nat /\
  (Aux.switch_count [(100%Q, Aux.pressed); ((1001 # 10)%Q, mkSample 0 0 1 None);
                     ((1003 # 10)%Q, Aux.pressed)]
     (main_start Aux.zero_entropy 0) <= 1)%nat /\
  current_char (advance 100 (main_start Aux.zero_entropy 0)) = 1%nat.
Proof.
  destruct debounced_switch as (_ & _ & A & B & C).
  split; [|split].
  - apply (C 100%Q Aux.pressed [] (1003 # 10)%Q Aux.pressed (main_start Aux.zero_entropy 0)).
    + vm_compute. discriminate.
    + vm_compute. reflexivity.
    + apply List.Forall_nil.
    + vm_compute. reflexivity.
    + vm_compute. reflexivity.
  - apply (B 100%Q (1003 # 10)%Q); [vm_compute; reflexivity|].
    repeat (apply List.Forall_cons; [split; vm_compute; discriminate|]).
    apply List.Forall_nil.
  - apply A. vm_compute. reflexivity.
Defined.

(** C7, as the specification states it, fails: after a switch at time 100, the
    switch events at 100.2 and 100.4 are less than 0.5 s apart and neither
    changes the character. *)
Lemma two_events_no_change :
  let g1 := process_sample 100 Aux.pressed (main_start Aux.zero_entropy 0) in
  Aux.eligible Aux.pressed = true /\
  ((1004 # 10) - (1002 # 10) < SWITCH_DEBOUNCE)%Q /\
  Aux.switch_count [((1002 # 10)%Q, Aux.pressed); ((1004 # 10)%Q, Aux.pressed)] g1 = 0%nat /\
  current_char (Aux.process_samples [((1002 # 10)%Q, Aux.pressed); ((1004 # 10)%Q, Aux.pressed)] g1)
  = current_char g1 /\
  current_char <$> run Aux.zero_entropy Aux.three_presses (main_start Aux.zero_entropy 0)
  = Some 1%nat.
Proof. repeat apply conj; vm_compute; reflexivity. Qed.

(** ** Iterations without a sample *)

Module NoSample.
Import Aux.

Lemma process_serial_no_sample t g :
  latest_sample (queue g) = None ->
  process_serial t g = set_queue (snd (SerialReader.get_latest (queue g))) g.
Proof.
  unfold latest_sample, process_serial.
  destruct (SerialReader.get_latest (queue g)) as [[l|] q]; simpl; [|reflexivity].
  destruct (PyStr.is_empty l); [reflexivity|].
  now intros ->.
Qed.

Lemma keyboard_deltas k g :
  move_dx (keyboard k g) = move_dx g + key_dx k /\
  move_dy (keyboard k g) = move_dy g + key_dy k.
Proof.
  unfold keyboard, key_dx, key_dy. simpl.
  destruct (K_LEFT k), (K_RIGHT k), (K_UP k), (K_DOWN k); split; lia.
Qed.

Lemma keyboard_others k g :
  current_char (keyboard k g) = current_char g /\
  last_switch (keyboard k g) = last_switch g /\
  ball_x (keyboard k g) = ball_x g /\ ball_y (keyboard k g) = ball_y g.
Proof. repeat apply conj; reflexivity. Qed.

Section WithEntropy.
Variable entropy : nat -> Z.

Lemma gesture_handle_event t g e :
  gesture_view (handle_event entropy t g e) = gesture_view g.
Proof.
  destruct e as [|k|]; [reflexivity| |reflexivity].
  unfold handle_event. destruct (state g), k; reflexivity.
Qed.

Lemma gesture_receive f g : gesture_view (receive entropy f g) = gesture_view g.
Proof.
  unfold receive.
  change (gesture_view (set_queue ?q ?h)) with (gesture_view h).
  generalize (events f). intros evs. revert g.
  induction evs as [|e evs IH]; intros g; [reflexivity|].
  simpl. now rewrite IH, gesture_handle_event.
Qed.

Lemma inputs_no_sample f g :
  latest_sample (queue (receive entropy f g)) = None ->
  inputs entropy f g
  = keyboard (keys f)
      (set_queue (snd (SerialReader.get_latest (queue (receive entropy f g))))
                 (receive entropy f g)).
Proof. intros H. unfold inputs. now rewrite process_serial_no_sample. Qed.

Lemma ball_after_update t g r g' :
  cur_radius g = Some r -> update_game_state entropy t g = Some g' ->
  ball_x g' = Z.max r (Z.min (WIDTH - r) (ball_x g + move_dx g)) /\
  ball_y g' = Z.max r (Z.min (HEIGHT - r) (ball_y g + move_dy g)).
Proof.
  intros Hr Hu.
  destruct (UpdateFacts.update_closed entropy t g r Hr) as (r3 & _ & Hc).
  rewrite Hc in Hu. injection Hu as <-.
  destruct (PlayTick.after_hits t r3 (before_obstacles entropy t r g))
    as (_ & -> & -> & _).
  destruct (UpdateFacts.ball_before_obstacles entropy t r g) as [-> ->].
  split; reflexivity.
Qed.

End WithEntropy.
End NoSample.

(** C4, as the code has it. On an iteration whose serial block finds no
    line, or a line that does not parse, the character index and the
    debounce timer keep their values and the deltas are not reset: each
    delta is the delta that the previous iteration left plus the keyboard
    contribution of this iteration (one [BALL_SPEED] per held arrow key),
    and in Play the ball moves by that sum before it is clamped. When the
    delta left by the previous iteration is zero, the delta is exactly the
    keyboard contribution. *)
Theorem deltas_persist_without_sample (entropy : nat -> Z) (f : Frame) (g : Game) :
  Aux.latest_sample (queue (receive entropy f g)) = None ->
  let gi := inputs entropy f g in
  current_char gi = current_char g /\
  last_switch gi = last_switch g /\
  move_dx gi = move_dx g + key_dx (keys f) /\
  move_dy gi = move_dy g + key_dy (keys f) /\
  (move_dx g = 0 -> move_dx gi = key_dx (keys f)) /\
  (move_dy g = 0 -> move_dy gi = key_dy (keys f)) /\
  (forall r,
      state gi = STATE_PLAY -> cur_radius gi = Some r ->
      exists g',
        frame_step entropy f g = Some g' /\
        ball_x g' = Z.max r (Z.min (WIDTH - r)
                      (ball_x (receive entropy f g) + (move_dx g + key_dx (keys f)))) /\
        ball_y g' = Z.max r (Z.min (HEIGHT - r)
                      (ball_y (receive entropy f g) + (move_dy g + key_dy (keys f))))).
Proof.
  intros Hn gi.
  pose proof (NoSample.gesture_receive entropy f g) as Hg.
  unfold Aux.gesture_view in Hg. injection Hg as Hc Hl Hx Hy.
  assert (Hi : gi = keyboard (keys f)
                 (set_queue (snd (SerialReader.get_latest (queue (receive entropy f g))))
                            (receive entropy f g)))
    by now apply NoSample.inputs_no_sample.
  assert (Dx : move_dx gi = move_dx g + key_dx (keys f)).
  { rewrite Hi. rewrite (proj1 (NoSample.keyboard_deltas _ _)). simpl. now rewrite Hx. }
  assert (Dy : move_dy gi = move_dy g + key_dy (keys f)).
  { rewrite Hi. rewrite (proj2 (NoSample.keyboard_deltas _ _)). simpl. now rewrite Hy. }
  assert (Bx : ball_x gi = ball_x (receive entropy f g)) by now rewrite Hi.
  assert (By : ball_y gi = ball_y (receive entropy f g)) by now rewrite Hi.
  split; [rewrite Hi; exact Hc|]. split; [rewrite Hi; exact Hl|].
  split; [exact Dx|]. split; [exact Dy|].
  split; [intros H0; rewrite Dx; lia|]. split; [intros H0; rewrite Dy; lia|].
  intros r Hp Hr. unfold frame_step. fold gi.
  destruct (decide (state gi = STATE_PLAY)); [|contradiction].
  destruct (Frames.update_total entropy (now f) gi) as (g' & Hu & _).
  { apply Frames.cur_radius_in_bounds. eauto. }
  exists g'. split; [exact Hu|].
  destruct (NoSample.ball_after_update entropy (now f) gi r g' Hr Hu) as [-> ->].
  now rewrite Dx, Dy, Bx, By.
Qed.

Lemma deltas_persist_without_sample_witness :
  let g1 := inputs Aux.zero_entropy Aux.tilt_frame (main_start Aux.zero_entropy 0) in
  move_dx (inputs Aux.zero_entropy (Aux.quiet 101) g1) = move_dx g1 + 0 /\
  move_dx g1 = 5.
Proof.
  intros g1.
  destruct (deltas_persist_without_sample Aux.zero_entropy (Aux.quiet 101) g1)
    as (_ & _ & H & _).
  - vm_compute. reflexivity.
  - split; [exact H|vm_compute; reflexivity].
Defined.

(** C4, as the specification states it, fails: a sample with a tilt to the right
    is processed on one iteration; on the next iteration there is no line
    and no key is held, and the ball moves by [BALL_SPEED] again. *)
Lemma stale_tilt_moves_ball :
  let start := main_start Aux.zero_entropy 0 in
  (fun g => (ball_x g, queue g)) <$> run Aux.zero_entropy [Aux.tilt_frame] start
    = Some (455, []) /\
  arrivals (Aux.quiet 101) = [] /\
  key_dx (keys (Aux.quiet 101)) = 0 /\
  ball_x <$> run Aux.zero_entropy [Aux.tilt_frame; Aux.quiet 101] start = Some 460.
Proof. repeat apply conj; vm_compute; reflexivity. Qed.

(** ** Coin pickup *)

Module Coin.
Import Aux.




Lemma cur_radius_set v g r :
  cur_radius g = Some r -> cur_radius (set_cur_radius v g) = Some v.
Proof.
  unfold cur_radius, set_cur_radius. simpl. rewrite list_lookup_alter_eq.
  destruct (characters g !! current_char g); [reflexivity|discriminate].
Qed.

Section WithEntropy.
Variable entropy : nat -> Z.


(** The pickup itself. *)
Lemma collect_view t g r :
  cur_radius g = Some r ->
  pickup_view (collect entropy t g)
  = if coin_special g
    then (score g + 5, true, (t + POWERUP_DURATION)%Q, Some (BALL_RADIUS + 8))
    else (score g + 1, power_active g, power_ends_at g, Some r).
Proof.
  intros Hr. unfold collect, pickup_view. destruct (coin_special g).
  - change (cur_radius (spawn_coin entropy ?h)) with (cur_radius h).
    erewrite cur_radius_set by exact Hr. reflexivity.
  - change (cur_radius (spawn_coin entropy ?h)) with (cur_radius g).
    now rewrite Hr.
Qed.

Lemma coin_of_collect t g :
  (coin_x (collect entropy t g), coin_y (collect entropy t g),
   coin_special (collect entropy t g))
  = (coin_x (spawn_coin entropy g), coin_y (spawn_coin entropy g),
     coin_special (spawn_coin entropy g)).
Proof. unfold collect. now destruct (coin_special g). Qed.

End WithEntropy.
End Coin.

Module Pickup.
Import Aux.

(** The obstacle block and the round timer leave the score, the power-up,
    the coin, the characters and the random source alone. *)
Lemma rest_of_update t r3 b :
  let g' := round_timer t (hits t r3 b) in
  score g' = score b /\ power_active g' = power_active b /\
  power_ends_at g' = power_ends_at b /\ cur_radius g' = cur_radius b /\
  coin_x g' = coin_x b /\ coin_y g' = coin_y b /\
  coin_special g' = coin_special b /\ rng_pos g' = rng_pos b.
Proof.
  unfold round_timer, hits, game_over.
  destruct (any_hit r3 b); simpl;
    destruct (Qle_bool GAME_DURATION (t - start_time b)); simpl;
    repeat apply conj; reflexivity.
Qed.

Lemma power_timeout_coin t g :
  score (power_timeout t g) = score g /\
  coin_x (power_timeout t g) = coin_x g /\
  coin_y (power_timeout t g) = coin_y g /\
  coin_special (power_timeout t g) = coin_special g /\
  rng_pos (power_timeout t g) = rng_pos g.
Proof.
  unfold power_timeout.
  destruct (power_active g && Qle_bool (power_ends_at g) t);
    repeat apply conj; reflexivity.
Qed.


Section WithEntropy.
Variable entropy : nat -> Z.

Lemma collect_special t g r :
  cur_radius g = Some r -> coin_special g = true ->
  let c := collect entropy t g in
  score c = score g + 5 /\ power_active c = true /\
  power_ends_at c = (t + POWERUP_DURATION)%Q /\
  cur_radius c = Some (BALL_RADIUS + 8).
Proof.
  intros Hr Hs. pose proof (Coin.collect_view entropy t g r Hr) as Hv.
  rewrite Hs in Hv. unfold pickup_view in Hv. injection Hv as H1 H2 H3 H4.
  auto.
Qed.

Lemma collect_ordinary t g :
  coin_special g = false -> score (collect entropy t g) = score g + 1.
Proof. intros Hs. unfold collect. now rewrite Hs. Qed.



End WithEntropy.
End Pickup.



(** ** Pause and resume *)

Module Pause.
Import Aux.

Lemma round_process_serial t g : round_view (process_serial t g) = round_view g.
Proof.
  unfold process_serial.
  destruct (SerialReader.get_latest (queue g)) as [[l|] q]; [|reflexivity].
  destruct (PyStr.is_empty l); [reflexivity|].
  destruct (parse_serial_line l) as [s|]; [|reflexivity].
  unfold process_sample. rewrite Frames.switch_character_cases.
  now destruct (switched _ _ _).
Qed.

Section WithEntropy.
Variable entropy : nat -> Z.

(** The serial block and the keyboard block leave the state and the round
    alone. *)
Lemma inputs_after_events f g :
  state (inputs entropy f g)
  = state (fold_left (handle_event entropy (clock f)) (events f) g) /\
  round_view (inputs entropy f g)
  = round_view (fold_left (handle_event entropy (clock f)) (events f) g).
Proof.
  split; [apply RoundEnd.state_inputs|].
  unfold inputs, receive.
  change (round_view (keyboard ?k ?h)) with (round_view h).
  now rewrite round_process_serial.
Qed.

Lemma keyless_events t evs g :
  forallb (fun e => match e with KEYDOWN _ => false | _ => true end) evs = true ->
  state (fold_left (handle_event entropy t) evs g) = state g /\
  round_view (fold_left (handle_event entropy t) evs g) = round_view g.
Proof.
  revert g. induction evs as [|e evs IH]; intros g H; [split; reflexivity|].
  cbn [forallb] in H. apply andb_true_iff in H as [He H].
  cbn [fold_left]. destruct (IH (handle_event entropy t g e) H) as [-> ->].
  destruct e; [split; reflexivity|discriminate|split; reflexivity].
Qed.

(** An iteration in Pause on which no key goes down. *)
Lemma paused_frame f g :
  state g = STATE_PAUSE -> keyless f = true ->
  frame_step entropy f g = Some (inputs entropy f g) /\
  state (inputs entropy f g) = STATE_PAUSE /\
  round_view (inputs entropy f g) = round_view g.
Proof.
  intros Hp Hk. destruct (inputs_after_events f g) as [Hs Hr].
  destruct (keyless_events (clock f) (events f) g Hk) as [Hs' Hr'].
  rewrite Hs' in Hs. rewrite Hr' in Hr. rewrite Hp in Hs.
  unfold frame_step. rewrite Hs. simpl. auto.
Qed.

Lemma paused_run fs g :
  state g = STATE_PAUSE -> Forall (fun f => keyless f = true) fs ->
  exists g', run entropy fs g = Some g' /\ state g' = STATE_PAUSE /\
             round_view g' = round_view g /\ (char_inv g -> char_inv g').
Proof.
  revert g. induction fs as [|f fs IH]; intros g Hp Hk; [exists g; auto|].
  apply List.Forall_cons_iff in Hk as [Hf Hk].
  cbn [run]. destruct (running g); [|exists g; auto].
  destruct (paused_frame f g Hp Hf) as (-> & Hs & Hr).
  cbn [mbind option_bind].
  destruct (IH _ Hs Hk) as (g' & Hrun & Hs' & Hr' & Hc).
  exists g'. rewrite Hr', Hr.
  split; [exact Hrun|]. split; [exact Hs'|]. split; [reflexivity|].
  intros Hinv. apply Hc. now apply CharIndex.char_inv_inputs.
Qed.

(** The iteration on which P is pressed in Play. *)
Lemma pausing_frame f g :
  state g = STATE_PLAY -> events f = [KEYDOWN K_p] ->
  frame_step entropy f g = Some (inputs entropy f g) /\
  state (inputs entropy f g) = STATE_PAUSE /\
  round_view (inputs entropy f g) = round_view g.
Proof.
  intros Hp He. destruct (inputs_after_events f g) as [Hs Hr].
  rewrite He in Hs, Hr. cbn [fold_left] in Hs, Hr.
  unfold handle_event in Hs, Hr. rewrite Hp in Hs, Hr.
  unfold frame_step. rewrite Hs. simpl. auto.
Qed.

(** The iteration on which P is pressed in Pause. *)
Lemma resuming_frame f g :
  state g = STATE_PAUSE -> events f = [KEYDOWN K_p] ->
  frame_step entropy f g = update_game_state entropy (now f) (inputs entropy f g) /\
  state (inputs entropy f g) = STATE_PLAY /\
  round_view (inputs entropy f g) = round_view g.
Proof.
  intros Hp He. destruct (inputs_after_events f g) as [Hs Hr].
  rewrite He in Hs, Hr. cbn [fold_left] in Hs, Hr.
  unfold handle_event in Hs, Hr. rewrite Hp in Hs, Hr.
  unfold frame_step. rewrite Hs. simpl. auto.
Qed.

Lemma coin_step_power t r g :
  coin_special g = false ->
  power_active (coin_step entropy t r g) = power_active g /\
  power_ends_at (coin_step entropy t r g) = power_ends_at g.
Proof.
  intros Hs. unfold coin_step, collect. rewrite Hs.
  destruct (coin_reached g r); split; reflexivity.
Qed.

(** The deadlines as the update block applies them. *)
Lemma update_deadlines t g :
  char_inv g ->
  exists g',
    update_game_state entropy t g = Some g' /\
    ((GAME_DURATION <= t - start_time g)%Q -> state g' = STATE_GAMEOVER) /\
    (power_active g = true -> (power_ends_at g <= t)%Q ->
     coin_special g = false -> power_active g' = false).
Proof.
  intros [Hl Hc].
  assert (Hb : is_Some (cur_radius g)).
  { apply Frames.cur_radius_in_bounds. now rewrite Hl. }
  destruct Hb as [r Hr].
  destruct (UpdateFacts.update_closed entropy t g r Hr) as (r3 & _ & Hu).
  eexists. split; [exact Hu|].
  set (b := before_obstacles entropy t r g).
  destruct (PlayTick.after_hits t r3 b) as (_ & _ & _ & _ & Hst).
  destruct (Pickup.rest_of_update t r3 b) as (_ & Hpa & _).
  split.
  - intros Ht. rewrite Hst. subst b.
    rewrite UpdateFacts.start_time_before_obstacles.
    apply Qle_bool_iff in Ht. now rewrite Ht.
  - intros Ha He Hs. rewrite Hpa. subst b. unfold before_obstacles.
    destruct (coin_step_power t r (moved r g) Hs) as [Ca Ce].
    unfold power_timeout. rewrite Ca, Ce.
    change (power_active (moved r g)) with (power_active g).
    change (power_ends_at (moved r g)) with (power_ends_at g).
    apply Qle_bool_iff in He. now rewrite Ha, He.
Qed.

End WithEntropy.
End Pause.

(** C8. Pressing P in Play assigns Pause to the state and nothing else;
    pressing P in Pause assigns Play and nothing else. From the iteration
    of the pause on, as long as no key goes down, every iteration returns
    in Pause with the round unchanged: start time, power-up flag and
    deadline, score, ball, coin, obstacles and characters keep their
    values. The iteration of the resume runs the update block on a state
    with that same round, so the deadlines are the ones set before the
    pause: the round ends on it when 60 seconds have passed since the
    start time, and an active power-up whose deadline has passed ends on
    it, whatever part of that time was spent in Pause. *)
Theorem pause_keeps_round (entropy : nat -> Z) :
  (forall t g, state g = STATE_PLAY ->
     handle_event entropy t g (KEYDOWN K_p) = set_state STATE_PAUSE g) /\
  (forall t g, state g = STATE_PAUSE ->
     handle_event entropy t g (KEYDOWN K_p) = set_state STATE_PLAY g) /\
  (forall fp fs g,
     state g = STATE_PLAY -> running g = true ->
     events fp = [KEYDOWN K_p] -> Forall (fun f => Aux.keyless f = true) fs ->
     exists gp,
       run entropy (fp :: fs) g = Some gp /\ state gp = STATE_PAUSE /\
       Aux.round_view gp = Aux.round_view g /\
       (Aux.char_inv g -> Aux.char_inv gp)) /\
  (forall fr gp,
     state gp = STATE_PAUSE -> Aux.char_inv gp -> events fr = [KEYDOWN K_p] ->
     let gr := inputs entropy fr gp in
     state gr = STATE_PLAY /\ Aux.round_view gr = Aux.round_view gp /\
     frame_step entropy fr gp = update_game_state entropy (now fr) gr /\
     ((GAME_DURATION <= now fr - start_time gp)%Q ->
      state <$> frame_step entropy fr gp = Some STATE_GAMEOVER) /\
     (power_active gp = true -> (power_ends_at gp <= now fr)%Q ->
      coin_special gp = false ->
      power_active <$> frame_step entropy fr gp = Some false)).
Proof.
  split; [intros t g H; unfold handle_event; now rewrite H|].
  split; [intros t g H; unfold handle_event; now rewrite H|].
  split.
  - intros fp fs g Hp Hrun Hev Hk. cbn [run]. rewrite Hrun.
    destruct (Pause.pausing_frame entropy fp g Hp Hev) as (-> & Hs & Hr).
    cbn [mbind option_bind].
    destruct (Pause.paused_run entropy fs _ Hs Hk) as (gp & Hgp & Hsp & Hrp & Hc).
    exists gp. rewrite Hrp, Hr.
    split; [exact Hgp|]. split; [exact Hsp|]. split; [reflexivity|].
    intros Hinv. apply Hc. now apply CharIndex.char_inv_inputs.
  - intros fr gp Hp Hinv Hev gr.
    destruct (Pause.resuming_frame entropy fr gp Hp Hev) as (Hf & Hs & Hr).
    fold gr in Hf, Hs, Hr.
    assert (Hi : Aux.char_inv gr) by now apply CharIndex.char_inv_inputs.
    destruct (Pause.update_deadlines entropy (now fr) gr Hi) as (g' & Hu & Ht & Hpw).
    pose proof (f_equal Aux.r_start_time Hr) as E1.
    pose proof (f_equal Aux.r_power_active Hr) as E2.
    pose proof (f_equal Aux.r_power_ends_at Hr) as E3.
    pose proof (f_equal (fun v => snd (Aux.r_coin v)) Hr) as E4.
    change (start_time gr = start_time gp) in E1.
    change (power_active gr = power_active gp) in E2.
    change (power_ends_at gr = power_ends_at gp) in E3.
    change (coin_special gr = coin_special gp) in E4.
    rewrite E1 in Ht. rewrite E2, E3, E4 in Hpw.
    split; [exact Hs|]. split; [exact Hr|]. split; [exact Hf|].
    rewrite Hf, Hu. simpl.
    split; [intros H; f_equal; now apply Ht|].
    intros Ha He Hc. f_equal. now apply Hpw.
Qed.

Lemma pause_keeps_round_witness :
  let e := Aux.zero_entropy in
  let g := set_state STATE_PLAY (main_start e 0) in
  (exists gp,
     run e [Aux.press_p 10; Aux.quiet 30; Aux.quiet 61] g = Some gp /\
     state gp = STATE_PAUSE /\ Aux.round_view gp = Aux.round_view g /\
     (Aux.char_inv g -> Aux.char_inv gp)) /\
  state <$> frame_step e (Aux.press_p 61) (set_state STATE_PAUSE g)
  = Some STATE_GAMEOVER.
Proof.
  intros e g. destruct (pause_keeps_round e) as (_ & _ & A & B).
  split.
  - apply A.
    + vm_compute. reflexivity.
    + vm_compute. reflexivity.
    + vm_compute. reflexivity.
    + repeat (apply List.Forall_cons; [vm_compute; reflexivity|]).
      apply List.Forall_nil.
  - destruct (B (Aux.press_p 61) (set_state STATE_PAUSE g)) as (_ & _ & _ & H & _).
    + vm_compute. reflexivity.
    + split; vm_compute; [reflexivity|lia].
    + vm_compute. reflexivity.
    + apply H. vm_compute. discriminate.
Defined.

(** * Further properties of the code *)

(** ** The reader thread and the queue *)

Module ReaderFacts.
Import SerialReader More.

Lemma keep_last_length {A} n (l : list A) : (length (keep_last n l) <= n)%nat.
Proof. unfold keep_last. rewrite List.length_skipn. lia. Qed.

Lemma keep_last_short {A} n (l : list A) :
  (length l <= n)%nat -> keep_last n l = l.
Proof.
  intros H. unfold keep_last.
  replace (length l - n)%nat with 0%nat by lia. reflexivity.
Qed.

Lemma keep_last_app {A} n (l l' : list A) :
  keep_last n (keep_last n l ++ l') = keep_last n (l ++ l').
Proof.
  unfold keep_last.
  rewrite !List.length_app, List.length_skipn.
  rewrite (List.skipn_app (length l + length l' - n)).
  rewrite (List.skipn_app (length l - (length l - n) + length l' - n)).
  rewrite List.length_skipn, List.skipn_skipn.
  f_equal; f_equal; lia.
Qed.

Lemma append_keep_last l q :
  (length q <= maxlen)%nat -> append l q = keep_last maxlen (q ++ [l]).
Proof.
  intros H. unfold append, keep_last. rewrite List.length_app.
  change (length [l]) with 1%nat.
  destruct (Nat.leb_spec maxlen (length q)) as [Hf|Hf].
  - replace (length q + 1 - maxlen)%nat with 1%nat by lia.
    destruct q as [|x q]; [|reflexivity].
    exfalso. revert Hf. unfold maxlen. cbn [length]. lia.
  - replace (length q + 1 - maxlen)%nat with 0%nat by lia. reflexivity.
Qed.

Lemma push_raw_keep_last q raw :
  (length q <= maxlen)%nat ->
  push_raw q raw = keep_last maxlen (q ++ queued_lines [raw]).
Proof.
  intros H. unfold push_raw, queued_lines. simpl.
  destruct (PyStr.is_empty (PyStr.strip raw)); simpl.
  - rewrite List.app_nil_r. symmetry. now apply keep_last_short.
  - now apply append_keep_last.
Qed.

Lemma queued_lines_cons raw raws :
  queued_lines (raw :: raws) = queued_lines [raw] ++ queued_lines raws.
Proof.
  unfold queued_lines. simpl.
  now destruct (PyStr.is_empty (PyStr.strip raw)).
Qed.

Lemma run_keep_last raws q :
  (length q <= maxlen)%nat ->
  fold_left push_raw raws q = keep_last maxlen (q ++ queued_lines raws).
Proof.
  revert q. induction raws as [|raw raws IH]; intros q H.
  - simpl. unfold queued_lines. simpl. rewrite List.app_nil_r.
    symmetry. now apply keep_last_short.
  - cbn [fold_left]. rewrite IH.
    + rewrite (push_raw_keep_last q raw H), keep_last_app.
      now rewrite <- List.app_assoc, <- queued_lines_cons.
    + rewrite (push_raw_keep_last q raw H). apply keep_last_length.
Qed.

End ReaderFacts.

(** ** Stripping *)

Module StripFacts.
Import PyStr More.

Lemma rstrip_idem s : rstrip (rstrip s) = rstrip s.
Proof.
  induction s as [|c s IH]; [reflexivity|].
  cbn [rstrip]. destruct (is_space c && is_empty (rstrip s)) eqn:E; [reflexivity|].
  cbn [rstrip]. now rewrite IH, E.
Qed.

Lemma lstrip_head s :
  lstrip s = EmptyString \/
  exists c s', lstrip s = String c s' /\ is_space c = false.
Proof.
  induction s as [|c s IH]; [now left|].
  cbn [lstrip]. destruct (is_space c) eqn:E; [exact IH|].
  right. now exists c, s.
Qed.

Lemma strip_idem s : strip (strip s) = strip s.
Proof.
  unfold strip. destruct (lstrip_head s) as [->|(c & s' & -> & Hc)]; [reflexivity|].
  cbn [rstrip]. rewrite Hc. cbn [andb lstrip]. rewrite Hc.
  cbn [rstrip]. rewrite Hc. cbn [andb]. now rewrite rstrip_idem.
Qed.

Lemma has_char_lstrip c s : has_char c (lstrip s) = true -> has_char c s = true.
Proof.
  induction s as [|d s IH]; [trivial|].
  cbn [lstrip has_char]. destruct (is_space d).
  - intros H. rewrite (IH H). apply orb_true_r.
  - trivial.
Qed.

Lemma has_char_rstrip c s : has_char c (rstrip s) = true -> has_char c s = true.
Proof.
  induction s as [|d s IH]; [trivial|].
  cbn [rstrip has_char]. destruct (is_space d && is_empty (rstrip s)).
  - discriminate.
  - cbn [has_char]. destruct (Ascii.eqb c d); [trivial|].
    simpl. exact IH.
Qed.

Lemma has_char_strip c s : has_char c (strip s) = true -> has_char c s = true.
Proof. intros H. now apply has_char_lstrip, has_char_rstrip. Qed.

Lemma split_comma_no_comma s :
  Forall (fun t => has_char ","%char t = false) (split_comma s).
Proof.
  induction s as [|c s IH]; [repeat constructor|].
  cbn [split_comma]. destruct (Ascii.eqb_spec c ","%char) as [->|Hc].
  - now constructor.
  - destruct (split_comma s) as [|t ts]; [repeat constructor|].
    + cbn [has_char]. apply orb_false_iff. split; [|reflexivity].
      apply Ascii.eqb_neq. congruence.
    + apply List.Forall_cons_iff in IH as [Ht Hts].
      constructor; [|exact Hts]. cbn [has_char].
      apply orb_false_iff. split; [|exact Ht].
      apply Ascii.eqb_neq. congruence.
Qed.

Lemma clean_strip raw : is_empty (strip raw) = false -> clean (strip raw).
Proof. intros H. split; [exact H|apply strip_idem]. Qed.

End StripFacts.

Module QueueInv.
Import More.

Lemma keep_last_app_long {A} n (l l' : list A) :
  (n <= length l')%nat -> keep_last n (l ++ l') = keep_last n l'.
Proof.
  intros H. unfold keep_last. rewrite List.length_app, List.skipn_app.
  rewrite List.skipn_all2 by lia. simpl. f_equal. lia.
Qed.

Lemma clean_append l q : clean l -> Forall clean q -> Forall clean (SerialReader.append l q).
Proof.
  intros Hl Hq. unfold SerialReader.append.
  assert (Hl1 : Forall clean [l]) by (apply List.Forall_cons; [exact Hl|apply List.Forall_nil]).
  destruct (SerialReader.maxlen <=? length q)%nat; apply List.Forall_app; split; try exact Hl1.
  - destruct q; [apply List.Forall_nil|].
    now apply List.Forall_cons_iff in Hq as [_ Hq].
  - exact Hq.
Qed.

Lemma clean_push_raw q raw : Forall clean q -> Forall clean (SerialReader.push_raw q raw).
Proof.
  intros Hq. unfold SerialReader.push_raw.
  destruct (PyStr.is_empty (PyStr.strip raw)) eqn:E; [exact Hq|].
  apply clean_append; [|exact Hq]. now apply StripFacts.clean_strip.
Qed.

Lemma clean_run raws q : Forall clean q -> Forall clean (fold_left SerialReader.push_raw raws q).
Proof.
  revert q. induction raws as [|raw raws IH]; intros q Hq; [exact Hq|].
  cbn [fold_left]. apply IH. now apply clean_push_raw.
Qed.

(** [SerialReader.get_latest] splits the queue into its last entry and the rest. *)
Lemma get_latest_last q :
  SerialReader.get_latest q = (List.last (List.map Some q) None, List.removelast q).
Proof.
  induction q as [|l q _] using List.rev_ind; [reflexivity|].
  rewrite QueueFacts.get_latest_snoc, List.map_app.
  change (List.map Some [l]) with [Some l].
  now rewrite List.last_last, List.removelast_last.
Qed.

Lemma get_latest_in q l : fst (SerialReader.get_latest q) = Some l -> In l q.
Proof.
  induction q as [|x q _] using List.rev_ind; [discriminate|].
  rewrite QueueFacts.get_latest_snoc. simpl. intros [= ->].
  apply List.in_or_app. right. now left.
Qed.

Lemma latest_sample_clean q :
  Forall clean q ->
  Aux.latest_sample q = fst (SerialReader.get_latest q) ≫= parse_serial_line.
Proof.
  intros Hq. unfold Aux.latest_sample.
  destruct (fst (SerialReader.get_latest q)) as [l|] eqn:E; [|reflexivity].
  apply get_latest_in in E.
  destruct (proj1 (List.Forall_forall _ _) Hq l E) as [-> _]. reflexivity.
Qed.

Lemma queue_process_serial t g :
  queue (process_serial t g) = List.removelast (queue g).
Proof.
  unfold process_serial. rewrite get_latest_last.
  destruct (List.last (List.map Some (queue g)) None) as [l|]; [|reflexivity].
  destruct (PyStr.is_empty l); [reflexivity|].
  destruct (parse_serial_line l) as [s|]; [|reflexivity].
  unfold process_sample. rewrite Frames.switch_character_cases.
  now destruct (Aux.switched _ _ _).
Qed.

Lemma removelast_length {A} (l : list A) :
  length (List.removelast l) = Nat.pred (length l).
Proof.
  induction l as [|x l _] using List.rev_ind; [reflexivity|].
  rewrite List.removelast_last, List.length_app. simpl. lia.
Qed.

Lemma clean_removelast q : Forall clean q -> Forall clean (List.removelast q).
Proof.
  induction q as [|x q _] using List.rev_ind; [trivial|].
  rewrite List.removelast_last. intros H.
  now apply List.Forall_app in H as [H _].
Qed.

Lemma reader_bound raws q :
  (length q <= SerialReader.maxlen)%nat ->
  (length (fold_left SerialReader.push_raw raws q) <= SerialReader.maxlen)%nat /\ True.
Proof.
  intros H. rewrite (ReaderFacts.run_keep_last raws q H).
  split; [apply ReaderFacts.keep_last_length|trivial].
Qed.

End QueueInv.

(** X1. The queue after the reader thread has read any raw lines holds the
    newest 100 of the lines it held before followed by the lines read,
    each stripped and the empty ones left out; it never holds more than
    100 lines, and once 100 lines have been queued nothing older than
    them is left. *)
Theorem reader_keeps_newest (q : SerialReader.queue) (raws : list string) :
  (length q <= SerialReader.maxlen)%nat ->
  fold_left SerialReader.push_raw raws q
    = More.keep_last SerialReader.maxlen (q ++ More.queued_lines raws) /\
  (length (fold_left SerialReader.push_raw raws q) <= SerialReader.maxlen)%nat /\
  ((SerialReader.maxlen <= length (More.queued_lines raws))%nat ->
   fold_left SerialReader.push_raw raws q
     = More.keep_last SerialReader.maxlen (More.queued_lines raws)).
Proof.
  intros H. rewrite (ReaderFacts.run_keep_last raws q H).
  split; [reflexivity|]. split; [apply ReaderFacts.keep_last_length|].
  apply QueueInv.keep_last_app_long.
Qed.

Lemma reader_keeps_newest_witness :
  fold_left SerialReader.push_raw [" 2,2,2 "; "   "; "3,3,3"]%string ["1,1,1"%string]
  = More.keep_last SerialReader.maxlen
      (["1,1,1"%string] ++ More.queued_lines [" 2,2,2 "; "   "; "3,3,3"]%string).
Proof.
  apply (reader_keeps_newest ["1,1,1"%string] [" 2,2,2 "; "   "; "3,3,3"]%string).
  vm_compute. lia.
Defined.

(** X2. Every line the reader queues is non-empty and has no whitespace
    left at its ends, so the emptiness test of the main loop on the line
    it takes never discards one: the sample the loop interprets is the
    parse of the line that [get_latest] returns. *)
Theorem queued_lines_are_clean (q : SerialReader.queue) (raws : list string) :
  Forall More.clean q ->
  let q' := fold_left SerialReader.push_raw raws q in
  Forall More.clean q' /\
  Aux.latest_sample q' = fst (SerialReader.get_latest q') ≫= parse_serial_line.
Proof.
  intros Hq q'. assert (Hc : Forall More.clean q') by now apply QueueInv.clean_run.
  split; [exact Hc|]. now apply QueueInv.latest_sample_clean.
Qed.

Lemma queued_lines_are_clean_witness :
  Forall More.clean
    (fold_left SerialReader.push_raw [" 7,8,9 "; ""]%string []).
Proof.
  apply (queued_lines_are_clean [] [" 7,8,9 "; ""]%string). apply List.Forall_nil.
Defined.



(** X4. Every token that the parser keeps from a line is non-empty, has no
    whitespace left at its ends and contains no comma, and there are at
    most as many tokens as pieces between the commas. *)
Theorem tokens_are_clean (line : string) :
  Forall (fun t => More.clean t /\ More.has_char ","%char t = false) (tokens line) /\
  (length (tokens line) <= length (PyStr.split_comma line))%nat.
Proof.
  split.
  - unfold tokens. apply List.Forall_forall. intros t Ht.
    apply List.filter_In in Ht as [Ht Hn].
    apply List.in_map_iff in Ht as (p & <- & Hp).
    apply negb_true_iff in Hn. split; [now apply StripFacts.clean_strip|].
    pose proof (proj1 (List.Forall_forall _ _) (StripFacts.split_comma_no_comma line) p Hp) as Hc.
    destruct (More.has_char "," (PyStr.strip p)) eqn:E; [|reflexivity].
    apply StripFacts.has_char_strip in E. congruence.
  - unfold tokens. etransitivity; [apply List.filter_length_le|].
    now rewrite List.length_map.
Qed.

(** ** Doubles: rounding does not cross an integer *)

Module DoubleFacts.
Import Double.

Lemma rne_le q k : (q <= inject_Z k)%Q -> rne q <= k.
Proof.
  destruct q as [n d]. unfold Qle, rne. cbn [Qnum Qden inject_Z]. intros H.
  assert (Hd : 0 < Z.pos d) by lia.
  pose proof (Z.div_mod n (Z.pos d) ltac:(lia)) as E.
  pose proof (Z.mod_pos_bound n (Z.pos d) Hd) as B.
  set (f := n / Z.pos d) in *. set (r := n mod Z.pos d) in *.
  assert (Hf : f <= k) by nia.
  destruct (Z.ltb_spec (2 * r) (Z.pos d)); [exact Hf|].
  assert (f < k) by nia.
  destruct (Z.ltb_spec (Z.pos d) (2 * r)); [lia|].
  destruct (Z.even f); lia.
Qed.

Lemma rne_ge q k : (inject_Z k <= q)%Q -> k <= rne q.
Proof.
  destruct q as [n d]. unfold Qle, rne. cbn [Qnum Qden inject_Z]. intros H.
  assert (Hd : 0 < Z.pos d) by lia.
  pose proof (Z.div_mod n (Z.pos d) ltac:(lia)) as E.
  pose proof (Z.mod_pos_bound n (Z.pos d) Hd) as B.
  set (f := n / Z.pos d) in *. set (r := n mod Z.pos d) in *.
  assert (Hf : k <= f) by nia.
  destruct (Z.ltb_spec (2 * r) (Z.pos d)); [exact Hf|].
  destruct (Z.ltb_spec (Z.pos d) (2 * r)); [lia|].
  destruct (Z.even f); lia.
Qed.

Lemma pow2_nonneg e : 0 <= e -> pow2 e = inject_Z (2 ^ e).
Proof. intros H. unfold pow2. destruct (Z.leb_spec 0 e); [reflexivity|lia]. Qed.

Lemma pow2_pos e : (0 < pow2 e)%Q.
Proof.
  unfold pow2. destruct (Z.leb_spec 0 e).
  - unfold Qlt. cbn. pose proof (Z.pow_pos_nonneg 2 e). lia.
  - reflexivity.
Qed.

Lemma pow2_inv e : (pow2 (- e) * pow2 e == 1)%Q.
Proof.
  assert (K : forall a, 0 < a -> (inject_Z (2 ^ a) * Qmake 1 (Z.to_pos (2 ^ a)) == 1)%Q).
  { intros a Ha. unfold Qeq. cbn [Qnum Qden Qmult inject_Z].
    pose proof (Z.pow_pos_nonneg 2 a ltac:(lia) ltac:(lia)).
    rewrite Pos2Z.inj_mul, Z2Pos.id by lia. lia. }
  unfold pow2. destruct (Z.leb_spec 0 e), (Z.leb_spec 0 (- e)).
  - assert (e = 0) by lia. subst. reflexivity.
  - rewrite Z.opp_involutive, Qmult_comm. apply K. lia.
  - apply K. lia.
  - lia.
Qed.

(** [flog2] is a lower bound of the logarithm. *)
Lemma flog2_lower q :
  Qnum q <> 0 -> (pow2 (flog2 q) <= Qmake (Z.abs (Qnum q)) (Qden q))%Q.
Proof.
  destruct q as [n d]. cbn [Qnum]. intros Hn.
  unfold flog2. cbn [Qnum Qden].
  assert (Ha : 0 < Z.abs n) by lia.
  pose proof (Z.log2_spec (Z.abs n) Ha) as [A1 A2].
  pose proof (Z.log2_spec (Z.pos d) ltac:(lia)) as [B1 B2].
  pose proof (Z.log2_nonneg (Z.abs n)) as A0.
  pose proof (Z.log2_nonneg (Z.pos d)) as B0.
  set (a := Z.log2 (Z.abs n)) in *. set (b := Z.log2 (Z.pos d)) in *.
  set (N := Z.abs n) in *.
  assert (P : forall k, 0 <= k -> 0 < 2 ^ k) by (intros; apply Z.pow_pos_nonneg; lia).
  assert (low : forall k, k = a - b - 1 ->
            (if 0 <=? k then Z.pos d * 2 ^ k <= N else Z.pos d <= N * 2 ^ (- k))).
  { intros k ->. destruct (Z.leb_spec 0 (a - b - 1)).
    - replace (2 ^ a) with (2 ^ Z.succ b * 2 ^ (a - b - 1)) in A1
        by (rewrite <- Z.pow_add_r by lia; f_equal; lia).
      pose proof (P (a - b - 1) ltac:(lia)). nia.
    - replace (2 ^ Z.succ b) with (2 ^ a * 2 ^ (- (a - b - 1))) in B2
        by (rewrite <- Z.pow_add_r by lia; f_equal; lia).
      pose proof (P (- (a - b - 1)) ltac:(lia)). nia. }
  assert (fin : forall k, (if 0 <=? k then Z.pos d * 2 ^ k <= N else Z.pos d <= N * 2 ^ (- k)) ->
            (pow2 k <= Qmake N d)%Q).
  { intros k. unfold pow2. destruct (Z.leb_spec 0 k); intros H1.
    - unfold Qle. cbn [Qnum Qden inject_Z]. lia.
    - unfold Qle. cbn [Qnum Qden].
      pose proof (P (- k) ltac:(lia)). rewrite Z2Pos.id by lia. lia. }
  match goal with |- context [if ?c then _ else _] => destruct c eqn:C end.
  - apply fin. destruct (0 <=? a - b); [apply Z.leb_le|apply Z.leb_le]; exact C.
  - apply fin. apply low. lia.
Qed.

Lemma abs_cases q x :
  (x <= Qmake (Z.abs (Qnum q)) (Qden q))%Q -> (x <= q \/ x <= - q)%Q.
Proof.
  destruct q as [n d]. cbn [Qnum Qden]. intros H.
  destruct (Z.abs_spec n) as [[_ E]|[_ E]]; rewrite E in H; [left|right]; exact H.
Qed.

Lemma round_zero q : Qnum q = 0 -> round q = 0%Q.
Proof. intros H. unfold round. rewrite H. reflexivity. Qed.

Lemma Qnum_zero q : Qnum q = 0 -> (q == 0)%Q.
Proof. destruct q as [n d]. cbn. intros ->. reflexivity. Qed.

(** Rounding does not cross an integer that is itself a double. *)
Lemma round_le_int q z :
  - 2 ^ 53 < z < 2 ^ 53 -> (q <= inject_Z z)%Q -> (round q <= inject_Z z)%Q.
Proof.
  intros Hz Hq. unfold round. destruct (Z.eqb_spec (Qnum q) 0) as [E|E].
  - rewrite (Qnum_zero q E) in Hq. exact Hq.
  - cbv zeta. set (e := flog2 q - 52).
    pose proof (flog2_lower q E) as L.
    pose proof (pow2_inv e) as I. pose proof (pow2_pos e) as Pe.
    pose proof (pow2_pos (- e)) as Pne.
    destruct (Z_le_gt_dec e 0) as [He|He].
    + assert (R : rne (q * pow2 (- e)) <= z * 2 ^ (- e)).
      { apply rne_le. rewrite inject_Z_mult, <- pow2_nonneg by lia.
        apply Qmult_le_compat_r; [exact Hq|apply Qlt_le_weak; exact Pne]. }
      assert (R' : (inject_Z (rne (q * pow2 (- e))) <= inject_Z z * pow2 (- e))%Q).
      { apply Qle_trans with (inject_Z (z * 2 ^ (- e))).
        - rewrite <- Zle_Qle. exact R.
        - rewrite inject_Z_mult, <- pow2_nonneg by lia. apply Qle_refl. }
      apply Qle_trans with (inject_Z z * pow2 (- e) * pow2 e)%Q.
      * apply Qmult_le_compat_r; [exact R'|apply Qlt_le_weak; exact Pe].
      * rewrite <- Qmult_assoc, I, Qmult_1_r. apply Qle_refl.
    + (* |q| is at least 2^53, so q is negative *)
      assert (F : flog2 q = e + 52) by (unfold e; lia).
      rewrite F, pow2_nonneg in L by lia.
      assert (T : (inject_Z (2 ^ 53) <= inject_Z (2 ^ (e + 52)))%Q).
      { rewrite <- Zle_Qle. apply Z.pow_le_mono_r; lia. }
      assert (Zq : (inject_Z z < inject_Z (2 ^ 53))%Q) by (rewrite <- Zlt_Qlt; lia).
      assert (Neg : (q <= - inject_Z (2 ^ (e + 52)))%Q).
      { apply abs_cases in L as [L|L]; lra. }
      assert (S : (inject_Z (2 ^ (e + 52)) == inject_Z (2 ^ 52) * pow2 e)%Q).
      { rewrite pow2_nonneg, <- inject_Z_mult by lia.
        rewrite Z.pow_add_r by lia. rewrite Z.mul_comm. reflexivity. }
      assert (R : rne (q * pow2 (- e)) <= - 2 ^ 52).
      { apply rne_le. rewrite inject_Z_opp.
        apply Qle_trans with (- inject_Z (2 ^ (e + 52)) * pow2 (- e))%Q.
        - apply Qmult_le_compat_r; [exact Neg|apply Qlt_le_weak; exact Pne].
        - rewrite S. 
          setoid_replace (- (inject_Z (2 ^ 52) * pow2 e) * pow2 (- e))%Q
            with (- inject_Z (2 ^ 52) * (pow2 (- e) * pow2 e))%Q using relation Qeq by ring.
          rewrite I. rewrite Qmult_1_r. apply Qle_refl. }
      assert (R' : (inject_Z (rne (q * pow2 (- e))) <= - inject_Z (2 ^ 52))%Q).
      { rewrite <- inject_Z_opp, <- Zle_Qle. exact R. }
      assert (Two : (inject_Z 2 <= pow2 e)%Q).
      { rewrite pow2_nonneg by lia. rewrite <- Zle_Qle.
        change 2 with (2 ^ 1) at 1. apply Z.pow_le_mono_r; lia. }
      apply Qle_trans with (- inject_Z (2 ^ 52) * pow2 e)%Q.
      * apply Qmult_le_compat_r; [exact R'|apply Qlt_le_weak; exact Pe].
      * assert (W : (inject_Z (-2 ^ 53) <= inject_Z z)%Q) by (rewrite <- Zle_Qle; lia).
        change (inject_Z (-2 ^ 53)) with (- inject_Z (2 ^ 52) * inject_Z 2)%Q in W.
        apply Qle_trans with (- inject_Z (2 ^ 52) * inject_Z 2)%Q; [|exact W].
        setoid_replace (- inject_Z (2 ^ 52) * pow2 e)%Q with (- (inject_Z (2 ^ 52) * pow2 e))%Q using relation Qeq by ring.
        setoid_replace (- inject_Z (2 ^ 52) * inject_Z 2)%Q with (- (inject_Z (2 ^ 52) * inject_Z 2))%Q using relation Qeq by ring.
        apply Qopp_le_compat. rewrite (Qmult_comm _ (pow2 e)), (Qmult_comm _ (inject_Z 2)).
        apply Qmult_le_compat_r; [exact Two|]. rewrite <- (Zle_Qle 0). lia.
Qed.
Lemma round_ge_int q z :
  - 2 ^ 53 < z < 2 ^ 53 -> (inject_Z z <= q)%Q -> (inject_Z z <= round q)%Q.
Proof.
  intros Hz Hq. unfold round. destruct (Z.eqb_spec (Qnum q) 0) as [E|E].
  - rewrite (Qnum_zero q E) in Hq. exact Hq.
  - cbv zeta. set (e := flog2 q - 52).
    pose proof (flog2_lower q E) as L.
    pose proof (pow2_inv e) as I. pose proof (pow2_pos e) as Pe.
    pose proof (pow2_pos (- e)) as Pne.
    destruct (Z_le_gt_dec e 0) as [He|He].
    + assert (R : z * 2 ^ (- e) <= rne (q * pow2 (- e))).
      { apply rne_ge. rewrite inject_Z_mult, <- pow2_nonneg by lia.
        apply Qmult_le_compat_r; [exact Hq|apply Qlt_le_weak; exact Pne]. }
      assert (R' : (inject_Z z * pow2 (- e) <= inject_Z (rne (q * pow2 (- e))))%Q).
      { apply Qle_trans with (inject_Z (z * 2 ^ (- e))).
        - rewrite inject_Z_mult, <- pow2_nonneg by lia. apply Qle_refl.
        - rewrite <- Zle_Qle. exact R. }
      apply Qle_trans with (inject_Z z * pow2 (- e) * pow2 e)%Q.
      * rewrite <- Qmult_assoc, I, Qmult_1_r. apply Qle_refl.
      * apply Qmult_le_compat_r; [exact R'|apply Qlt_le_weak; exact Pe].
    + assert (F : flog2 q = e + 52) by (unfold e; lia).
      rewrite F, pow2_nonneg in L by lia.
      assert (T : (inject_Z (2 ^ 53) <= inject_Z (2 ^ (e + 52)))%Q).
      { rewrite <- Zle_Qle. apply Z.pow_le_mono_r; lia. }
      assert (Zq : (- inject_Z (2 ^ 53) < inject_Z z)%Q).
      { rewrite <- inject_Z_opp, <- Zlt_Qlt. lia. }
      assert (Pos : (inject_Z (2 ^ (e + 52)) <= q)%Q).
      { apply abs_cases in L as [L|L]; lra. }
      assert (S : (inject_Z (2 ^ (e + 52)) == inject_Z (2 ^ 52) * pow2 e)%Q).
      { rewrite pow2_nonneg, <- inject_Z_mult by lia.
        rewrite Z.pow_add_r by lia. rewrite Z.mul_comm. reflexivity. }
      assert (R : 2 ^ 52 <= rne (q * pow2 (- e))).
      { apply rne_ge.
        apply Qle_trans with (inject_Z (2 ^ (e + 52)) * pow2 (- e))%Q.
        - rewrite S, <- Qmult_assoc, (Qmult_comm (pow2 e)), I, Qmult_1_r.
          apply Qle_refl.
        - apply Qmult_le_compat_r; [exact Pos|apply Qlt_le_weak; exact Pne]. }
      assert (R' : (inject_Z (2 ^ 52) <= inject_Z (rne (q * pow2 (- e))))%Q).
      { rewrite <- Zle_Qle. exact R. }
      assert (Two : (inject_Z 2 <= pow2 e)%Q).
      { rewrite pow2_nonneg by lia. rewrite <- Zle_Qle.
        change 2 with (2 ^ 1) at 1. apply Z.pow_le_mono_r; lia. }
      apply Qle_trans with (inject_Z (2 ^ 52) * pow2 e)%Q.
      * assert (W : (inject_Z z <= inject_Z (2 ^ 53))%Q) by (rewrite <- Zle_Qle; lia).
        change (inject_Z (2 ^ 53)) with (inject_Z (2 ^ 52) * inject_Z 2)%Q in W.
        apply Qle_trans with (inject_Z (2 ^ 52) * inject_Z 2)%Q; [exact W|].
        rewrite (Qmult_comm _ (pow2 e)), (Qmult_comm _ (inject_Z 2)).
        apply Qmult_le_compat_r; [exact Two|]. rewrite <- (Zle_Qle 0). lia.
      * apply Qmult_le_compat_r; [exact R'|apply Qlt_le_weak; exact Pe].
Qed.

(** One tenth as a double, and two ties that go to the even significand. *)
Example round_values :
  (round (1 # 10) == 3602879701896397 # 36028797018963968)%Q /\
  (round (inject_Z (2 ^ 53 + 1)) == inject_Z (2 ^ 53))%Q /\
  (round (inject_Z (2 ^ 53 + 3)) == inject_Z (2 ^ 53 + 4))%Q.
Proof. repeat apply conj; vm_compute; reflexivity. Qed.

(** An integer that is a double is its own rounding. *)
Lemma round_int z : - 2 ^ 53 < z < 2 ^ 53 -> (round (inject_Z z) == inject_Z z)%Q.
Proof.
  intros Hz. apply Qle_antisym.
  - apply round_le_int; [exact Hz|apply Qle_refl].
  - apply round_ge_int; [exact Hz|apply Qle_refl].
Qed.

End DoubleFacts.

(** ** Obstacles *)

Module ObstacleFacts.
Import More.

(** A float at or below -1 has an integer part at or below -1. *)
Lemma rect_int_neg q : (q <= - (1 # 1))%Q -> rect_int q <= -1.
Proof.
  destruct q as [n d]. unfold Qle, rect_int. simpl. intros H.
  assert (Hn : n = - (- n)) by lia. rewrite Hn.
  rewrite Z.quot_opp_l by lia.
  rewrite Z.quot_div_nonneg by lia.
  pose proof (Z.div_le_lower_bound (- n) (Z.pos d) 1 ltac:(lia) ltac:(lia)).
  lia.
Qed.

Lemma speed_flip v : speed_ok v -> speed_ok (v * (-1 # 1)).
Proof. unfold speed_ok. intros [[H1 H2]|[H1 H2]]; [right|left]; split; lra. Qed.

Lemma range_flip v : speed_in_range v -> speed_in_range (v * (-1 # 1)).
Proof.
  unfold speed_in_range, OBSTACLE_MIN_SPEED, OBSTACLE_MAX_SPEED.
  intros [[H1 H2]|[H1 H2]]; [right|left]; split; lra.
Qed.

(** [uniform(2, 4)] lies between 2 and 4, both ends included. *)
Lemma uniform_range raw :
  ((2 # 1) <= Rnd.uniform OBSTACLE_MIN_SPEED OBSTACLE_MAX_SPEED raw <= (4 # 1))%Q.
Proof.
  destruct (Draws.random_range raw) as [H0 H1].
  unfold Rnd.uniform, Double.add, Double.mul.
  assert (E : (Double.sub OBSTACLE_MAX_SPEED OBSTACLE_MIN_SPEED == 2 # 1)%Q)
    by (vm_compute; reflexivity).
  set (d := Double.sub OBSTACLE_MAX_SPEED OBSTACLE_MIN_SPEED) in *.
  set (r := Rnd.random raw) in *.
  assert (Hm : (0 <= d * r <= 2 # 1)%Q) by (rewrite E; split; lra).
  assert (M0 : (inject_Z 0 <= Double.round (d * r))%Q)
    by (apply DoubleFacts.round_ge_int; [lia|apply Hm]).
  assert (M2 : (Double.round (d * r) <= inject_Z 2)%Q)
    by (apply DoubleFacts.round_le_int; [lia|apply Hm]).
  change (inject_Z 0) with 0%Q in M0. change (inject_Z 2) with (2 # 1)%Q in M2.
  unfold OBSTACLE_MIN_SPEED. split.
  - apply (DoubleFacts.round_ge_int _ 2); [lia|]. change (inject_Z 2) with (2 # 1)%Q. lra.
  - apply (DoubleFacts.round_le_int _ 4); [lia|]. change (inject_Z 4) with (4 # 1)%Q. lra.
Qed.

Lemma speed_spawn s raw :
  speed_in_range (Double.mul (inject_Z (Rnd.choice_sign s))
                    (Rnd.uniform OBSTACLE_MIN_SPEED OBSTACLE_MAX_SPEED raw)).
Proof.
  destruct (uniform_range raw) as [H2 H4].
  unfold speed_in_range, Double.mul, Rnd.choice_sign.
  change OBSTACLE_MIN_SPEED with (2 # 1)%Q at 1 3.
  change OBSTACLE_MAX_SPEED with (4 # 1)%Q at 1 3.
  set (u := Rnd.uniform _ _ raw) in *.
  destruct (Z.even s).
  - change (inject_Z (-1)) with (- (1 # 1))%Q. right. split.
    + apply (DoubleFacts.round_ge_int _ (-4)); [lia|].
      change (inject_Z (-4)) with (- (4 # 1))%Q. lra.
    + apply (DoubleFacts.round_le_int _ (-2)); [lia|].
      change (inject_Z (-2)) with (- (2 # 1))%Q. lra.
  - change (inject_Z 1) with (1 # 1)%Q. left. split.
    + apply (DoubleFacts.round_ge_int _ 2); [lia|].
      change (inject_Z 2) with (2 # 1)%Q. lra.
    + apply (DoubleFacts.round_le_int _ 4); [lia|].
      change (inject_Z 4) with (4 # 1)%Q. lra.
Qed.

(** One axis of [Obstacle.update]: the new coordinate is on the screen. *)
Lemma axis_on_screen x1 w limit :
  0 <= w <= limit ->
  let b := (x1 <? 0) || (x1 + w >? limit) in
  let x2 := if b then Z.max 0 (Z.min x1 (limit - w)) else x1 in
  0 <= x2 /\ x2 + w <= limit.
Proof.
  intros Hw. simpl.
  destruct (Z.ltb_spec x1 0), (Z.gtb_spec (x1 + w) limit); simpl; lia.
Qed.

Lemma update_on_screen o :
  0 <= rw (rect o) <= WIDTH -> 0 <= rh (rect o) <= HEIGHT ->
  let o' := obstacle_update o in
  0 <= rx (rect o') /\ rx (rect o') + rw (rect o') <= WIDTH /\
  0 <= ry (rect o') /\ ry (rect o') + rh (rect o') <= HEIGHT.
Proof.
  intros Hw Hh. simpl.
  pose proof (axis_on_screen (rect_int (Double.add (inject_Z (rx (rect o))) (vx o)))
                (rw (rect o)) WIDTH Hw) as Hx.
  pose proof (axis_on_screen (rect_int (Double.add (inject_Z (ry (rect o))) (vy o)))
                (rh (rect o)) HEIGHT Hh) as Hy.
  simpl in Hx, Hy. lia.
Qed.

Lemma update_speeds o :
  let o' := obstacle_update o in
  (vx o' = vx o \/ vx o' = (vx o * (-1 # 1))%Q) /\
  (vy o' = vy o \/ vy o' = (vy o * (-1 # 1))%Q).
Proof.
  simpl. split.
  - destruct (_ || _); auto.
  - destruct ((rect_int (Double.add (inject_Z (ry (rect o))) (vy o)) <? 0) || _); auto.
Qed.

Lemma update_ok o : obstacle_ok o -> obstacle_ok (obstacle_update o).
Proof.
  intros (Hw & Hh & Hx0 & Hx1 & Hy0 & Hy1 & Svx & Svy).
  destruct (update_on_screen o) as (A & B & C & D);
    [unfold WIDTH; lia|unfold HEIGHT; lia|].
  destruct (update_speeds o) as [Ex Ey].
  unfold obstacle_ok.
  change (rw (rect (obstacle_update o))) with (rw (rect o)) in *.
  change (rh (rect (obstacle_update o))) with (rh (rect o)) in *.
  repeat apply conj; try assumption; try lia.
  - destruct Ex as [-> | ->]; [exact Svx|now apply range_flip].
  - destruct Ey as [-> | ->]; [exact Svy|now apply range_flip].
Qed.

(** An obstacle that would cross the left edge comes back to it with its
    horizontal speed reversed. *)
Lemma bounce_left o :
  0 <= rw (rect o) <= WIDTH ->
  (inject_Z (rx (rect o)) + vx o <= - (1 # 1))%Q ->
  rx (rect (obstacle_update o)) = 0 /\
  vx (obstacle_update o) = (vx o * (-1 # 1))%Q.
Proof.
  intros Hw Hv.
  apply (DoubleFacts.round_le_int _ (-1) ltac:(lia)), rect_int_neg in Hv.
  change (Double.round (inject_Z (rx (rect o)) + vx o))
    with (Double.add (inject_Z (rx (rect o))) (vx o)) in Hv.
  simpl.
  destruct (Z.ltb_spec (rect_int (Double.add (inject_Z (rx (rect o))) (vx o))) 0); [|lia].
  simpl. split; [lia|reflexivity].
Qed.

Section WithEntropy.
Variable entropy : nat -> Z.

Lemma spawn_ok p : obstacle_ok (spawn_obstacle entropy p).
Proof.
  unfold obstacle_ok, spawn_obstacle. cbn [rect rw rh rx ry vx vy].
  pose proof (Draws.randint_range 30 70 (entropy p) ltac:(lia)) as Hw.
  pose proof (Draws.randint_range 30 50 (entropy (p + 1)) ltac:(lia)) as Hh.
  pose proof (Draws.randint_range 0 (WIDTH - Rnd.randint 30 70 (entropy p))
                (entropy (p + 2)) ltac:(unfold WIDTH; lia)) as Hx.
  pose proof (Draws.randint_range 0 (HEIGHT - Rnd.randint 30 50 (entropy (p + 1)))
                (entropy (p + 3)) ltac:(unfold HEIGHT; lia)) as Hy.
  repeat apply conj; try lia; apply speed_spawn.
Qed.

Lemma spawn_all_ok n p :
  length (spawn_obstacles entropy n p) = n /\
  Forall obstacle_ok (spawn_obstacles entropy n p).
Proof.
  revert p. induction n as [|n IH]; intros p; [split; [reflexivity|apply List.Forall_nil]|].
  cbn [spawn_obstacles]. destruct (IH (p + 8)%nat) as [Hl Hf]. split.
  - simpl. now rewrite Hl.
  - apply List.Forall_cons; [apply spawn_ok|exact Hf].
Qed.

End WithEntropy.
End ObstacleFacts.

(** ** Invariants of the loop *)

Module Reach.
Import More Aux.

Lemma radius_of_current g r :
  Forall radius_ok (characters g) -> cur_radius g = Some r ->
  r = BALL_RADIUS \/ r = BALL_RADIUS + 8.
Proof.
  intros Hf Hr. unfold cur_radius in Hr.
  destruct (characters g !! current_char g) as [c|] eqn:E; [|discriminate].
  injection Hr as <-. exact (Forall_lookup_1 _ _ _ _ Hf E).
Qed.

Lemma radius_ok_set v g :
  v = BALL_RADIUS \/ v = BALL_RADIUS + 8 ->
  Forall radius_ok (characters g) ->
  Forall radius_ok (characters (set_cur_radius v g)).
Proof.
  intros Hv Hf. unfold set_cur_radius. simpl.
  apply Forall_alter; [exact Hf|]. intros c _ _. exact Hv.
Qed.

(** The round after the obstacle block and the timer: only the obstacles
    have moved. *)
Lemma tail_view t r3 b :
  round_view (round_timer t (hits t r3 b))
  = mkRound (start_time b) (power_active b) (power_ends_at b) (score b)
      (ball_x b, ball_y b) (coin_x b, coin_y b, coin_special b)
      (List.map obstacle_update (obstacles b)) (characters b).
Proof.
  unfold round_timer, hits, game_over.
  destruct (any_hit r3 b); simpl;
    destruct (Qle_bool GAME_DURATION (t - start_time b)); reflexivity.
Qed.

Lemma moved_on_screen r g :
  r = BALL_RADIUS \/ r = BALL_RADIUS + 8 ->
  BALL_RADIUS <= ball_x (moved r g) <= WIDTH - BALL_RADIUS /\
  BALL_RADIUS <= ball_y (moved r g) <= HEIGHT - BALL_RADIUS.
Proof.
  intros Hr. unfold moved, BALL_RADIUS, WIDTH, HEIGHT in *. simpl. lia.
Qed.

Section WithEntropy.
Variable entropy : nat -> Z.

Lemma frame_step_cases f g g' :
  frame_step entropy f g = Some g' ->
  (state (inputs entropy f g) <> STATE_PLAY /\ g' = inputs entropy f g) \/
  (state (inputs entropy f g) = STATE_PLAY /\
   update_game_state entropy (now f) (inputs entropy f g) = Some g').
Proof.
  unfold frame_step.
  destruct (decide (state (inputs entropy f g) = STATE_PLAY)) as [E|E].
  - intros H. right. now split.
  - intros [= <-]. left. now split.
Qed.

(** What every iteration keeps holds in every state a run reaches. *)
Lemma run_invariant (P : Game -> Prop) :
  (forall f g g', P g -> frame_step entropy f g = Some g' -> P g') ->
  forall fs g g', P g -> run entropy fs g = Some g' -> P g'.
Proof.
  intros Hstep fs. induction fs as [|f fs IH]; intros g g' Hg Hr.
  - now injection Hr as <-.
  - cbn [run] in Hr. destruct (running g); [|now injection Hr as <-].
    destruct (frame_step entropy f g) as [g1|] eqn:Hf; [|discriminate].
    cbn [mbind option_bind] in Hr. exact (IH g1 g' (Hstep f g g1 Hg Hf) Hr).
Qed.

Lemma coin_drawn p :
  COIN_RADIUS <= draw_coin_x entropy p <= WIDTH - COIN_RADIUS /\
  COIN_RADIUS <= draw_coin_y entropy p <= HEIGHT - COIN_RADIUS.
Proof.
  unfold draw_coin_x, draw_coin_y.
  split; apply Draws.randint_range; discriminate.
Qed.

Lemma round_ok_init t g :
  Forall radius_ok (characters g) -> round_ok (round_view (init_game entropy t g)).
Proof.
  intros Hc. unfold round_ok. cbn.
  destruct (coin_drawn (rng_pos g)) as [Hx _].
  destruct (coin_drawn (rng_pos g + 1)) as [_ Hy].
  destruct (ObstacleFacts.spawn_all_ok entropy OBSTACLE_COUNT (rng_pos g + 3))
    as [Hl Hf].
  unfold draw_coin_x, draw_coin_y in *.
  repeat apply conj; try exact Hc; try exact Hf; try exact Hl;
    try apply Hx; try apply Hy; try discriminate.
Qed.

Lemma round_ok_chars g :
  round_ok (round_view g) -> Forall radius_ok (characters g).
Proof. intros H. apply H. Qed.

Lemma round_ok_handle_event t g e :
  round_ok (round_view g) -> round_ok (round_view (handle_event entropy t g e)).
Proof.
  intros H. destruct e as [|k|]; [exact H| |exact H].
  unfold handle_event.
  destruct (state g), k; try exact H;
    apply round_ok_init; apply (round_ok_chars _ H).
Qed.

Lemma round_ok_events t evs g :
  round_ok (round_view g) ->
  round_ok (round_view (fold_left (handle_event entropy t) evs g)).
Proof.
  revert g. induction evs as [|e evs IH]; intros g H; [exact H|].
  cbn [fold_left]. apply IH. now apply round_ok_handle_event.
Qed.

Lemma round_ok_inputs f g :
  round_ok (round_view g) -> round_ok (round_view (inputs entropy f g)).
Proof.
  intros H. rewrite (proj2 (Pause.inputs_after_events entropy f g)).
  now apply round_ok_events.
Qed.

(** The state on which the obstacle block runs keeps the invariant. *)
Lemma round_ok_before_obstacles t r g :
  round_ok (round_view g) -> r = BALL_RADIUS \/ r = BALL_RADIUS + 8 ->
  round_ok (round_view (before_obstacles entropy t r g)).
Proof.
  intros (Hs & Hbx & Hby & Hcx & Hcy & Hl & Hf & Hc) Hr.
  cbn in Hs, Hbx, Hby, Hcx, Hcy, Hl, Hf, Hc.
  destruct (moved_on_screen r g Hr) as [Mx My].
  destruct (coin_drawn (rng_pos g)) as [Dx _].
  destruct (coin_drawn (rng_pos g + 1)) as [_ Dy].
  assert (R25 : BALL_RADIUS = BALL_RADIUS \/ BALL_RADIUS = BALL_RADIUS + 8) by now left.
  assert (R33 : BALL_RADIUS + 8 = BALL_RADIUS \/ BALL_RADIUS + 8 = BALL_RADIUS + 8)
    by now right.
  unfold before_obstacles, coin_step, power_timeout, collect, spawn_coin.
  destruct (coin_reached (moved r g) r); [destruct (coin_special (moved r g))|];
    match goal with
    | |- context [if ?b then _ else _] => destruct b
    end;
    unfold round_ok; cbn -[alter Z.add Z.sub BALL_RADIUS WIDTH HEIGHT COIN_RADIUS];
    repeat apply conj;
    try assumption; try lia; try apply Mx; try apply My; try apply Dx; try apply Dy;
    repeat (apply Forall_alter; [|intros; assumption]); assumption.
Qed.

Lemma round_ok_update t g g' :
  round_ok (round_view g) -> update_game_state entropy t g = Some g' ->
  round_ok (round_view g').
Proof.
  intros H Hu.
  destruct (cur_radius g) as [r|] eqn:Hr.
  2:{ unfold update_game_state, move_ball in Hu. rewrite Hr in Hu. discriminate. }
  pose proof (radius_of_current g r (round_ok_chars g H) Hr) as Hrr.
  destruct (UpdateFacts.update_closed entropy t g r Hr) as (r3 & _ & Hc).
  rewrite Hc in Hu. injection Hu as <-.
  pose proof (round_ok_before_obstacles t r g H Hrr) as Hb.
  rewrite tail_view.
  destruct Hb as (Hs & Hbx & Hby & Hcx & Hcy & Hl & Hf & Hch).
  unfold round_ok. cbn in *.
  repeat apply conj; try assumption; try apply Hbx; try apply Hby;
    try apply Hcx; try apply Hcy.
  - now rewrite List.length_map.
  - apply List.Forall_map. eapply List.Forall_impl; [|exact Hf].
    intros o Ho. now apply ObstacleFacts.update_ok.
Qed.

Lemma round_ok_frame f g g' :
  round_ok (round_view g) -> frame_step entropy f g = Some g' ->
  round_ok (round_view g').
Proof.
  intros H Hf. pose proof (round_ok_inputs f g H) as Hi.
  destruct (frame_step_cases f g g' Hf) as [[_ ->]|[_ Hu]]; [exact Hi|].
  exact (round_ok_update _ _ _ Hi Hu).
Qed.

Lemma round_ok_start t : round_ok (round_view (main_start entropy t)).
Proof.
  unfold main_start. apply round_ok_init. simpl.
  repeat (apply List.Forall_cons; [now left|]). apply List.Forall_nil.
Qed.

End WithEntropy.
End Reach.

Module UpdateFrame.
Import More Aux.

Section WithEntropy.
Variable entropy : nat -> Z.

(** The variables that the update block never assigns. *)
Lemma update_leaves t g g' :
  update_game_state entropy t g = Some g' ->
  queue g' = queue g /\ gesture_view g' = gesture_view g /\
  running g' = running g /\ start_time g' = start_time g.
Proof.
  intros Hu. destruct (cur_radius g) as [r|] eqn:Hr.
  2:{ unfold update_game_state, move_ball in Hu. rewrite Hr in Hu. discriminate. }
  destruct (UpdateFacts.update_closed entropy t g r Hr) as (r3 & _ & Hc).
  rewrite Hc in Hu. injection Hu as <-.
  unfold gesture_view. repeat apply conj; try apply f_equal2; try apply f_equal2;
    try apply f_equal2; UpdateFacts.untouched.
Qed.

Lemma queue_events t evs g :
  queue (fold_left (handle_event entropy t) evs g) = queue g.
Proof.
  revert g. induction evs as [|e evs IH]; intros g; [reflexivity|].
  cbn [fold_left]. rewrite IH.
  destruct e as [|k|]; [reflexivity| |reflexivity].
  unfold handle_event. destruct (state g), k; reflexivity.
Qed.

Lemma queue_receive f g :
  queue (receive entropy f g)
  = fold_left SerialReader.push_raw (arrivals f) (queue g).
Proof.
  unfold receive. change (queue (set_queue ?q ?h)) with q.
  now rewrite queue_events.
Qed.

Lemma queue_ok_frame f g g' :
  queue_ok (queue g) -> frame_step entropy f g = Some g' -> queue_ok (queue g').
Proof.
  intros [Hl Hc] Hf.
  assert (Hi : queue_ok (queue (inputs entropy f g))).
  { unfold inputs. change (queue (keyboard ?k ?h)) with (queue h).
    rewrite QueueInv.queue_process_serial, queue_receive. split.
    - rewrite QueueInv.removelast_length.
      destruct (QueueInv.reader_bound (arrivals f) (queue g) Hl). lia.
    - apply QueueInv.clean_removelast. now apply QueueInv.clean_run. }
  destruct (Reach.frame_step_cases entropy f g g' Hf) as [[_ ->]|[_ Hu]]; [exact Hi|].
  destruct (update_leaves _ _ _ Hu) as (-> & _). exact Hi.
Qed.

End WithEntropy.
End UpdateFrame.

(** X5. [Obstacle.update] on an obstacle that fits the screen leaves its
    size alone, puts its rectangle back on the screen whatever position it
    had, and leaves each speed as it was or reversed, so that a speed of
    a magnitude in [2, 4) keeps one. An obstacle that would cross the left
    edge by a pixel or more ends at the edge with its horizontal speed
    reversed. *)
Theorem obstacle_update_on_screen (o : Obstacle) :
  0 <= rw (rect o) <= WIDTH -> 0 <= rh (rect o) <= HEIGHT ->
  let o' := obstacle_update o in
  rw (rect o') = rw (rect o) /\ rh (rect o') = rh (rect o) /\
  0 <= rx (rect o') /\ rx (rect o') + rw (rect o') <= WIDTH /\
  0 <= ry (rect o') /\ ry (rect o') + rh (rect o') <= HEIGHT /\
  (vx o' = vx o \/ vx o' = (vx o * (-1 # 1))%Q) /\
  (vy o' = vy o \/ vy o' = (vy o * (-1 # 1))%Q) /\
  (More.speed_ok (vx o) -> More.speed_ok (vx o')) /\
  (More.speed_ok (vy o) -> More.speed_ok (vy o')) /\
  ((inject_Z (rx (rect o)) + vx o <= - (1 # 1))%Q ->
   rx (rect o') = 0 /\ vx o' = (vx o * (-1 # 1))%Q).
Proof.
  intros Hw Hh o'.
  destruct (ObstacleFacts.update_on_screen o Hw Hh) as (A & B & C & D).
  destruct (ObstacleFacts.update_speeds o) as [Ex Ey].
  fold o' in A, B, C, D, Ex, Ey.
  split; [reflexivity|]. split; [reflexivity|].
  split; [exact A|]. split; [exact B|]. split; [exact C|]. split; [exact D|].
  split; [exact Ex|]. split; [exact Ey|].
  split; [|split].
  - intros S. destruct Ex as [-> | ->]; [exact S|now apply ObstacleFacts.speed_flip].
  - intros S. destruct Ey as [-> | ->]; [exact S|now apply ObstacleFacts.speed_flip].
  - intros Hv. now apply ObstacleFacts.bounce_left.
Qed.

Lemma obstacle_update_on_screen_witness :
  let o := mkObstacle (mkRect 0 570 40 30) (- (5 # 2)) (7 # 2) in
  rx (rect (obstacle_update o)) = 0 /\
  vx (obstacle_update o) = (- (5 # 2) * (-1 # 1))%Q /\
  ry (rect (obstacle_update o)) + rh (rect (obstacle_update o)) <= HEIGHT.
Proof.
  intros o.
  destruct (obstacle_update_on_screen o) as (_ & _ & _ & _ & _ & D & _ & _ & _ & _ & L).
  - vm_compute. split; discriminate.
  - vm_compute. split; discriminate.
  - destruct L as [L1 L2]; [vm_compute; discriminate|].
    split; [exact L1|]. split; [exact L2|exact D].
Defined.

(** [uniform(2, 4)] reaches both ends: the lower one on the smallest
    draw, the upper one, by rounding, on the largest. *)
Example uniform_reaches_both_ends :
  (Rnd.uniform OBSTACLE_MIN_SPEED OBSTACLE_MAX_SPEED 0 == OBSTACLE_MIN_SPEED)%Q /\
  (Rnd.uniform OBSTACLE_MIN_SPEED OBSTACLE_MAX_SPEED (2 ^ 53 - 1)
   == OBSTACLE_MAX_SPEED)%Q.
Proof. split; vm_compute; reflexivity. Qed.

(** X6. In every state the loop reaches there are exactly
    [OBSTACLE_COUNT] obstacles, each with a width of 30..70 and a height
    of 30..50, its rectangle on the screen, and on each axis a speed of a
    magnitude from [OBSTACLE_MIN_SPEED] to [OBSTACLE_MAX_SPEED], both
    ends included. *)
Theorem obstacles_stay_on_screen (entropy : nat -> Z) (t0 : Q)
    (fs : list Frame) (g : Game) :
  run entropy fs (main_start entropy t0) = Some g ->
  length (obstacles g) = OBSTACLE_COUNT /\ Forall More.obstacle_ok (obstacles g).
Proof.
  intros Hr.
  pose proof (Reach.run_invariant entropy (fun h => More.round_ok (Aux.round_view h))
                (Reach.round_ok_frame entropy) fs _ g
                (Reach.round_ok_start entropy t0) Hr) as H.
  split; apply H.
Qed.

Lemma obstacles_stay_on_screen_witness :
  (fun g => length (obstacles g)) <$>
    run Aux.zero_entropy [Aux.tilt_frame; Aux.quiet 101]
      (main_start Aux.zero_entropy 0)
  = Some OBSTACLE_COUNT.
Proof.
  destruct (run Aux.zero_entropy [Aux.tilt_frame; Aux.quiet 101]
              (main_start Aux.zero_entropy 0)) as [g|] eqn:E.
  - simpl. f_equal.
    exact (proj1 (obstacles_stay_on_screen Aux.zero_entropy 0
                    [Aux.tilt_frame; Aux.quiet 101] g E)).
  - vm_compute in E. discriminate.
Defined.

(** X7. In every state the loop reaches the ball centre is at least
    [BALL_RADIUS] away from every edge of the screen, the coin centre at
    least [COIN_RADIUS], every character has the base radius or the
    enlarged one, and the score is not negative. *)
Theorem ball_and_coin_stay_on_screen (entropy : nat -> Z) (t0 : Q)
    (fs : list Frame) (g : Game) :
  run entropy fs (main_start entropy t0) = Some g ->
  BALL_RADIUS <= ball_x g <= WIDTH - BALL_RADIUS /\
  BALL_RADIUS <= ball_y g <= HEIGHT - BALL_RADIUS /\
  COIN_RADIUS <= coin_x g <= WIDTH - COIN_RADIUS /\
  COIN_RADIUS <= coin_y g <= HEIGHT - COIN_RADIUS /\
  Forall More.radius_ok (characters g) /\
  0 <= score g.
Proof.
  intros Hr.
  destruct (Reach.run_invariant entropy (fun h => More.round_ok (Aux.round_view h))
              (Reach.round_ok_frame entropy) fs _ g
              (Reach.round_ok_start entropy t0) Hr)
    as (Hs & Hbx & Hby & Hcx & Hcy & _ & _ & Hc).
  repeat apply conj; try apply Hbx; try apply Hby; try apply Hcx;
    try apply Hcy; assumption.
Qed.

Lemma ball_and_coin_stay_on_screen_witness :
  (fun g => bool_decide (BALL_RADIUS <= ball_x g <= WIDTH - BALL_RADIUS)) <$>
    run Aux.zero_entropy
      [Aux.tilt_frame; Aux.quiet 101; Aux.quiet 102; Aux.quiet 103]
      (main_start Aux.zero_entropy 0)
  = Some true.
Proof.
  destruct (run Aux.zero_entropy
              [Aux.tilt_frame; Aux.quiet 101; Aux.quiet 102; Aux.quiet 103]
              (main_start Aux.zero_entropy 0)) as [g|] eqn:E.
  - simpl. f_equal. apply bool_decide_eq_true_2.
    exact (proj1 (ball_and_coin_stay_on_screen Aux.zero_entropy 0 _ g E)).
  - vm_compute in E. discriminate.
Defined.

(** X8. In every state the loop reaches the queue holds at most 100
    lines, each non-empty and stripped, whatever the reader received
    between the iterations. *)
Theorem queue_stays_bounded (entropy : nat -> Z) (t0 : Q)
    (fs : list Frame) (g : Game) :
  run entropy fs (main_start entropy t0) = Some g ->
  (length (queue g) <= SerialReader.maxlen)%nat /\ Forall More.clean (queue g).
Proof.
  intros Hr.
  apply (Reach.run_invariant entropy (fun h => More.queue_ok (queue h))
           (UpdateFrame.queue_ok_frame entropy) fs (main_start entropy t0) g);
    [|exact Hr].
  split; [simpl; unfold SerialReader.maxlen; lia|apply List.Forall_nil].
Qed.

Lemma queue_stays_bounded_witness :
  (fun g => bool_decide (length (queue g) <= SerialReader.maxlen)%nat) <$>
    run Aux.zero_entropy
      [mkFrame 1 1 [] ["1,1,1"; " "; "2,2,2"; "3,3,3"]%string Aux.no_keys]
      (main_start Aux.zero_entropy 0)
  = Some true.
Proof.
  destruct (run Aux.zero_entropy
              [mkFrame 1 1 [] ["1,1,1"; " "; "2,2,2"; "3,3,3"]%string Aux.no_keys]
              (main_start Aux.zero_entropy 0)) as [g|] eqn:E.
  - simpl. f_equal. apply bool_decide_eq_true_2.
    exact (proj1 (queue_stays_bounded Aux.zero_entropy 0 _ g E)).
  - vm_compute in E. discriminate.
Defined.

(** ** Score and power-up on one update *)

Module Tick.
Import More Aux.

Section WithEntropy.
Variable entropy : nat -> Z.

Lemma coin_step_missed t r g :
  coin_reached g r = false -> coin_step entropy t r g = g.
Proof. intros H. unfold coin_step. now rewrite H. Qed.

Lemma update_score t g g' r :
  cur_radius g = Some r -> update_game_state entropy t g = Some g' ->
  score g' = score g
             + (if coin_reached (moved r g) r
                then if coin_special g then 5 else 1 else 0) /\
  (coin_reached (moved r g) r = false ->
   coin_x g' = coin_x g /\ coin_y g' = coin_y g /\
   coin_special g' = coin_special g /\ rng_pos g' = rng_pos g).
Proof.
  intros Hr Hu.
  destruct (UpdateFacts.update_closed entropy t g r Hr) as (r3 & _ & Hc).
  rewrite Hc in Hu. injection Hu as <-.
  destruct (Pickup.rest_of_update t r3 (before_obstacles entropy t r g))
    as (E1 & _ & _ & _ & E5 & E6 & E7 & E8).
  rewrite E1, E5, E6, E7, E8. unfold before_obstacles.
  destruct (Pickup.power_timeout_coin t (coin_step entropy t r (moved r g)))
    as (P1 & P2 & P3 & P4 & P5).
  rewrite P1, P2, P3, P4, P5.
  destruct (coin_reached (moved r g) r) eqn:Ec.
  - split; [|discriminate]. unfold coin_step. rewrite Ec.
    assert (Hm : cur_radius (moved r g) = Some r) by exact Hr.
    destruct (coin_special g) eqn:Es.
    + now destruct (Pickup.collect_special entropy t (moved r g) r Hm Es) as (-> & _).
    + now rewrite (Pickup.collect_ordinary entropy t (moved r g) Es).
  - rewrite (coin_step_missed t r _ Ec). split; [simpl; lia|].
    intros _. repeat apply conj; reflexivity.
Qed.


End WithEntropy.
End Tick.

(** X9. One update changes the score by 5 when the moved ball reaches a
    special coin, by 1 when it reaches an ordinary coin and not at all
    otherwise; when the coin is not reached, the coin stays where it is
    and no random number is drawn. *)
Theorem score_steps (entropy : nat -> Z) (t : Q) (g g' : Game) (r : Z) :
  cur_radius g = Some r -> update_game_state entropy t g = Some g' ->
  score g' = score g
             + (if coin_reached (Aux.moved r g) r
                then if coin_special g then 5 else 1 else 0) /\
  score g <= score g' <= score g + 5 /\
  (coin_reached (Aux.moved r g) r = false ->
   coin_x g' = coin_x g /\ coin_y g' = coin_y g /\
   coin_special g' = coin_special g /\ rng_pos g' = rng_pos g).
Proof.
  intros Hr Hu. destruct (Tick.update_score entropy t g g' r Hr Hu) as [Hs Hc].
  split; [exact Hs|]. split; [|exact Hc]. rewrite Hs.
  destruct (coin_reached _ _); [destruct (coin_special g)|]; lia.
Qed.

Lemma score_steps_witness :
  let g := set_state STATE_PLAY (main_start Aux.zero_entropy 0) in
  (fun g' => (score g', coin_x g', coin_y g')) <$>
    update_game_state Aux.zero_entropy 1 g
  = Some (score g + 0, coin_x g, coin_y g).
Proof.
  intros g.
  destruct (update_game_state Aux.zero_entropy 1 g) as [g'|] eqn:E.
  - destruct (score_steps Aux.zero_entropy 1 g g' 25) as (Hs & _ & Hc).
    + vm_compute. reflexivity.
    + exact E.
    + destruct Hc as (Hx & Hy & _); [vm_compute; reflexivity|].
      simpl. rewrite Hx, Hy. f_equal. f_equal. f_equal. rewrite Hs.
      replace (coin_reached (Aux.moved 25 g) 25) with false
        by (vm_compute; reflexivity).
      reflexivity.
  - vm_compute in E. discriminate.
Defined.



(** ** Events *)

Module EventFacts.
Import More Aux.

Section WithEntropy.
Variable entropy : nat -> Z.

Lemma running_handle_event t g e :
  running (handle_event entropy t g e) = true -> running g = true.
Proof.
  destruct e as [|k|]; [discriminate| |trivial].
  unfold handle_event. destruct (state g), k; trivial; discriminate.
Qed.

Lemma running_events t evs g :
  running (fold_left (handle_event entropy t) evs g) = true -> running g = true.
Proof.
  revert g. induction evs as [|e evs IH]; intros g H; [exact H|].
  cbn [fold_left] in H. exact (running_handle_event t g e (IH _ H)).
Qed.

Lemma running_inputs f g :
  running (inputs entropy f g)
  = running (fold_left (handle_event entropy (clock f)) (events f) g).
Proof.
  unfold inputs, receive.
  change (running (keyboard ?k ?h)) with (running h).
  unfold process_serial.
  destruct (SerialReader.get_latest _) as [[l|] q]; [|reflexivity].
  destruct (PyStr.is_empty l); [reflexivity|].
  destruct (parse_serial_line l) as [s|]; [|reflexivity].
  unfold process_sample. rewrite Frames.switch_character_cases.
  now destruct (switched _ _ _).
Qed.

Lemma running_frame f g g' :
  frame_step entropy f g = Some g' -> running g' = true -> running g = true.
Proof.
  intros Hf Hr. apply (running_events (clock f) (events f)).
  rewrite <- running_inputs.
  destruct (Reach.frame_step_cases entropy f g g' Hf) as [[_ ->]|[_ Hu]]; [exact Hr|].
  destruct (UpdateFrame.update_leaves entropy _ _ _ Hu) as (_ & _ & <- & _).
  exact Hr.
Qed.

(** An iteration outside Play on which no key goes down. *)
Lemma still_frame f g :
  state g <> STATE_PLAY -> keyless f = true ->
  frame_step entropy f g = Some (inputs entropy f g) /\
  state (inputs entropy f g) = state g /\
  round_view (inputs entropy f g) = round_view g.
Proof.
  intros Hp Hk. destruct (Pause.inputs_after_events entropy f g) as [Hs Hr].
  destruct (Pause.keyless_events entropy (clock f) (events f) g Hk) as [Hs' Hr'].
  rewrite Hs' in Hs. rewrite Hr' in Hr.
  unfold frame_step. rewrite Hs.
  destruct (decide (state g = STATE_PLAY)); [contradiction|auto].
Qed.

Lemma still_run fs g :
  state g <> STATE_PLAY -> Forall (fun f => keyless f = true) fs ->
  exists g', run entropy fs g = Some g' /\ state g' = state g /\
             round_view g' = round_view g.
Proof.
  revert g. induction fs as [|f fs IH]; intros g Hp Hk; [exists g; auto|].
  apply List.Forall_cons_iff in Hk as [Hf Hk].
  cbn [run]. destruct (running g); [|exists g; auto].
  destruct (still_frame f g Hp Hf) as (-> & Hs & Hr).
  cbn [mbind option_bind].
  destruct (IH (inputs entropy f g)) as (g' & Hrun & Hs' & Hr'); [now rewrite Hs|exact Hk|].
  exists g'. rewrite Hs', Hr', Hs, Hr. auto.
Qed.

End WithEntropy.
End EventFacts.

(** X11. Enter in Menu or GameOver starts a round: the state is Play, the
    score 0, the ball at the centre of the screen, no power-up active, the
    start time the clock read, with [OBSTACLE_COUNT] obstacles of the
    drawn sizes on the screen, their speeds of a magnitude from
    [OBSTACLE_MIN_SPEED] to [OBSTACLE_MAX_SPEED], both ends included, and
    the coin on the screen. It leaves the characters with their
    radii, the character index, the debounce timer, the movement deltas
    and the queue as they were. In Play and in Pause, Enter does
    nothing. *)
Theorem enter_starts_round (entropy : nat -> Z) (t : Q) (g : Game) :
  (state g = STATE_MENU \/ state g = STATE_GAMEOVER ->
   let g' := handle_event entropy t g (KEYDOWN K_RETURN) in
   state g' = STATE_PLAY /\ score g' = 0 /\
   ball_x g' = WIDTH / 2 /\ ball_y g' = HEIGHT / 2 /\
   power_active g' = false /\ start_time g' = t /\
   length (obstacles g') = OBSTACLE_COUNT /\
   Forall More.obstacle_ok (obstacles g') /\
   COIN_RADIUS <= coin_x g' <= WIDTH - COIN_RADIUS /\
   COIN_RADIUS <= coin_y g' <= HEIGHT - COIN_RADIUS /\
   characters g' = characters g /\
   Aux.gesture_view g' = Aux.gesture_view g /\ queue g' = queue g) /\
  (state g = STATE_PLAY \/ state g = STATE_PAUSE ->
   handle_event entropy t g (KEYDOWN K_RETURN) = g).
Proof.
  split.
  - intros Hs g'.
    assert (E : g' = init_game entropy t (set_state STATE_PLAY g)).
    { subst g'. unfold handle_event. now destruct Hs as [-> | ->]. }
    rewrite E. clear E g'.
    destruct (ObstacleFacts.spawn_all_ok entropy OBSTACLE_COUNT (rng_pos g + 3))
      as [Hl Hf].
    destruct (Reach.coin_drawn entropy (rng_pos g)) as [Hx _].
    destruct (Reach.coin_drawn entropy (rng_pos g + 1)) as [_ Hy].
    repeat apply conj; try reflexivity; try exact Hl; try exact Hf;
      try apply Hx; try apply Hy.
  - intros Hs. unfold handle_event. now destruct Hs as [-> | ->].
Qed.

Lemma enter_starts_round_witness :
  let g := main_start Aux.zero_entropy 0
           |> set_state STATE_GAMEOVER |> set_score 7 |> set_move_dx 5 in
  let g' := handle_event Aux.zero_entropy 9 g (KEYDOWN K_RETURN) in
  score g' = 0 /\ Aux.gesture_view g' = Aux.gesture_view g.
Proof.
  intros g g'.
  destruct (enter_starts_round Aux.zero_entropy 9 g) as [H _].
  destruct H as (_ & Hs & _ & _ & _ & _ & _ & _ & _ & _ & _ & Hg & _).
  - right. vm_compute. reflexivity.
  - split; [exact Hs|exact Hg].
Defined.

(** X12. Outside Play (in Menu, Pause and GameOver), as long as no key
    goes down, every iteration returns with the same state and the same
    round: start time, power-up, score, ball, coin, obstacles and
    characters keep their values, so that the final score stays on the
    GameOver screen. *)
Theorem nothing_moves_outside_play (entropy : nat -> Z)
    (fs : list Frame) (g : Game) :
  state g <> STATE_PLAY -> Forall (fun f => Aux.keyless f = true) fs ->
  exists g',
    run entropy fs g = Some g' /\ state g' = state g /\
    Aux.round_view g' = Aux.round_view g.
Proof. apply EventFacts.still_run. Qed.

Lemma nothing_moves_outside_play_witness :
  let g := set_state STATE_GAMEOVER (main_start Aux.zero_entropy 0) in
  exists g',
    run Aux.zero_entropy [More.tilt_only 100; Aux.quiet 200] g = Some g' /\
    state g' = state g /\ Aux.round_view g' = Aux.round_view g.
Proof.
  intros g. apply nothing_moves_outside_play.
  - vm_compute. discriminate.
  - repeat (apply List.Forall_cons; [vm_compute; reflexivity|]).
    apply List.Forall_nil.
Defined.

Module SampleFacts.
Import More Aux.

Lemma process_serial_sample t g s :
  latest_sample (queue g) = Some s ->
  process_serial t g
  = process_sample t s (set_queue (snd (SerialReader.get_latest (queue g))) g).
Proof.
  unfold latest_sample, process_serial.
  destruct (SerialReader.get_latest (queue g)) as [[l|] q]; simpl; [|discriminate].
  destruct (PyStr.is_empty l); [discriminate|].
  now intros ->.
Qed.

Lemma sensor_bounds a :
  Z.abs (sensor_dx a) <= BALL_SPEED /\ Z.abs (sensor_dy a) <= BALL_SPEED.
Proof.
  unfold sensor_dx, sensor_dy, BALL_SPEED.
  destruct (a >? AX_POS_THRESHOLD), (a <? AX_NEG_THRESHOLD),
    (a >? AY_POS_THRESHOLD), (a <? AY_NEG_THRESHOLD); split; lia.
Qed.

Lemma key_bounds k : Z.abs (key_dx k) <= BALL_SPEED /\ Z.abs (key_dy k) <= BALL_SPEED.
Proof.
  unfold key_dx, key_dy, BALL_SPEED.
  destruct (K_LEFT k), (K_RIGHT k), (K_UP k), (K_DOWN k); split; lia.
Qed.

End SampleFacts.

(** X13. On an iteration whose serial block interprets a sample, the
    deltas the iteration leaves do not depend on the earlier iterations:
    each is the delta of the sample plus the keyboard contribution, at
    most two steps of [BALL_SPEED] in size; opposite arrow keys held
    together cancel. *)
Theorem sample_resets_deltas (entropy : nat -> Z) (f : Frame) (g : Game) (s : Sample) :
  Aux.latest_sample (queue (receive entropy f g)) = Some s ->
  let gi := inputs entropy f g in
  move_dx gi = sensor_dx (ax s) + key_dx (keys f) /\
  move_dy gi = sensor_dy (ay s) + key_dy (keys f) /\
  Z.abs (move_dx gi) <= 2 * BALL_SPEED /\ Z.abs (move_dy gi) <= 2 * BALL_SPEED /\
  (K_LEFT (keys f) = K_RIGHT (keys f) -> move_dx gi = sensor_dx (ax s)) /\
  (K_UP (keys f) = K_DOWN (keys f) -> move_dy gi = sensor_dy (ay s)).
Proof.
  intros Hs gi.
  assert (E : gi = keyboard (keys f)
                (process_sample (now f) s
                   (set_queue (snd (SerialReader.get_latest
                                      (queue (receive entropy f g))))
                              (receive entropy f g)))).
  { subst gi. unfold inputs. now rewrite (SampleFacts.process_serial_sample _ _ s Hs). }
  destruct (NoSample.keyboard_deltas (keys f)
              (process_sample (now f) s
                 (set_queue (snd (SerialReader.get_latest
                                    (queue (receive entropy f g))))
                            (receive entropy f g)))) as [Dx Dy].
  rewrite <- E in Dx, Dy.
  destruct (Gesture.move_process_sample (now f) s
              (set_queue (snd (SerialReader.get_latest
                                 (queue (receive entropy f g))))
                         (receive entropy f g))) as [Sx Sy].
  rewrite Sx in Dx. rewrite Sy in Dy.
  destruct (SampleFacts.sensor_bounds (ax s)) as [Bx _].
  destruct (SampleFacts.sensor_bounds (ay s)) as [_ By].
  destruct (SampleFacts.key_bounds (keys f)) as [Kx Ky].
  rewrite Dx, Dy. unfold BALL_SPEED in *.
  repeat apply conj; try reflexivity; try lia.
  - intros H. unfold key_dx. rewrite H. destruct (K_RIGHT (keys f)); unfold BALL_SPEED; lia.
  - intros H. unfold key_dy. rewrite H. destruct (K_DOWN (keys f)); unfold BALL_SPEED; lia.
Qed.

Lemma sample_resets_deltas_witness :
  let g := set_move_dx 35 (main_start Aux.zero_entropy 0) in
  move_dx (inputs Aux.zero_entropy (More.tilt_only 100) g) = 5 + 5.
Proof.
  intros g.
  destruct (sample_resets_deltas Aux.zero_entropy (More.tilt_only 100) g
              (mkSample 2500 2500 0 None)) as (H & _).
  - vm_compute. reflexivity.
  - exact H.
Defined.

(** X14. Running the loop over two lists of iterations in a row is
    running it over the first and then over the second from the state
    reached. Once [running] is false the loop does nothing more, and no
    iteration sets [running] back to true. *)
Theorem run_composes (entropy : nat -> Z) :
  (forall fs1 fs2 g,
      run entropy (fs1 ++ fs2) g = run entropy fs1 g ≫= run entropy fs2) /\
  (forall fs g, running g = false -> run entropy fs g = Some g) /\
  (forall f g g',
      frame_step entropy f g = Some g' -> running g' = true -> running g = true) /\
  (forall f fs g,
      running g = true -> In QUIT (events f) ->
      run entropy (f :: fs) g = frame_step entropy f g).
Proof.
  split; [apply RoundEnd.run_app|].
  split; [apply RoundEnd.run_stopped|].
  split; [apply EventFacts.running_frame|].
  intros f fs g Hr Hq. cbn [run]. rewrite Hr.
  destruct (frame_step entropy f g) as [g'|] eqn:Hf; [|reflexivity].
  cbn [mbind option_bind]. apply RoundEnd.run_stopped.
  destruct (running g') eqn:Er; [|reflexivity]. exfalso.
  assert (Hi : running (inputs entropy f g) = true).
  { destruct (Reach.frame_step_cases entropy f g g' Hf) as [[_ <-]|[_ Hu]]; [exact Er|].
    destruct (UpdateFrame.update_leaves entropy _ _ _ Hu) as (_ & _ & <- & _).
    exact Er. }
  rewrite EventFacts.running_inputs in Hi. clear -Hi Hq.
  revert g Hi. induction (events f) as [|e evs IH]; intros g Hi; [contradiction|].
  cbn [fold_left] in Hi. destruct Hq as [-> | Hq].
  - apply EventFacts.running_events in Hi. discriminate.
  - exact (IH Hq _ Hi).
Qed.

Lemma run_composes_witness :
  let g := main_start Aux.zero_entropy 0 in
  let f := mkFrame 1 1 [KEYDOWN K_RETURN; QUIT] [] Aux.no_keys in
  run Aux.zero_entropy [f; Aux.quiet 2; Aux.quiet 3] g
  = frame_step Aux.zero_entropy f g.
Proof.
  intros g f. destruct (run_composes Aux.zero_entropy) as (_ & _ & _ & H).
  apply H; [vm_compute; reflexivity|right; now left].
Defined.

(** ** Circle and rectangle *)

Module Geometry.

Lemma inside_hits bx by_ rad r :
  0 < rad -> 0 <= rw r -> 0 <= rh r ->
  left r <= bx <= right r -> top r <= by_ <= bottom r ->
  closest_point_hit bx by_ rad r = true.
Proof.
  intros Hr Hw Hh Hx Hy. unfold closest_point_hit, closest_x, closest_y.
  replace (Z.max (left r) (Z.min bx (right r))) with bx by lia.
  replace (Z.max (top r) (Z.min by_ (bottom r))) with by_ by lia.
  unfold dist_lt, sq. rewrite !Z.sub_diag. simpl.
  apply andb_true_iff. split; apply Z.ltb_lt; nia.
Qed.

Lemma apart_misses bx by_ rad r :
  0 <= rw r -> 0 <= rh r ->
  bx + rad <= left r \/ right r + rad <= bx \/
  by_ + rad <= top r \/ bottom r + rad <= by_ ->
  closest_point_hit bx by_ rad r = false.
Proof.
  intros Hw Hh H. unfold closest_point_hit.
  destruct (Z.ltb_spec 0 rad) as [Hr|Hr].
  - apply Collision.dist_lt_far. unfold closest_x, closest_y, left, right, top, bottom in *.
    lia.
  - unfold dist_lt. destruct (Z.ltb_spec 0 rad); [lia|reflexivity].
Qed.

End Geometry.

(** X15. For a rectangle of non-negative size the collision test of the
    loop reports a hit whenever the ball centre lies in the rectangle and
    the radius is positive, and reports none whenever the centre is at
    least a radius away from the rectangle along one axis; touching at a
    distance equal to the radius is no hit. *)
Theorem collision_inside_and_apart (bx by_ rad : Z) (r : Rect) :
  0 <= rw r -> 0 <= rh r ->
  (0 < rad -> left r <= bx <= right r -> top r <= by_ <= bottom r ->
   collides bx by_ rad r = true) /\
  (bx + rad <= left r \/ right r + rad <= bx \/
   by_ + rad <= top r \/ bottom r + rad <= by_ ->
   collides bx by_ rad r = false).
Proof.
  intros Hw Hh. rewrite (Collision.collides_closest bx by_ rad r Hw Hh).
  split.
  - intros Hr Hx Hy. now apply Geometry.inside_hits.
  - now apply Geometry.apart_misses.
Qed.

Lemma collision_inside_and_apart_witness :
  collides 120 110 25 (mkRect 100 100 40 30) = true /\
  collides 165 110 25 (mkRect 100 100 40 30) = false.
Proof.
  destruct (collision_inside_and_apart 120 110 25 (mkRect 100 100 40 30)) as [H _];
    [simpl; lia|simpl; lia|].
  destruct (collision_inside_and_apart 165 110 25 (mkRect 100 100 40 30)) as [_ H'];
    [simpl; lia|simpl; lia|].
  split; [apply H|apply H']; unfold left, right, top, bottom; simpl; lia.
Defined.

(** X16. The update block never assigns the queue, the character index,
    the debounce timer, the movement deltas, [running] or the start time:
    whatever it returns has them as they were. *)
Theorem update_leaves_inputs_alone (entropy : nat -> Z) (t : Q) (g g' : Game) :
  update_game_state entropy t g = Some g' ->
  queue g' = queue g /\ current_char g' = current_char g /\
  last_switch g' = last_switch g /\
  move_dx g' = move_dx g /\ move_dy g' = move_dy g /\
  running g' = running g /\ start_time g' = start_time g.
Proof.
  intros Hu.
  destruct (UpdateFrame.update_leaves entropy t g g' Hu) as (Hq & Hg & Hr & Hs).
  unfold Aux.gesture_view in Hg. injection Hg as H1 H2 H3 H4.
  repeat apply conj; assumption.
Qed.

Lemma update_leaves_inputs_alone_witness :
  let g := main_start Aux.first_coin_under_ball 0
           |> set_state STATE_PLAY |> set_move_dx 5 in
  move_dx <$> update_game_state Aux.first_coin_under_ball 3 g = Some 5.
Proof.
  intros g.
  destruct (update_game_state Aux.first_coin_under_ball 3 g) as [g'|] eqn:E.
  - destruct (update_leaves_inputs_alone _ _ _ _ E) as (_ & _ & _ & H & _).
    simpl. now rewrite H.
  - vm_compute in E. discriminate.
Defined.

Module TransitionFacts.
Import Aux.

Section WithEntropy.
Variable entropy : nat -> Z.

Lemma gameover_handle_event t g e :
  state (handle_event entropy t g e) = STATE_GAMEOVER ->
  state g = STATE_GAMEOVER /\
  round_view (handle_event entropy t g e) = round_view g.
Proof.
  destruct e as [|k|]; [auto| |auto].
  unfold handle_event. destruct (state g) eqn:Es, k; simpl;
    try discriminate; try rewrite Es; try discriminate; auto.
Qed.

Lemma gameover_events t evs g :
  state (fold_left (handle_event entropy t) evs g) = STATE_GAMEOVER ->
  state g = STATE_GAMEOVER /\
  round_view (fold_left (handle_event entropy t) evs g) = round_view g.
Proof.
  revert g. induction evs as [|e evs IH]; intros g H; [auto|].
  cbn [fold_left] in *. destruct (IH _ H) as [Hs Hr].
  destruct (gameover_handle_event t g e Hs) as [Hs' Hr'].
  split; [exact Hs'|]. now rewrite Hr, Hr'.
Qed.

End WithEntropy.
End TransitionFacts.

(** X17. GameOver is entered by the update block only. When the events of
    an iteration end in GameOver, the state was GameOver before them and
    they left the round as it was; and an iteration that returns in
    GameOver either ran the update block from Play into GameOver or began
    in GameOver and returns the same round. *)
Theorem gameover_only_by_update (entropy : nat -> Z) :
  (forall t evs g,
      state (fold_left (handle_event entropy t) evs g) = STATE_GAMEOVER ->
      state g = STATE_GAMEOVER /\
      Aux.round_view (fold_left (handle_event entropy t) evs g) = Aux.round_view g) /\
  (forall f g g',
      frame_step entropy f g = Some g' -> state g' = STATE_GAMEOVER ->
      Aux.went_over entropy f g = true \/
      (state g = STATE_GAMEOVER /\ Aux.round_view g' = Aux.round_view g)).
Proof.
  split; [apply TransitionFacts.gameover_events|].
  intros f g g' Hf Hs.
  destruct (Reach.frame_step_cases entropy f g g' Hf) as [[Hn ->]|[Hp Hu]].
  - right. destruct (Pause.inputs_after_events entropy f g) as [Es Er].
    rewrite Es in Hs.
    destruct (TransitionFacts.gameover_events entropy _ _ _ Hs) as [Hg Hr].
    split; [exact Hg|]. now rewrite Er, Hr.
  - left. unfold Aux.went_over. rewrite Hf. simpl.
    apply andb_true_iff. split; apply bool_decide_eq_true_2; [exact Hp|].
    now rewrite Hs.
Qed.

Lemma gameover_only_by_update_witness :
  let g := set_state STATE_PLAY (main_start Aux.obstacle_on_ball 0) in
  Aux.went_over Aux.obstacle_on_ball (Aux.quiet 1) g = true \/
  (state g = STATE_GAMEOVER /\
   Aux.round_view (inputs Aux.obstacle_on_ball (Aux.quiet 1) g) = Aux.round_view g).
Proof.
  intros g.
  destruct (frame_step Aux.obstacle_on_ball (Aux.quiet 1) g) as [g'|] eqn:E.
  - destruct (gameover_only_by_update Aux.obstacle_on_ball) as [_ H].
    destruct (H (Aux.quiet 1) g g' E) as [Hw|[Hs _]].
    + vm_compute in E. injection E as <-. reflexivity.
    + now left.
    + vm_compute in Hs. discriminate.
  - vm_compute in E. discriminate.
Defined.

(** ** Repeated switches and repeated keys *)

Module Repeat.
Import More Aux.

Lemma advance_thrice t1 t2 t3 g :
  length (characters g) = 3%nat -> (current_char g < 3)%nat ->
  current_char (advance t3 (advance t2 (advance t1 g))) = current_char g.
Proof.
  intros Hl Hc. simpl. rewrite Hl.
  destruct (current_char g) as [|[|[|n]]]; try reflexivity; lia.
Qed.

Section WithEntropy.
Variable entropy : nat -> Z.

(** An iteration with no event and no arrival on an empty queue. *)
Lemma keys_only_frame f g :
  events f = [] -> arrivals f = [] -> queue g = [] -> char_inv g ->
  exists g',
    frame_step entropy f g = Some g' /\
    move_dx g' = move_dx g + key_dx (keys f) /\
    move_dy g' = move_dy g + key_dy (keys f) /\
    queue g' = [] /\ running g' = running g /\ char_inv g'.
Proof.
  intros He Ha Hq Hi.
  assert (Hrec : receive entropy f g = set_queue (queue g) g).
  { unfold receive. now rewrite He, Ha. }
  assert (Hn : latest_sample (queue (receive entropy f g)) = None).
  { rewrite Hrec. simpl. now rewrite Hq. }
  pose proof (NoSample.inputs_no_sample entropy f g Hn) as Ei.
  destruct (NoSample.keyboard_deltas (keys f)
              (set_queue (snd (SerialReader.get_latest (queue (receive entropy f g))))
                         (receive entropy f g))) as [Dx Dy].
  rewrite <- Ei in Dx, Dy.
  change (move_dx (set_queue ?q ?h)) with (move_dx h) in Dx.
  change (move_dy (set_queue ?q ?h)) with (move_dy h) in Dy.
  rewrite Hrec in Dx, Dy.
  change (move_dx (set_queue ?q ?h)) with (move_dx h) in Dx.
  change (move_dy (set_queue ?q ?h)) with (move_dy h) in Dy.
  assert (Qi : queue (inputs entropy f g) = []).
  { unfold inputs. change (queue (keyboard ?k ?h)) with (queue h).
    rewrite QueueInv.queue_process_serial, Hrec. simpl. now rewrite Hq. }
  assert (Ri : running (inputs entropy f g) = running g).
  { rewrite EventFacts.running_inputs. now rewrite He. }
  pose proof (CharIndex.char_inv_inputs entropy f g Hi) as Ci.
  unfold frame_step.
  destruct (decide (state (inputs entropy f g) = STATE_PLAY)).
  - destruct (Frames.update_total entropy (now f) (inputs entropy f g))
      as (g' & Hu & Hs).
    { destruct Ci as [-> Hc]. exact Hc. }
    exists g'. split; [exact Hu|].
    destruct (UpdateFrame.update_leaves entropy _ _ _ Hu) as (Eq & Eg & Er & _).
    unfold gesture_view in Eg. injection Eg as _ _ Ex Ey.
    rewrite Ex, Ey, Eq, Er.
    repeat apply conj; try assumption.
    + exact (proj1 (CharIndex.char_inv_shape _ _ Hs Ci)).
    + exact (proj2 (CharIndex.char_inv_shape _ _ Hs Ci)).
  - exists (inputs entropy f g). repeat apply conj; try assumption; try reflexivity.
    + apply Ci.
    + apply Ci.
Qed.

Lemma keys_only_run k fs g :
  Forall (fun f => events f = [] /\ arrivals f = [] /\ keys f = k) fs ->
  running g = true -> queue g = [] -> char_inv g ->
  exists g',
    run entropy fs g = Some g' /\
    move_dx g' = move_dx g + Z.of_nat (length fs) * key_dx k /\
    move_dy g' = move_dy g + Z.of_nat (length fs) * key_dy k.
Proof.
  revert g. induction fs as [|f fs IH]; intros g Hf Hr Hq Hi.
  - exists g. simpl. repeat split; lia.
  - apply List.Forall_cons_iff in Hf as [(He & Ha & Hk) Hf].
    destruct (keys_only_frame f g He Ha Hq Hi) as (g1 & H1 & Dx & Dy & Q1 & R1 & C1).
    cbn [run]. rewrite Hr, H1. cbn [mbind option_bind].
    destruct (IH g1 Hf) as (g' & Hrun & Ex & Ey); [congruence|exact Q1|exact C1|].
    exists g'. split; [exact Hrun|].
    rewrite Ex, Ey, Dx, Dy, Hk. cbn [length]. split; lia.
Qed.

End WithEntropy.
End Repeat.

(** X18. Three successful switches in a row come back to the character
    that was current before them. *)
Theorem three_switches_cycle (t1 t2 t3 : Q) (g : Game) :
  Aux.char_inv g ->
  current_char (advance t3 (advance t2 (advance t1 g))) = current_char g /\
  current_char (advance t1 g) <> current_char g.
Proof.
  intros [Hl Hc]. split; [now apply Repeat.advance_thrice|].
  simpl. rewrite Hl.
  destruct (current_char g) as [|[|[|n]]]; simpl; try discriminate; lia.
Qed.

Lemma three_switches_cycle_witness :
  let g := advance 1 (main_start Aux.zero_entropy 0) in
  current_char (advance 4 (advance 3 (advance 2 g))) = current_char g.
Proof.
  intros g. apply three_switches_cycle. split; vm_compute; [reflexivity|lia].
Defined.

(** X19. With no sensor data (an empty queue and no arrivals) and no
    events, the deltas are never reset: after [n] iterations with the same
    arrow keys held, each delta is its value before them plus [n] times
    the keyboard contribution of one iteration. *)
Theorem held_keys_add_up (entropy : nat -> Z) (k : Pressed)
    (fs : list Frame) (g : Game) :
  Forall (fun f => events f = [] /\ arrivals f = [] /\ keys f = k) fs ->
  running g = true -> queue g = [] -> Aux.char_inv g ->
  exists g',
    run entropy fs g = Some g' /\
    move_dx g' = move_dx g + Z.of_nat (length fs) * key_dx k /\
    move_dy g' = move_dy g + Z.of_nat (length fs) * key_dy k.
Proof. apply Repeat.keys_only_run. Qed.

Lemma held_keys_add_up_witness :
  let k := mkPressed false true false false in
  let f := mkFrame 1 1 [] [] k in
  exists g',
    run Aux.zero_entropy [f; f; f]
      (set_state STATE_PLAY (main_start Aux.zero_entropy 0)) = Some g' /\
    move_dx g' = 0 + 3 * key_dx k /\ move_dy g' = 0 + 3 * key_dy k.
Proof.
  intros k f.
  apply (held_keys_add_up Aux.zero_entropy k [f; f; f]
           (set_state STATE_PLAY (main_start Aux.zero_entropy 0))).
  - repeat (apply List.Forall_cons; [repeat split|]). apply List.Forall_nil.
  - vm_compute. reflexivity.
  - vm_compute. reflexivity.
  - split; vm_compute; [reflexivity|lia].
Defined.
